(** * Split editor: scroll mapping, stop extraction, sync lock and edit
      propagation of [src/components/MilkdownEditor.tsx].

    JavaScript numbers are binary64.  They are modelled in three ways:
    - as exact rationals ([Q]), for the parts of the code that compare,
      select and subtract numbers and for statements that the rounding of
      the arithmetic does not touch;
    - in [Rounded], as rationals with the rounding written out: every
      arithmetic operation of the mapper is the exact one followed by a
      rounding function [rnd], of which only what binary64 rounding to
      nearest guarantees is assumed ([Rounded.Laws]); the identity is one
      such function, so the exact reading is an instance;
    - in [F64], on the primitive binary64 numbers of the kernel, to
      evaluate the mapper as the engine does.
    Infinities and NaN are outside all three.  Equality of rationals is
    [Qeq] ([==]).  Strings are sequences of UTF-16 code units. *)

From Stdlib Require Import QArith Qround Lqa Lia ZArith NArith List Bool.
From Stdlib Require Import Sorted.
From Stdlib Require Import Floats.PrimFloat.
Import ListNotations.

Open Scope Q_scope.

(** ** Numbers and arrays *)

Module Num.

(** [Math.max] and [Math.min] on two numbers. *)
Definition max (a b : Q) : Q := if Qle_bool a b then b else a.
Definition min (a b : Q) : Q := if Qle_bool a b then a else b.

(** [Math.abs]. *)
Definition abs (a : Q) : Q := if Qle_bool 0 a then a else - a.

(** [a > b] and [a >= b] as the tests the source branches on. *)
Definition gtb (a b : Q) : bool := negb (Qle_bool a b).
Definition geb (a b : Q) : bool := Qle_bool b a.

(** The number of a length or of a loop index. *)
Definition of_nat (n : nat) : Q := inject_Z (Z.of_nat n).

(** [arr[i]] for an integer index: [None] is [undefined]. *)
Definition get (arr : list Q) (i : Z) : option Q :=
  if (i <? 0)%Z then None else nth_error arr (Z.to_nat i).

(** [x ?? y]. *)
Definition nullish (x : option Q) (y : Q) : Q :=
  match x with Some v => v | None => y end.

End Num.

(** A sequence of numbers is non-decreasing when each entry is at most the
    next one. *)
Fixpoint nondecreasing (l : list Q) : Prop :=
  match l with
  | x :: ((y :: _) as r) => x <= y /\ nondecreasing r
  | _ => True
  end.

(** ** The piecewise mapper *)

(** [clamp], source lines 36-37. *)
Definition clamp (value lo hi : Q) : Q := Num.min hi (Num.max lo value).

(** The piecewise-linear reading of [stops] at the real index [x]: the body
    of the callback of [resampleStops] from [const i = Math.floor(x)] on.
    The arithmetic here and in [resampleIndex] and [mapSegment] is that of
    the rationals, without the rounding of binary64; [Rounded.interpolate],
    [Rounded.resampleIndex] and [Rounded.mapSegment] below are the same
    lines with each operation rounded. *)
Definition interpolate (stops : list Q) (x : Q) : Q :=
  let maxIndex := (Z.of_nat (length stops) - 1)%Z in
  let i := Qfloor x in
  let t := x - inject_Z i in
  let lastStop := nth (Z.to_nat maxIndex) stops 0 in
  let a := Num.nullish (Num.get stops i) lastStop in
  let b := Num.nullish (Num.get stops (Z.min (i + 1) maxIndex)) lastStop in
  a + (b - a) * t.

(** The real index [x = f * maxIndex] that entry [j] of the resampled array
    reads: the first two lines of the callback of [resampleStops]. *)
Definition resampleIndex (stops : list Q) (nextLen : nat) (j : nat) : Q :=
  let maxIndex := (Z.of_nat (length stops) - 1)%Z in
  let f := if Nat.eqb nextLen 1 then 0
           else Num.of_nat j / Num.of_nat (nextLen - 1) in
  f * inject_Z maxIndex.

(** One entry of the resampled array: the callback of [Array.from] in
    [resampleStops], for index [j]. *)
Definition resampleAt (stops : list Q) (nextLen : nat) (j : nat) : Q :=
  interpolate stops (resampleIndex stops nextLen j).

(** [resampleStops], source lines 49-66.  [nextLen] is a length. *)
Definition resampleStops (stops : list Q) (nextLen : nat) : list Q :=
  if Nat.eqb nextLen 0 then []
  else if Nat.eqb (length stops) nextLen then stops
  else match stops with
       | [] => map (fun _ => 0) (seq 0 nextLen)
       | [s] => map (fun _ => s) (seq 0 nextLen)
       | _ => map (resampleAt stops nextLen) (seq 0 nextLen)
       end.

(** The loop [while (i < len - 2 && top > fStops[i + 1]) i++], started at
    [i] with [k = len - 2 - i] iterations left before the first test fails. *)
Fixpoint scanSegment (top : Q) (fStops : list Q) (k i : nat) : nat :=
  match k with
  | O => i
  | S k' =>
      if Num.gtb top (nth (S i) fStops 0)
      then scanSegment top fStops k' (S i)
      else i
  end.

(** The last four lines of [mapScrollTop]: interpolation within segment
    [i] of the resampled stops, in the arithmetic of the rationals. *)
Definition mapSegment (top : Q) (fStops tStops : list Q) (i : nat) : Q :=
  let a := nth i fStops 0 in
  let b := nth (S i) fStops 0 in
  let t := if Qeq_bool b a then 0 else clamp ((top - a) / (b - a)) 0 1 in
  nth i tStops 0 + (nth (S i) tStops 0 - nth i tStops 0) * t.

(** The stop sequence used for one side: the given one when it has at least
    two entries, else [[0, max]]. *)
Definition stopsOrTrivial (stops : list Q) (max : Q) : list Q :=
  if (2 <=? length stops)%nat then stops else [0; max].

(** The common length [Math.max(2, Math.min(from.length, to.length))]. *)
Definition commonLen (from to : list Q) : nat :=
  Nat.max 2 (Nat.min (length from) (length to)).

(** [mapScrollTop], source lines 68-95.  The reads [fStops[i]],
    [fStops[i + 1]], [tStops[i]] and [tStops[i + 1]] are in range
    ([mapScrollTop_reads_in_range] below), so the default of [nth] is never
    used. *)
Definition mapScrollTop (fromTop : Q) (fromStops toStops : list Q)
    (fromMax toMax : Q) : Q :=
  if Qle_bool fromMax 0 || Qle_bool toMax 0 then
    let ratio := if Qle_bool fromMax 0 then 0
                 else clamp (fromTop / fromMax) 0 1 in
    ratio * toMax
  else
    let from := stopsOrTrivial fromStops fromMax in
    let to := stopsOrTrivial toStops toMax in
    let len := commonLen from to in
    let fStops := resampleStops from len in
    let tStops := resampleStops to len in
    let top := clamp fromTop 0 fromMax in
    let i := scanSegment top fStops (len - 2) 0 in
    mapSegment top fStops tStops i.

(** ** Text *)

Module Text.

(** A string: its UTF-16 code units. *)
Definition t := list N.

(** [a === b] on strings. *)
Fixpoint eqb (a b : t) : bool :=
  match a, b with
  | [], [] => true
  | x :: a', y :: b' => N.eqb x y && eqb a' b'
  | _, _ => false
  end.

(** The code units [\s] and [trim] treat as white space: WhiteSpace and
    LineTerminator of ECMAScript. *)
Definition isSpace (c : N) : bool :=
  ((9 <=? c) && (c <=? 13) || (c =? 32) || (c =? 160) || (c =? 5760)
   || (8192 <=? c) && (c <=? 8202) || (c =? 8232) || (c =? 8233)
   || (c =? 8239) || (c =? 8287) || (c =? 12288) || (c =? 65279))%N.

(** [markdown.split("\n")]: never empty. *)
Fixpoint splitLines (s : t) : list t :=
  match s with
  | [] => [[]]
  | c :: r =>
      if (c =? 10)%N then [] :: splitLines r
      else match splitLines r with
           | l :: ls => (c :: l) :: ls
           | [] => [[c]]
           end
  end.

(** [line.trim() === ""]. *)
Definition isBlank (line : t) : bool := forallb isSpace line.

(** The number of leading [#] of a line. *)
Fixpoint leadingHashes (line : t) : nat :=
  match line with
  | c :: r => if (c =? 35)%N then S (leadingHashes r) else O
  | [] => O
  end.

(** [/^#{1,6}\s+/.test(line)]: one to six [#], then white space.  A seventh
    [#] is not white space, so no shorter run of [#] matches either. *)
Definition isHeadingLine (line : t) : bool :=
  let h := leadingHashes line in
  (1 <=? h)%nat && (h <=? 6)%nat &&
  match skipn h line with
  | c :: _ => isSpace c
  | [] => false
  end.

End Text.

(** ** The stop extractor *)

(** The loop of [extractHeadingLineStarts] from line index [i] on. *)
Fixpoint headingStartsFrom (i : nat) (lines : list Text.t) : list nat :=
  match lines with
  | [] => []
  | l :: r =>
      (if Text.isHeadingLine l then [i] else []) ++ headingStartsFrom (S i) r
  end.

(** [extractHeadingLineStarts], source lines 105-112. *)
Definition extractHeadingLineStarts (markdown : Text.t) : list nat :=
  headingStartsFrom 0 (Text.splitLines markdown).

(** The loop of [extractBlockLineStarts] at line index [i], [prev] being
    line [i - 1]. *)
Fixpoint blockStartsFrom (i : nat) (prev : Text.t) (lines : list Text.t)
  : list nat :=
  match lines with
  | [] => []
  | cur :: r =>
      (if Text.isBlank prev && negb (Text.isBlank cur) then [i] else [])
      ++ blockStartsFrom (S i) cur r
  end.

(** [Array.from(new Set(xs))]: first occurrences, in order. *)
Fixpoint uniq (xs : list nat) : list nat :=
  match xs with
  | [] => []
  | x :: r => x :: filter (fun y => negb (Nat.eqb y x)) (uniq r)
  end.

(** [xs.sort((a, b) => a - b)] on line numbers. *)
Fixpoint insertNat (x : nat) (xs : list nat) : list nat :=
  match xs with
  | [] => [x]
  | y :: r => if (x <=? y)%nat then x :: xs else y :: insertNat x r
  end.

Definition sortNat (xs : list nat) : list nat :=
  fold_right insertNat [] xs.

(** [extractBlockLineStarts], source lines 114-123. *)
Definition extractBlockLineStarts (markdown : Text.t) : list nat :=
  match Text.splitLines markdown with
  | [] => sortNat (uniq [O])
  | l0 :: r => sortNat (uniq (O :: blockStartsFrom 1 l0 r))
  end.

(** [xs.sort((a, b) => a - b)] on numbers. *)
Fixpoint insertNum (x : Q) (xs : list Q) : list Q :=
  match xs with
  | [] => [x]
  | y :: r => if Qle_bool x y then x :: xs else y :: insertNum x r
  end.

Definition sortNum (xs : list Q) : list Q := fold_right insertNum [] xs.

(** The callback of
    [.filter((x, idx, arr) => idx === 0 || x >= (arr[idx - 1] ?? 0))]
    from the second entry on, [prev] being [arr[idx - 1]], the entry before
    [x] in the array the filter runs on (always defined for [idx >= 1], so
    the [?? 0] is never taken). *)
Fixpoint keepNotBelowPrev (prev : Q) (xs : list Q) : list Q :=
  match xs with
  | [] => []
  | x :: r =>
      (if Num.geb x prev then [x] else []) ++ keepNotBelowPrev x r
  end.

Definition filterNotBelowPrev (xs : list Q) : list Q :=
  match xs with
  | [] => []
  | x :: r => x :: keepNotBelowPrev x r
  end.

(** The callback of the [reduce] that drops an entry within 0.5 of the last
    kept one. *)
Definition dedupeStep (acc : list Q) (x : Q) : list Q :=
  match acc with
  | [] => acc ++ [x]
  | _ => if Num.gtb (Num.abs (x - last acc 0)) (1 # 2)
         then acc ++ [x] else acc
  end.

Definition dedupe (xs : list Q) : list Q := fold_left dedupeStep xs [].

(** What the [reduce] appends after the kept entry [k] while it reads [xs]
    ([dedupe_cons] below). *)
Fixpoint dedupeFrom (k : Q) (xs : list Q) : list Q :=
  match xs with
  | [] => []
  | x :: r =>
      if Num.gtb (Num.abs (x - k)) (1 # 2)
      then x :: dedupeFrom x r
      else dedupeFrom k r
  end.

(** A scrollable element: the fields the component reads.  [lineHeight] is
    [parseFloat(getComputedStyle(el).lineHeight)], [None] when that is not a
    finite number; [rectTop] is [getBoundingClientRect().top]. *)
Record Element := mkElement {
  scrollTop : Q;
  scrollHeight : Q;
  clientHeight : Q;
  lineHeight : option Q;
  rectTop : Q
}.

(** [Math.max(0, el.scrollHeight - el.clientHeight)]. *)
Definition maxScroll (el : Element) : Q :=
  Num.max 0 (scrollHeight el - clientHeight el).

(** [getLineHeightPx], source lines 97-103. *)
Definition getLineHeightPx (el : Element) : Q :=
  match lineHeight el with
  | None => 20
  | Some lh => if Qeq_bool lh 0 then 20 else lh
  end.

(** A node of the rendered document as [descendants] passes it:
    whether [node.type.name] is ["heading"], and its position. *)
Record Node := mkNode { isHeading : bool; nodePos : Z }.

(** The view of the rendering engine: the nodes [doc.descendants] visits,
    the offsets [doc.forEach] visits, and [coordsAtPos(pos).top], [None]
    when the query throws. *)
Record View := mkView {
  descendants : list Node;
  topLevel : list Z;
  coordsAtPos : Z -> option Q
}.

Record Stops := mkStops { sourceStops : list Q; editorStops : list Q }.

(** One anchor of the rendered pane, or nothing when the query throws. *)
Definition editorAnchor (view : View) (editorEl : Element) (editorMax : Q)
    (pos : Z) : list Q :=
  match coordsAtPos view (pos + 1)%Z with
  | Some c => [clamp (c - rectTop editorEl + scrollTop editorEl) 0 editorMax]
  | None => []
  end.

Definition editorHeadingStops (view : View) (editorEl : Element)
    (editorMax : Q) : list Q :=
  flat_map (fun n => if isHeading n
                     then editorAnchor view editorEl editorMax (nodePos n)
                     else [])
           (descendants view).

Definition editorBlockStops (view : View) (editorEl : Element)
    (editorMax : Q) : list Q :=
  flat_map (editorAnchor view editorEl editorMax) (topLevel view).

(** The source side of [recomputeStops], source lines 207-222. *)
Definition computeSourceStops (markdown : Text.t) (sourceEl : Element)
  : list Q :=
  let sourceMax := maxScroll sourceEl in
  let lh := getLineHeightPx sourceEl in
  let headingLines := extractHeadingLineStarts markdown in
  let blockLines := extractBlockLineStarts markdown in
  let sourceLines := if (2 <=? length headingLines)%nat
                     then headingLines else blockLines in
  dedupe (filterNotBelowPrev
            ([0] ++ map (fun line => clamp (Num.of_nat line * lh) 0 sourceMax)
                        sourceLines
                 ++ [sourceMax])).

(** The rendered side of [recomputeStops], source lines 224-259. *)
Definition computeEditorStops (view : View) (editorEl : Element) : list Q :=
  let editorMax := maxScroll editorEl in
  let headings := editorHeadingStops view editorEl editorMax in
  let blocks := editorBlockStops view editorEl editorMax in
  let editorAnchorsRaw := if (2 <=? length headings)%nat
                          then headings else blocks in
  dedupe (sortNum ([0] ++ editorAnchorsRaw ++ [editorMax])).

(** [recomputeStops], source lines 195-262: the new value of [stopsRef], or
    [None] when an element or the view is missing and nothing is written. *)
Definition recomputeStops (markdownRef : Text.t)
    (sourceRef wysiwygScrollRef : option Element) (view : option View)
  : option Stops :=
  match sourceRef, wysiwygScrollRef, view with
  | Some sourceEl, Some editorScrollEl, Some v =>
      Some (mkStops (computeSourceStops markdownRef sourceEl)
                    (computeEditorStops v editorScrollEl))
  | _, _, _ => None
  end.

(** ** The scroll sync controller *)

Inductive Pane := source | editor.

Definition Pane_eqb (a b : Pane) : bool :=
  match a, b with
  | source, source | editor, editor => true
  | _, _ => false
  end.

(** The refs of the scroll controller.  A pending scroll is kept as its
    target: its element is the element of the pane it is filed under. *)
Record Scroll := mkScroll {
  stopsRef : Stops;
  pendingSource : option Q;
  pendingEditor : option Q;
  syncRafRef : bool;
  syncLockRef : option Pane;
  syncLockUntilRef : Q
}.

Definition setLock (l : option Pane) (until : Q) (s : Scroll) : Scroll :=
  mkScroll (stopsRef s) (pendingSource s) (pendingEditor s) (syncRafRef s)
           l until.

Definition setPending (key : Pane) (target : Q) (s : Scroll) : Scroll :=
  match key with
  | source => mkScroll (stopsRef s) (Some target) (pendingEditor s)
                       (syncRafRef s) (syncLockRef s) (syncLockUntilRef s)
  | editor => mkScroll (stopsRef s) (pendingSource s) (Some target)
                       (syncRafRef s) (syncLockRef s) (syncLockUntilRef s)
  end.

Definition setSyncRaf (b : bool) (s : Scroll) : Scroll :=
  mkScroll (stopsRef s) (pendingSource s) (pendingEditor s) b
           (syncLockRef s) (syncLockUntilRef s).


(** [acquireLock], source lines 323-326; [now] is [performance.now()]. *)
Definition acquireLock (who : Pane) (ms : Q) (now : Q) (s : Scroll)
  : Scroll :=
  setLock (Some who) (now + ms) s.

(** [isLockedByOther], source lines 328-337: the answer and the refs
    after the check. *)
Definition isLockedByOther (who : Pane) (now : Q) (s : Scroll)
  : bool * Scroll :=
  match syncLockRef s with
  | None => (false, s)
  | Some locked =>
      if Num.gtb now (syncLockUntilRef s)
      then (false, setLock None (syncLockUntilRef s) s)
      else (negb (Pane_eqb locked who), s)
  end.

(** [scheduleScrollTop], source lines 339-361, up to the frame request. *)
Definition scheduleScrollTop (key : Pane) (target : Q) (s : Scroll)
  : Scroll :=
  let s1 := setPending key target s in
  if syncRafRef s1 then s1 else setSyncRaf true s1.



(** [syncSourceToEditor], source lines 363-383.  [now1] and [now2] are the
    two readings of [performance.now()], in the lock check and in
    [acquireLock]. *)
Definition syncSourceToEditor (now1 now2 : Q)
    (sourceRef wysiwygScrollRef : option Element) (s : Scroll) : Scroll :=
  let (locked, s1) := isLockedByOther source now1 s in
  if locked then s1
  else match sourceRef, wysiwygScrollRef with
       | Some sourceEl, Some editorEl =>
           let target :=
             mapScrollTop (scrollTop sourceEl)
                          (sourceStops (stopsRef s1)) (editorStops (stopsRef s1))
                          (maxScroll sourceEl) (maxScroll editorEl) in
           scheduleScrollTop editor target (acquireLock source 260 now2 s1)
       | _, _ => s1
       end.

(** [syncEditorToSource], source lines 385-405. *)
Definition syncEditorToSource (now1 now2 : Q)
    (sourceRef wysiwygScrollRef : option Element) (s : Scroll) : Scroll :=
  let (locked, s1) := isLockedByOther editor now1 s in
  if locked then s1
  else match sourceRef, wysiwygScrollRef with
       | Some sourceEl, Some editorEl =>
           let target :=
             mapScrollTop (scrollTop editorEl)
                          (editorStops (stopsRef s1)) (sourceStops (stopsRef s1))
                          (maxScroll editorEl) (maxScroll sourceEl) in
           scheduleScrollTop source target (acquireLock editor 260 now2 s1)
       | _, _ => s1
       end.

(** The scroll handler of pane [who]. *)
Definition onScroll (who : Pane) :=
  match who with
  | source => syncSourceToEditor
  | editor => syncEditorToSource
  end.

Definition other (who : Pane) : Pane :=
  match who with source => editor | editor => source end.

Definition pendingOf (key : Pane) (s : Scroll) : option Q :=
  match key with source => pendingSource s | editor => pendingEditor s end.

(** The target the scroll handler of pane [who] computes for the other
    pane. *)
Definition mappedTarget (who : Pane) (sourceEl editorEl : Element)
    (stops : Stops) : Q :=
  match who with
  | source => mapScrollTop (scrollTop sourceEl)
                           (sourceStops stops) (editorStops stops)
                           (maxScroll sourceEl) (maxScroll editorEl)
  | editor => mapScrollTop (scrollTop editorEl)
                           (editorStops stops) (sourceStops stops)
                           (maxScroll editorEl) (maxScroll sourceEl)
  end.

(** ** The edit propagation controller *)

(** The props of [InnerEditor]. *)
Record Props := mkProps { initialMarkdown : Text.t; debounceMs : Q }.

(** The rendering engine as the component sees it: the texts it passes to
    the [markdownUpdated] listener, synchronously, while [replaceAll] of a
    text runs. *)
Record Engine := mkEngine { emittedOnReplace : Text.t -> list Text.t }.

(** The state and refs of the edit controller.  [hasEditor] says whether
    [get()] returns a handle; [timer] is the pending time-out of the
    debounce effect, with its due time and the [markdown] its closure
    holds; [clearQueued] is the queued microtask that resets
    [applyingFromSourceRef]; [replaceAllCalls] lists the calls of
    [replaceAll] so far, each with the due time of the time-out that made
    it, oldest first. *)
Record Edit := mkEdit {
  markdown : Text.t;
  markdownRef : Text.t;
  lastMarkdownFromEditorRef : Text.t;
  applyingFromSourceRef : bool;
  hasEditor : bool;
  timer : option (Q * Text.t);
  clearQueued : bool;
  recomputeRafRef : bool;
  replaceAllCalls : list (Q * Text.t)
}.

(** The component after its first render and effects. *)
Definition initialEdit (P : Props) (hasEd : bool) : Edit :=
  mkEdit (initialMarkdown P) (initialMarkdown P) (initialMarkdown P)
         false hasEd None false true [].

(** [scheduleRecomputeStops], source lines 264-270, up to the frame
    request. *)
Definition scheduleRecomputeStops (e : Edit) : Edit :=
  if recomputeRafRef e then e
  else mkEdit (markdown e) (markdownRef e) (lastMarkdownFromEditorRef e)
              (applyingFromSourceRef e) (hasEditor e) (timer e)
              (clearQueued e) true (replaceAllCalls e).

(** The debounce effect, source lines 272-297, run for a new [markdown]:
    the clean-up of the previous run clears its time-out, then the body
    sets a new one unless a guard returns first. *)
Definition debounceEffect (P : Props) (now : Q) (e : Edit) : Edit :=
  let t :=
    if negb (hasEditor e) then None
    else if Text.eqb (markdown e) (lastMarkdownFromEditorRef e) then None
    else Some (now + debounceMs P, markdown e) in
  mkEdit (markdown e) (markdownRef e) (lastMarkdownFromEditorRef e)
         (applyingFromSourceRef e) (hasEditor e) t
         (clearQueued e) (recomputeRafRef e) (replaceAllCalls e).

(** [setMarkdown(next)] at time [now], with the render it causes: a state
    equal to the current one renders nothing; otherwise the effects that
    depend on [markdown] run: [markdownRef.current = markdown], the
    debounce effect, and [scheduleRecomputeStops]. *)
Definition setMarkdown (P : Props) (now : Q) (next : Text.t) (e : Edit)
  : Edit :=
  if Text.eqb next (markdown e) then e
  else
    let e1 := mkEdit next next (lastMarkdownFromEditorRef e)
                     (applyingFromSourceRef e) (hasEditor e) (timer e)
                     (clearQueued e) (recomputeRafRef e)
                     (replaceAllCalls e) in
    scheduleRecomputeStops (debounceEffect P now e1).

(** [lastMarkdownFromEditorRef.current = nextMarkdown], the first line of
    the [markdownUpdated] listener. *)
Definition recordEmitted (nextMarkdown : Text.t) (e : Edit) : Edit :=
  mkEdit (markdown e) (markdownRef e) nextMarkdown
         (applyingFromSourceRef e) (hasEditor e) (timer e)
         (clearQueued e) (recomputeRafRef e) (replaceAllCalls e).

(** The [markdownUpdated] listener, source lines 161-168. *)
Definition markdownUpdated (P : Props) (now : Q) (nextMarkdown : Text.t)
    (e : Edit) : Edit :=
  let e1 := recordEmitted nextMarkdown e in
  if applyingFromSourceRef e1 then e1
  else if Text.eqb nextMarkdown (markdownRef e1) then e1
  else setMarkdown P now nextMarkdown e1.

(** The [onChange] handler of the source pane, source line 418. *)
Definition onChange (P : Props) (now : Q) (value : Text.t) (e : Edit)
  : Edit :=
  setMarkdown P now value e.

(** The time-out callback of the debounce effect, source lines 278-292,
    for the time-out [(due, md)]: the flag is set, [replaceAll(md)] runs
    and the engine calls the listener for each text it emits, the reset is
    queued as a microtask, and a recomputation of the stops is scheduled. *)
Definition timerCallback (P : Props) (G : Engine) (due : Q) (md : Text.t)
    (e : Edit) : Edit :=
  let e0 := mkEdit (markdown e) (markdownRef e) (lastMarkdownFromEditorRef e)
                   (applyingFromSourceRef e) (hasEditor e) None
                   (clearQueued e) (recomputeRafRef e)
                   (replaceAllCalls e) in
  if negb (hasEditor e0) then e0
  else
    let e1 := mkEdit (markdown e0) (markdownRef e0)
                     (lastMarkdownFromEditorRef e0)
                     true (hasEditor e0) (timer e0)
                     (clearQueued e0) (recomputeRafRef e0)
                     (replaceAllCalls e0 ++ [(due, md)]) in
    let e2 := fold_left (fun acc txt => markdownUpdated P due txt acc)
                        (emittedOnReplace G md) e1 in
    let e3 := mkEdit (markdown e2) (markdownRef e2)
                     (lastMarkdownFromEditorRef e2)
                     (applyingFromSourceRef e2) (hasEditor e2) (timer e2)
                     true (recomputeRafRef e2) (replaceAllCalls e2) in
    scheduleRecomputeStops e3.

(** The microtask checkpoint after a task: the queued reset of the flag. *)
Definition runMicrotasks (e : Edit) : Edit :=
  if clearQueued e
  then mkEdit (markdown e) (markdownRef e) (lastMarkdownFromEditorRef e)
              false (hasEditor e) (timer e) false (recomputeRafRef e)
              (replaceAllCalls e)
  else e.

(** The event loop up to time [now]: a pending time-out that is due runs,
    followed by its microtasks. *)
Definition advance (P : Props) (G : Engine) (now : Q) (e : Edit) : Edit :=
  match timer e with
  | Some (due, md) =>
      if Qle_bool due now then runMicrotasks (timerCallback P G due md e)
      else e
  | None => e
  end.

(** A run of source-pane changes [(time, text)], in order of time. *)
Fixpoint runChanges (P : Props) (G : Engine) (changes : list (Q * Text.t))
    (e : Edit) : Edit :=
  match changes with
  | [] => e
  | (t, v) :: r => runChanges P G r (onChange P t v (advance P G t e))
  end.

(** Each change comes less than the debounce window after the one before
    it, [prev] being the time of the change before the first. *)
Fixpoint rapidFrom (P : Props) (prev : Q) (changes : list (Q * Text.t))
  : Prop :=
  match changes with
  | [] => True
  | (t, _) :: r => prev <= t /\ t - prev < debounceMs P /\ rapidFrom P t r
  end.

Definition rapid (P : Props) (changes : list (Q * Text.t)) : Prop :=
  match changes with
  | [] => True
  | (t, _) :: r => rapidFrom P t r
  end.

(** Each change gives the source pane a text other than the one it has,
    [cur] being the text before the first change. *)
Fixpoint changing (cur : Text.t) (changes : list (Q * Text.t)) : Prop :=
  match changes with
  | [] => True
  | (_, v) :: r => Text.eqb v cur = false /\ changing v r
  end.

(** The edit controller [e] right after a change to text [v] at time [t]
    in a burst that began in [e0]: the source pane holds [v], nothing was
    sent to or heard from the engine since [e0], and the only time-out is
    the one the debounce effect set for [v], if its guards let it. *)
Definition afterChange (P : Props) (e0 : Edit) (t : Q) (v : Text.t)
    (e : Edit) : Prop :=
  markdown e = v
  /\ lastMarkdownFromEditorRef e = lastMarkdownFromEditorRef e0
  /\ hasEditor e = hasEditor e0
  /\ replaceAllCalls e = replaceAllCalls e0
  /\ timer e = (if negb (hasEditor e0) then None
                else if Text.eqb v (lastMarkdownFromEditorRef e0) then None
                else Some (t + debounceMs P, v)).

(** ** Further notions used to state what the code keeps *)

(** Each entry is strictly below the next one. *)
Fixpoint increasing (l : list Q) : Prop :=
  match l with
  | x :: ((y :: _) as r) => x < y /\ increasing r
  | _ => True
  end.

(** Each entry is more than 0.5 below the next one. *)
Fixpoint gapped (l : list Q) : Prop :=
  match l with
  | x :: ((y :: _) as r) => x + (1 # 2) < y /\ gapped r
  | _ => True
  end.

(** [lines.join("\n")]: the inverse of [split("\n")], used to state what
    [Text.splitLines] keeps of a text. *)
Fixpoint joinLines (lines : list Text.t) : Text.t :=
  match lines with
  | [] => []
  | l :: r =>
      match r with
      | [] => l
      | _ :: _ => l ++ 10%N :: joinLines r
      end
  end.

(** ** The easing curve of the smooth-snap variant *)

(** [easeOutCubic]: [1 - Math.pow(1 - t, 3)]. *)
Definition easeOutCubic (t : Q) : Q := 1 - (1 - t) ^ 3.

(** ** The mapper with the rounding written out *)

Module Rounded.

Section Ops.

Variable rnd : Q -> Q.

(** [a + b], [a - b], [a * b] and [a / b] on doubles. *)
Definition add (a b : Q) : Q := rnd (a + b).
Definition sub (a b : Q) : Q := rnd (a - b).
Definition mul (a b : Q) : Q := rnd (a * b).
Definition div (a b : Q) : Q := rnd (a / b).

(** The body of the callback of [resampleStops] from
    [const i = Math.floor(x)] on. *)
Definition interpolate (stops : list Q) (x : Q) : Q :=
  let maxIndex := (Z.of_nat (length stops) - 1)%Z in
  let i := Qfloor x in
  let t := sub x (inject_Z i) in
  let lastStop := nth (Z.to_nat maxIndex) stops 0 in
  let a := Num.nullish (Num.get stops i) lastStop in
  let b := Num.nullish (Num.get stops (Z.min (i + 1) maxIndex)) lastStop in
  add a (mul (sub b a) t).

(** [x = f * maxIndex] with [f = j / (nextLen - 1)]. *)
Definition resampleIndex (stops : list Q) (nextLen : nat) (j : nat) : Q :=
  let maxIndex := (Z.of_nat (length stops) - 1)%Z in
  let f := if Nat.eqb nextLen 1 then 0
           else div (Num.of_nat j) (Num.of_nat (nextLen - 1)) in
  mul f (inject_Z maxIndex).

Definition resampleAt (stops : list Q) (nextLen : nat) (j : nat) : Q :=
  interpolate stops (resampleIndex stops nextLen j).

(** [resampleStops], source lines 49-66. *)
Definition resampleStops (stops : list Q) (nextLen : nat) : list Q :=
  if Nat.eqb nextLen 0 then []
  else if Nat.eqb (length stops) nextLen then stops
  else match stops with
       | [] => map (fun _ => 0) (seq 0 nextLen)
       | [s] => map (fun _ => s) (seq 0 nextLen)
       | _ => map (resampleAt stops nextLen) (seq 0 nextLen)
       end.

(** Source lines 91-94. *)
Definition mapSegment (top : Q) (fStops tStops : list Q) (i : nat) : Q :=
  let a := nth i fStops 0 in
  let b := nth (S i) fStops 0 in
  let t := if Qeq_bool b a then 0
           else clamp (div (sub top a) (sub b a)) 0 1 in
  add (nth i tStops 0) (mul (sub (nth (S i) tStops 0) (nth i tStops 0)) t).

(** [mapScrollTop], source lines 68-95.  Comparisons, [clamp] and the scan
    do not round. *)
Definition mapScrollTop (fromTop : Q) (fromStops toStops : list Q)
    (fromMax toMax : Q) : Q :=
  if Qle_bool fromMax 0 || Qle_bool toMax 0 then
    let ratio := if Qle_bool fromMax 0 then 0
                 else clamp (div fromTop fromMax) 0 1 in
    mul ratio toMax
  else
    let from := stopsOrTrivial fromStops fromMax in
    let to := stopsOrTrivial toStops toMax in
    let len := commonLen from to in
    let fStops := resampleStops from len in
    let tStops := resampleStops to len in
    let top := clamp fromTop 0 fromMax in
    let i := scanSegment top fStops (len - 2) 0 in
    mapSegment top fStops tStops i.

(** [x] is a double. *)
Definition representable (x : Q) : Prop := rnd x == x.

End Ops.

(** What is assumed of the rounding: it respects equality of rationals,
    keeps the order, leaves doubles alone (its values are doubles; 0 and 1
    are), commutes with negation, and does not round the difference of two
    distinct doubles to 0 (gradual underflow).  Rounding to nearest of
    binary64 has all of these as long as nothing overflows; so has no
    rounding at all. *)
Record Laws (rnd : Q -> Q) : Prop := mkLaws {
  rnd_compat : forall x y, x == y -> rnd x == rnd y;
  rnd_mono : forall x y, x <= y -> rnd x <= rnd y;
  rnd_idem : forall x, rnd (rnd x) == rnd x;
  rnd_zero : rnd 0 == 0;
  rnd_one : rnd 1 == 1;
  rnd_opp : forall x, rnd (- x) == - rnd x;
  rnd_apart : forall a b, rnd a == a -> rnd b == b -> ~ a == b ->
                          ~ rnd (b - a) == 0
}.

(** No rounding: arithmetic on the rationals themselves. *)
Definition exact (x : Q) : Q := x.

End Rounded.

(** ** The scroll animation of the smooth-snap variant *)

Module Smooth.

(** What the [step] closure of [smoothScrollTo] holds. *)
Record Animation := mkAnimation {
  start : Q;
  delta : Q;
  startAt : Q;
  durationMs : Q
}.

(** [el.scrollTop = v]: the value assigned. *)
Definition withScrollTop (v : Q) (el : Element) : Element :=
  mkElement v (scrollHeight el) (clientHeight el) (lineHeight el)
            (rectTop el).

Section Ops.

Variable rnd : Q -> Q.

(** [Math.pow(x, 3)]: the language leaves its accuracy to the engine. *)
Variable pow3 : Q -> Q.

(** [easeOutCubic], line 39 of the variant. *)
Definition easeOutCubic (t : Q) : Q :=
  Rounded.sub rnd 1 (pow3 (Rounded.sub rnd 1 t)).

(** [smoothScrollTo], lines 41-68 of the variant, up to its frame request,
    at time [now].  [cancelRef] is kept as the animation whose frame
    request is pending, if any: the one passed in is cancelled, and the
    result is the one requested, or [None] when the function returns
    before it requests a frame. *)
Definition smoothScrollTo (el : Element) (target : Q)
    (cancelRef : option Animation) (duration now : Q)
  : option Animation :=
  let cancelled : option Animation :=
    match cancelRef with Some _ => None | None => cancelRef end in
  let max := maxScroll el in
  let to := clamp target 0 max in
  let start := scrollTop el in
  let delta := Rounded.sub rnd to start in
  if Num.gtb (1 # 2) (Num.abs delta) then cancelled
  else Some (mkAnimation start delta now duration).

(** [clamp((now - startAt) / durationMs, 0, 1)].  With [durationMs] 0 the
    quotient is an infinity, which [clamp] takes to 1 or to 0, or, when
    the time elapsed is 0 too, not a number: [None]. *)
Definition progress (a : Animation) (now : Q) : option Q :=
  let elapsed := Rounded.sub rnd now (startAt a) in
  if Qeq_bool (durationMs a) 0 then
    if Qeq_bool elapsed 0 then None
    else Some (if Qle_bool 0 elapsed then 1 else 0)
  else Some (clamp (Rounded.div rnd elapsed (durationMs a)) 0 1).

(** One run of the [step] closure at frame time [now]: the element after
    the write, and the frame request it leaves. *)
Definition step (a : Animation) (now : Q) (el : Element)
  : option (Element * option Animation) :=
  match progress a now with
  | None => None
  | Some p =>
      let e := easeOutCubic p in
      Some (withScrollTop
              (Rounded.add rnd (start a) (Rounded.mul rnd (delta a) e)) el,
            if Num.gtb 1 p then Some a else None)
  end.

End Ops.

End Smooth.

(** ** The mapper on binary64 *)

Module F64.

(** [Math.max], [Math.min] and [clamp] on doubles that are numbers. *)
Definition max (a b : float) : float := if PrimFloat.leb a b then b else a.
Definition min (a b : float) : float := if PrimFloat.leb a b then a else b.
Definition clamp (value lo hi : float) : float := min hi (max lo value).

(** The double of a length or of an index. *)
Fixpoint of_nat (n : nat) : float :=
  match n with
  | O => 0%float
  | S k => (of_nat k + 1)%float
  end.

(** [Math.floor(x)] for [0 <= x <= bound]: the greatest index [k <= bound]
    with [k <= x].  [resampleStops] only calls it within these bounds. *)
Fixpoint floorUpTo (x : float) (bound : nat) : nat :=
  match bound with
  | O => O
  | S k => if PrimFloat.leb (of_nat bound) x then bound else floorUpTo x k
  end.

(** The callback of [Array.from] in [resampleStops], for index [j]. *)
Definition resampleAt (stops : list float) (nextLen : nat) (j : nat)
  : float :=
  let maxIndex := (length stops - 1)%nat in
  let f := if Nat.eqb nextLen 1 then 0%float
           else (of_nat j / of_nat (nextLen - 1))%float in
  let x := (f * of_nat maxIndex)%float in
  let i := floorUpTo x maxIndex in
  let t := (x - of_nat i)%float in
  let lastStop := nth maxIndex stops 0%float in
  let a := nth i stops lastStop in
  let b := nth (Nat.min (i + 1) maxIndex) stops lastStop in
  (a + (b - a) * t)%float.

(** [resampleStops], source lines 49-66. *)
Definition resampleStops (stops : list float) (nextLen : nat)
  : list float :=
  if Nat.eqb nextLen 0 then []
  else if Nat.eqb (length stops) nextLen then stops
  else match stops with
       | [] => map (fun _ => 0%float) (seq 0 nextLen)
       | [s] => map (fun _ => s) (seq 0 nextLen)
       | _ => map (resampleAt stops nextLen) (seq 0 nextLen)
       end.

(** The loop [while (i < len - 2 && top > fStops[i + 1]) i++]. *)
Fixpoint scanSegment (top : float) (fStops : list float) (k i : nat) : nat :=
  match k with
  | O => i
  | S k' =>
      if PrimFloat.ltb (nth (S i) fStops 0%float) top
      then scanSegment top fStops k' (S i)
      else i
  end.

(** [mapScrollTop], source lines 68-95. *)
Definition mapScrollTop (fromTop : float) (fromStops toStops : list float)
    (fromMax toMax : float) : float :=
  if PrimFloat.leb fromMax 0 || PrimFloat.leb toMax 0 then
    let ratio := if PrimFloat.leb fromMax 0 then 0%float
                 else clamp (fromTop / fromMax) 0 1 in
    (ratio * toMax)%float
  else
    let from := if (2 <=? length fromStops)%nat then fromStops
                else [0%float; fromMax] in
    let to := if (2 <=? length toStops)%nat then toStops
              else [0%float; toMax] in
    let len := Nat.max 2 (Nat.min (length from) (length to)) in
    let fStops := resampleStops from len in
    let tStops := resampleStops to len in
    let top := clamp fromTop 0 fromMax in
    let i := scanSegment top fStops (len - 2) 0 in
    let a := nth i fStops 0%float in
    let b := nth (S i) fStops 0%float in
    let t := if PrimFloat.eqb b a then 0%float
             else clamp ((top - a) / (b - a)) 0 1 in
    (nth i tStops 0%float
     + (nth (S i) tStops 0%float - nth i tStops 0%float) * t)%float.


End F64.

(** * Properties *)

(** ** Numbers *)

Lemma Qle_bool_spec (a b : Q) : BoolSpec (a <= b) (b < a) (Qle_bool a b).
Proof.
  destruct (Qle_bool a b) eqn:E; constructor.
  - now apply Qle_bool_iff.
  - apply Qnot_le_lt. intro H. apply Qle_bool_iff in H. congruence.
Qed.

Lemma Qeq_bool_spec (a b : Q) : BoolSpec (a == b) (~ a == b) (Qeq_bool a b).
Proof.
  destruct (Qeq_bool a b) eqn:E; constructor.
  - now apply Qeq_bool_iff.
  - intro H. apply Qeq_bool_iff in H. congruence.
Qed.

Ltac qcase a b := destruct (Qle_bool_spec a b).

Ltac num_cases :=
  unfold clamp, Num.min, Num.max, Num.abs, Num.gtb, Num.geb in *;
  repeat match goal with
         | |- context [Qle_bool ?a ?b] => qcase a b
         | H : context [Qle_bool ?a ?b] |- _ => qcase a b
         end.

Lemma clamp_bounds (v lo hi : Q) : lo <= hi -> lo <= clamp v lo hi <= hi.
Proof. intros. num_cases; lra. Qed.

Lemma clamp_mono (v w lo hi : Q) :
  v <= w -> clamp v lo hi <= clamp w lo hi.
Proof. intros. num_cases; lra. Qed.

Lemma clamp_inside (v lo hi : Q) : lo <= v <= hi -> clamp v lo hi == v.
Proof. intros. num_cases; lra. Qed.

Lemma clamp_compat (v w lo hi : Q) :
  v == w -> clamp v lo hi == clamp w lo hi.
Proof. intros. num_cases; lra. Qed.

Lemma gtb_true (a b : Q) : Num.gtb a b = true <-> b < a.
Proof.
  unfold Num.gtb. qcase a b; simpl; split; intros; try lra; congruence.
Qed.

Lemma gtb_false (a b : Q) : Num.gtb a b = false <-> a <= b.
Proof.
  unfold Num.gtb. qcase a b; simpl; split; intros; try lra; congruence.
Qed.

Lemma of_nat_le (i j : nat) : (i <= j)%nat -> Num.of_nat i <= Num.of_nat j.
Proof.
  intros. unfold Num.of_nat. rewrite <- Zle_Qle. lia.
Qed.

Lemma of_nat_nonneg (i : nat) : 0 <= Num.of_nat i.
Proof. apply (of_nat_le 0 i). lia. Qed.

(** A convex combination stays between its end points. *)
Lemma mix_bounds (a b t lo hi : Q) :
  lo <= a <= hi -> lo <= b <= hi -> 0 <= t <= 1 ->
  lo <= a + (b - a) * t <= hi.
Proof.
  intros Ha Hb Ht.
  assert (E : a + (b - a) * t == a * (1 - t) + b * t) by ring.
  rewrite E.
  assert (0 <= (a - lo) * (1 - t)) by (apply Qmult_le_0_compat; lra).
  assert (0 <= (b - lo) * t) by (apply Qmult_le_0_compat; lra).
  assert (0 <= (hi - a) * (1 - t)) by (apply Qmult_le_0_compat; lra).
  assert (0 <= (hi - b) * t) by (apply Qmult_le_0_compat; lra).
  split; lra.
Qed.

Lemma mix_mono (a b s t : Q) :
  a <= b -> s <= t -> a + (b - a) * s <= a + (b - a) * t.
Proof.
  intros Hab Hst.
  assert (0 <= (b - a) * (t - s)) by (apply Qmult_le_0_compat; lra).
  lra.
Qed.

(** ** Sequences *)

Lemma nondecreasing_tail (x : Q) (l : list Q) :
  nondecreasing (x :: l) -> nondecreasing l.
Proof. destruct l; simpl; tauto. Qed.

Lemma nondecreasing_nth (l : list Q) :
  nondecreasing l ->
  forall i j, (i <= j < length l)%nat -> nth i l 0 <= nth j l 0.
Proof.
  induction l as [|x l IH]; intros Hs i j Hij; [simpl in Hij; lia|].
  assert (Hhd : forall k, (k < length l)%nat -> x <= nth k l 0).
  { clear i j Hij. intros k Hk. destruct l as [|y l]; [simpl in Hk; lia|].
    destruct Hs as [Hxy Hs].
    apply Qle_trans with y; [exact Hxy|].
    apply (IH Hs 0%nat k). simpl in *. lia. }
  destruct i as [|i], j as [|j]; simpl in *; try lia.
  - lra.
  - apply Hhd. lia.
  - apply IH; [now apply nondecreasing_tail in Hs | lia].
Qed.

Lemma nondecreasing_of_nth (l : list Q) :
  (forall i, (S i < length l)%nat -> nth i l 0 <= nth (S i) l 0) ->
  nondecreasing l.
Proof.
  induction l as [|x l IH]; intros H; [exact I|].
  destruct l as [|y l]; [exact I|].
  split.
  - apply (H 0%nat). simpl. lia.
  - apply IH. intros i Hi. apply (H (S i)). simpl in *. lia.
Qed.

Lemma nth_map_seq (f : nat -> Q) (n j : nat) :
  (j < n)%nat -> nth j (map f (seq 0 n)) 0 = f j.
Proof.
  intros Hj.
  rewrite (nth_indep _ 0 (f 0%nat)) by (rewrite length_map, length_seq; lia).
  rewrite (map_nth f (seq 0 n) 0%nat j), seq_nth by lia. reflexivity.
Qed.

(** ** Resampling *)

Lemma resampleStops_length (stops : list Q) (n : nat) :
  length (resampleStops stops n) = n.
Proof.
  unfold resampleStops.
  destruct (Nat.eqb_spec n 0); [subst; reflexivity|].
  destruct (Nat.eqb_spec (length stops) n); [assumption|].
  destruct stops as [|a [|b r]]; now rewrite length_map, length_seq.
Qed.

Lemma get_in_range (l : list Q) (i : Z) (d : Q) :
  (0 <= i < Z.of_nat (length l))%Z ->
  Num.nullish (Num.get l i) d = nth (Z.to_nat i) l 0.
Proof.
  intros Hi. unfold Num.get.
  destruct (Z.ltb_spec i 0); [lia|].
  destruct (nth_error l (Z.to_nat i)) eqn:E.
  - simpl. symmetry. now apply nth_error_nth.
  - apply nth_error_None in E. lia.
Qed.

Section Interpolation.

Variable stops : list Q.
Hypothesis two_stops : (2 <= length stops)%nat.

Let m : Z := (Z.of_nat (length stops) - 1)%Z.

Lemma floor_in_range (x : Q) :
  0 <= x <= inject_Z m -> (0 <= Qfloor x <= m)%Z.
Proof.
  intros [H0 Hm]. split.
  - change 0%Z with (Qfloor 0). now apply Qfloor_resp_le.
  - rewrite <- (Qfloor_Z m). now apply Qfloor_resp_le.
Qed.

Lemma interpolate_unfold (x : Q) :
  0 <= x <= inject_Z m ->
  interpolate stops x =
  nth (Z.to_nat (Qfloor x)) stops 0
  + (nth (Z.to_nat (Z.min (Qfloor x + 1) m)) stops 0
     - nth (Z.to_nat (Qfloor x)) stops 0) * (x - inject_Z (Qfloor x)).
Proof.
  intros Hx. pose proof (floor_in_range x Hx) as Hf.
  unfold interpolate. fold m.
  rewrite !get_in_range by (unfold m in *; lia).
  reflexivity.
Qed.

Lemma frac_bounds (x : Q) : 0 <= x - inject_Z (Qfloor x) < 1.
Proof.
  pose proof (Qfloor_le x). pose proof (Qlt_floor x) as H1.
  rewrite inject_Z_plus in H1. change (inject_Z 1) with 1 in H1. lra.
Qed.

Lemma interpolate_bounds (lo hi x : Q) :
  (forall k, (k < length stops)%nat -> lo <= nth k stops 0 <= hi) ->
  0 <= x <= inject_Z m ->
  lo <= interpolate stops x <= hi.
Proof.
  intros Hall Hx. pose proof (floor_in_range x Hx) as Hf.
  rewrite interpolate_unfold by assumption.
  pose proof (frac_bounds x).
  apply mix_bounds; try (apply Hall; unfold m in *; lia). lra.
Qed.

Lemma interpolate_at_index (k : nat) :
  (k < length stops)%nat ->
  interpolate stops (inject_Z (Z.of_nat k)) == nth k stops 0.
Proof.
  intros Hk.
  assert (Hx : 0 <= inject_Z (Z.of_nat k) <= inject_Z m).
  { split; [change 0 with (inject_Z 0)|]; rewrite <- Zle_Qle; unfold m; lia. }
  rewrite interpolate_unfold by assumption.
  rewrite Qfloor_Z, Nat2Z.id. ring.
Qed.

Lemma interpolate_mono (x y : Q) :
  nondecreasing stops ->
  0 <= x -> x <= y -> y <= inject_Z m ->
  interpolate stops x <= interpolate stops y.
Proof.
  intros Hs H0 Hxy Hm.
  assert (Hx : 0 <= x <= inject_Z m) by lra.
  assert (Hy : 0 <= y <= inject_Z m) by lra.
  pose proof (floor_in_range x Hx) as Hfx.
  pose proof (floor_in_range y Hy) as Hfy.
  pose proof (Qfloor_resp_le x y Hxy) as Hff.
  pose proof (frac_bounds x) as Htx. pose proof (frac_bounds y) as Hty.
  rewrite !interpolate_unfold by assumption.
  destruct (Z.eq_dec (Qfloor x) (Qfloor y)) as [E|NE].
  - rewrite <- E in *. apply mix_mono; [|lra].
    apply nondecreasing_nth; [assumption | unfold m in *; lia].
  - set (ix := Qfloor x) in *. set (iy := Qfloor y) in *.
    assert (Hmin : Z.min (ix + 1) m = (ix + 1)%Z) by lia.
    rewrite Hmin.
    assert (Hab : nth (Z.to_nat ix) stops 0 <= nth (Z.to_nat (ix + 1)) stops 0)
      by (apply nondecreasing_nth; [assumption | unfold m in *; lia]).
    assert (Hbc : nth (Z.to_nat (ix + 1)) stops 0 <= nth (Z.to_nat iy) stops 0)
      by (apply nondecreasing_nth; [assumption | unfold m in *; lia]).
    assert (Hcd : nth (Z.to_nat iy) stops 0
                  <= nth (Z.to_nat (Z.min (iy + 1) m)) stops 0)
      by (apply nondecreasing_nth; [assumption | unfold m in *; lia]).
    pose proof (mix_bounds _ _ (x - inject_Z ix) _ _
                  (conj (Qle_refl _) Hab) (conj Hab (Qle_refl _))
                  (conj (proj1 Htx) (Qlt_le_weak _ _ (proj2 Htx)))) as B1.
    pose proof (mix_bounds _ _ (y - inject_Z iy) _ _
                  (conj (Qle_refl _) Hcd) (conj Hcd (Qle_refl _))
                  (conj (proj1 Hty) (Qlt_le_weak _ _ (proj2 Hty)))) as B2.
    lra.
Qed.

Lemma interpolate_below_last (x : Q) :
  nondecreasing stops ->
  nth (length stops - 2) stops 0 < nth (length stops - 1) stops 0 ->
  0 <= x -> x < inject_Z m ->
  interpolate stops x < nth (length stops - 1) stops 0.
Proof.
  intros Hs Hlast H0 Hm.
  assert (Hx : 0 <= x <= inject_Z m) by lra.
  pose proof (floor_in_range x Hx) as Hf.
  pose proof (frac_bounds x) as Ht.
  assert (Hfm : (Qfloor x < m)%Z).
  { apply Z.lt_nge. intro Hge.
    assert (inject_Z m <= inject_Z (Qfloor x)) by now rewrite <- Zle_Qle.
    pose proof (Qfloor_le x). lra. }
  rewrite interpolate_unfold by assumption.
  set (i := Qfloor x) in *.
  assert (Hmin : Z.min (i + 1) m = (i + 1)%Z) by lia. rewrite Hmin.
  set (a := nth (Z.to_nat i) stops 0).
  set (b := nth (Z.to_nat (i + 1)) stops 0).
  set (t := x - inject_Z i) in *.
  assert (Ha : a <= nth (length stops - 2) stops 0)
    by (apply nondecreasing_nth; [assumption | unfold m in *; lia]).
  assert (Hb : b <= nth (length stops - 1) stops 0)
    by (apply nondecreasing_nth; [assumption | unfold m in *; lia]).
  set (z := nth (length stops - 1) stops 0) in *.
  assert (E : a + (b - a) * t == z - ((z - a) * (1 - t) + (z - b) * t)) by ring.
  rewrite E.
  assert (0 < (z - a) * (1 - t)) by (apply Qmult_lt_0_compat; lra).
  assert (0 <= (z - b) * t) by (apply Qmult_le_0_compat; lra).
  lra.
Qed.

End Interpolation.

Section Resampling.

Variable stops : list Q.
Variable n : nat.
Hypothesis two_stops : (2 <= length stops)%nat.
Hypothesis two_samples : (2 <= n)%nat.

Let m : Z := (Z.of_nat (length stops) - 1)%Z.

Lemma resampleIndex_eq (j : nat) :
  resampleIndex stops n j
  == Num.of_nat j * inject_Z m / Num.of_nat (n - 1).
Proof.
  unfold resampleIndex. fold m.
  destruct (Nat.eqb_spec n 1); [lia|].
  assert (0 < Num.of_nat (n - 1)).
  { unfold Num.of_nat. change 0 with (inject_Z 0). rewrite <- Zlt_Qlt. lia. }
  field. lra.
Qed.

Lemma samples_pos : 0 < Num.of_nat (n - 1).
Proof.
  unfold Num.of_nat. change 0 with (inject_Z 0). rewrite <- Zlt_Qlt. lia.
Qed.

Lemma maxIndex_pos : 0 < inject_Z m.
Proof. change 0 with (inject_Z 0). rewrite <- Zlt_Qlt. unfold m. lia. Qed.

Lemma resampleIndex_mono (j k : nat) :
  (j <= k)%nat -> resampleIndex stops n j <= resampleIndex stops n k.
Proof.
  intros Hjk. rewrite !resampleIndex_eq.
  pose proof samples_pos. pose proof maxIndex_pos.
  pose proof (of_nat_le _ _ Hjk).
  apply Qmult_le_compat_r; [|apply Qinv_le_0_compat; lra].
  apply Qmult_le_compat_r; lra.
Qed.

Lemma resampleIndex_first : resampleIndex stops n 0 == 0.
Proof.
  rewrite resampleIndex_eq. pose proof samples_pos.
  unfold Num.of_nat at 1. simpl Z.of_nat. field. lra.
Qed.

Lemma resampleIndex_last : resampleIndex stops n (n - 1) == inject_Z m.
Proof.
  rewrite resampleIndex_eq. pose proof samples_pos. field. lra.
Qed.

Lemma resampleIndex_range (j : nat) :
  (j < n)%nat -> 0 <= resampleIndex stops n j <= inject_Z m.
Proof.
  intros Hj. split.
  - rewrite <- resampleIndex_first. apply resampleIndex_mono. lia.
  - rewrite <- resampleIndex_last. apply resampleIndex_mono. lia.
Qed.

Lemma resampleIndex_inner (j : nat) :
  (S j < n)%nat -> resampleIndex stops n j < inject_Z m.
Proof.
  intros Hj. rewrite resampleIndex_eq.
  pose proof samples_pos as Hn. pose proof maxIndex_pos as Hm.
  assert (Hlt : Num.of_nat j < Num.of_nat (n - 1))
    by (unfold Num.of_nat; rewrite <- Zlt_Qlt; lia).
  apply Qlt_shift_div_r; [assumption|].
  rewrite (Qmult_comm (inject_Z m)).
  apply Qmult_lt_compat_r; assumption.
Qed.

Lemma interpolate_compat (x y : Q) :
  x == y -> interpolate stops x == interpolate stops y.
Proof.
  intros E. unfold interpolate.
  rewrite (Qfloor_comp x y E). now rewrite E.
Qed.

Lemma resampleAt_mono (j k : nat) :
  nondecreasing stops -> (j <= k < n)%nat ->
  resampleAt stops n j <= resampleAt stops n k.
Proof.
  intros Hs Hjk. unfold resampleAt.
  apply interpolate_mono; try assumption.
  - apply resampleIndex_range. lia.
  - apply resampleIndex_mono. lia.
  - apply resampleIndex_range. lia.
Qed.

Lemma resampleAt_first : resampleAt stops n 0 == nth 0 stops 0.
Proof.
  unfold resampleAt. rewrite (interpolate_compat _ _ resampleIndex_first).
  apply (interpolate_at_index stops two_stops 0). lia.
Qed.

Lemma resampleAt_last :
  resampleAt stops n (n - 1) == nth (length stops - 1) stops 0.
Proof.
  unfold resampleAt. rewrite (interpolate_compat _ _ resampleIndex_last).
  unfold m. replace (Z.of_nat (length stops) - 1)%Z
    with (Z.of_nat (length stops - 1)) by lia.
  apply (interpolate_at_index stops two_stops). lia.
Qed.

Lemma resampleAt_bounds (lo hi : Q) (j : nat) :
  (forall k, (k < length stops)%nat -> lo <= nth k stops 0 <= hi) ->
  (j < n)%nat -> lo <= resampleAt stops n j <= hi.
Proof.
  intros Hall Hj. unfold resampleAt.
  apply interpolate_bounds; try assumption.
  now apply resampleIndex_range.
Qed.

Lemma resampleAt_below_last (j : nat) :
  nondecreasing stops ->
  nth (length stops - 2) stops 0 < nth (length stops - 1) stops 0 ->
  (S j < n)%nat ->
  resampleAt stops n j < nth (length stops - 1) stops 0.
Proof.
  intros Hs Hlast Hj. unfold resampleAt.
  apply interpolate_below_last; try assumption.
  - apply resampleIndex_range. lia.
  - now apply resampleIndex_inner.
Qed.

End Resampling.

Section ResampledStops.

Variable stops : list Q.
Variable n : nat.
Hypothesis two_stops : (2 <= length stops)%nat.
Hypothesis two_samples : (2 <= n)%nat.

Lemma resampleStops_cases :
  resampleStops stops n = stops /\ length stops = n
  \/ resampleStops stops n = map (resampleAt stops n) (seq 0 n)
     /\ length stops <> n.
Proof.
  unfold resampleStops.
  destruct (Nat.eqb_spec n 0); [lia|].
  destruct (Nat.eqb_spec (length stops) n); [now left|right].
  destruct stops as [|a [|b r]]; simpl in two_stops; try lia.
  split; [reflexivity | assumption].
Qed.

Lemma resampleStops_nondecreasing :
  nondecreasing stops -> nondecreasing (resampleStops stops n).
Proof.
  intros Hs. destruct resampleStops_cases as [[E _]|[E _]]; rewrite E;
    [assumption|].
  apply nondecreasing_of_nth. intros i Hi.
  rewrite length_map, length_seq in Hi.
  rewrite !nth_map_seq by lia.
  apply resampleAt_mono; try assumption. lia.
Qed.

Lemma resampleStops_first :
  nth 0 (resampleStops stops n) 0 == nth 0 stops 0.
Proof.
  destruct resampleStops_cases as [[E _]|[E _]]; rewrite E; [reflexivity|].
  rewrite nth_map_seq by lia. now apply resampleAt_first.
Qed.

Lemma resampleStops_last :
  nth (n - 1) (resampleStops stops n) 0 == nth (length stops - 1) stops 0.
Proof.
  destruct resampleStops_cases as [[E L]|[E _]]; rewrite E.
  - rewrite L. reflexivity.
  - rewrite nth_map_seq by lia. now apply resampleAt_last.
Qed.

Lemma resampleStops_bounds (lo hi : Q) (j : nat) :
  (forall k, (k < length stops)%nat -> lo <= nth k stops 0 <= hi) ->
  (j < n)%nat -> lo <= nth j (resampleStops stops n) 0 <= hi.
Proof.
  intros Hall Hj. destruct resampleStops_cases as [[E L]|[E _]]; rewrite E.
  - apply Hall. lia.
  - rewrite nth_map_seq by lia. now apply resampleAt_bounds.
Qed.

Lemma resampleStops_below_last (j : nat) :
  nondecreasing stops ->
  nth (length stops - 2) stops 0 < nth (length stops - 1) stops 0 ->
  (S j < n)%nat ->
  nth j (resampleStops stops n) 0 < nth (length stops - 1) stops 0.
Proof.
  intros Hs Hlast Hj. destruct resampleStops_cases as [[E L]|[E _]]; rewrite E.
  - apply Qle_lt_trans with (nth (length stops - 2) stops 0); [|assumption].
    apply nondecreasing_nth; [assumption | lia].
  - rewrite nth_map_seq by lia. now apply resampleAt_below_last.
Qed.

End ResampledStops.

(** ** Locating the segment *)

Lemma scanSegment_range (top : Q) (fS : list Q) (k i : nat) :
  (i <= scanSegment top fS k i <= i + k)%nat.
Proof.
  revert i. induction k as [|k IH]; intros i; simpl; [lia|].
  destruct (Num.gtb top (nth (S i) fS 0)); [|lia].
  specialize (IH (S i)). lia.
Qed.

(** Every stop the scan passed is below [top]. *)
Lemma scanSegment_passed (top : Q) (fS : list Q) (k i j : nat) :
  (i <= j < scanSegment top fS k i)%nat -> nth (S j) fS 0 < top.
Proof.
  revert i. induction k as [|k IH]; intros i Hj; simpl in Hj; [lia|].
  destruct (Num.gtb top (nth (S i) fS 0)) eqn:E; [|lia].
  destruct (Nat.eq_dec i j) as [->|NE]; [now apply gtb_true|].
  apply (IH (S i)). lia.
Qed.

(** Where the scan stopped before the last segment, [top] is at most the
    stop that ends the segment. *)
Lemma scanSegment_stopped (top : Q) (fS : list Q) (k i : nat) :
  (scanSegment top fS k i < i + k)%nat ->
  top <= nth (S (scanSegment top fS k i)) fS 0.
Proof.
  revert i. induction k as [|k IH]; intros i Hlt; simpl in *; [lia|].
  destruct (Num.gtb top (nth (S i) fS 0)) eqn:E.
  - apply IH. lia.
  - now apply gtb_false.
Qed.

Lemma scanSegment_mono (top1 top2 : Q) (fS : list Q) (k i : nat) :
  top1 <= top2 ->
  (scanSegment top1 fS k i <= scanSegment top2 fS k i)%nat.
Proof.
  intros Hle. revert i. induction k as [|k IH]; intros i; simpl; [lia|].
  destruct (Num.gtb top1 (nth (S i) fS 0)) eqn:E1.
  - apply gtb_true in E1.
    assert (E2 : Num.gtb top2 (nth (S i) fS 0) = true)
      by (apply gtb_true; lra).
    rewrite E2. apply IH.
  - destruct (Num.gtb top2 (nth (S i) fS 0)); [|lia].
    pose proof (scanSegment_range top2 fS k (S i)). lia.
Qed.

(** ** Interpolation within a segment *)

Lemma segment_fraction_bounds (top a b : Q) :
  0 <= (if Qeq_bool b a then 0 else clamp ((top - a) / (b - a)) 0 1) <= 1.
Proof.
  destruct (Qeq_bool b a); [lra|]. apply clamp_bounds. lra.
Qed.

Lemma mapSegment_bounds (top : Q) (fS tS : list Q) (i : nat) (lo hi : Q) :
  lo <= nth i tS 0 <= hi -> lo <= nth (S i) tS 0 <= hi ->
  lo <= mapSegment top fS tS i <= hi.
Proof.
  intros Ha Hb. unfold mapSegment.
  apply mix_bounds; try assumption. apply segment_fraction_bounds.
Qed.

Lemma mapSegment_mono_top (top1 top2 : Q) (fS tS : list Q) (i : nat) :
  nth i fS 0 <= nth (S i) fS 0 -> nth i tS 0 <= nth (S i) tS 0 ->
  top1 <= top2 ->
  mapSegment top1 fS tS i <= mapSegment top2 fS tS i.
Proof.
  intros Hf Ht Hle. unfold mapSegment.
  apply mix_mono; [assumption|].
  destruct (Qeq_bool_spec (nth (S i) fS 0) (nth i fS 0)) as [E|NE]; [lra|].
  apply clamp_mono. unfold Qdiv.
  apply Qmult_le_compat_r; [lra|].
  apply Qinv_le_0_compat. lra.
Qed.

Section Segments.

Variables fS tS : list Q.
Variable len : nat.
Hypothesis fS_len : length fS = len.
Hypothesis tS_len : length tS = len.
Hypothesis two : (2 <= len)%nat.
Hypothesis fS_sorted : nondecreasing fS.
Hypothesis tS_sorted : nondecreasing tS.

Lemma locate_mono (top1 top2 : Q) :
  top1 <= top2 ->
  mapSegment top1 fS tS (scanSegment top1 fS (len - 2) 0)
  <= mapSegment top2 fS tS (scanSegment top2 fS (len - 2) 0).
Proof.
  intros Hle.
  pose proof (scanSegment_mono top1 top2 fS (len - 2) 0 Hle) as Hi.
  pose proof (scanSegment_range top1 fS (len - 2) 0) as R1.
  pose proof (scanSegment_range top2 fS (len - 2) 0) as R2.
  set (i1 := scanSegment top1 fS (len - 2) 0) in *.
  set (i2 := scanSegment top2 fS (len - 2) 0) in *.
  destruct (Nat.eq_dec i1 i2) as [E|NE].
  - rewrite E. apply mapSegment_mono_top; try assumption;
      apply nondecreasing_nth; try assumption; lia.
  - assert (H1 : mapSegment top1 fS tS i1 <= nth (S i1) tS 0).
    { apply (mapSegment_bounds top1 fS tS i1 (nth i1 tS 0) (nth (S i1) tS 0)).
      - split; [lra|]. apply nondecreasing_nth; [assumption | lia].
      - split; [|lra]. apply nondecreasing_nth; [assumption | lia]. }
    assert (H2 : nth i2 tS 0 <= mapSegment top2 fS tS i2).
    { apply (mapSegment_bounds top2 fS tS i2 (nth i2 tS 0) (nth (S i2) tS 0)).
      - split; [lra|]. apply nondecreasing_nth; [assumption | lia].
      - split; [|lra]. apply nondecreasing_nth; [assumption | lia]. }
    assert (H3 : nth (S i1) tS 0 <= nth i2 tS 0)
      by (apply nondecreasing_nth; [assumption | lia]).
    lra.
Qed.

End Segments.

(** ** The mapper *)

Lemma mapScrollTop_general (fromTop : Q) (fromStops toStops : list Q)
    (fromMax toMax : Q) :
  0 < fromMax -> 0 < toMax ->
  mapScrollTop fromTop fromStops toStops fromMax toMax =
  let from := stopsOrTrivial fromStops fromMax in
  let to := stopsOrTrivial toStops toMax in
  let len := commonLen from to in
  let fStops := resampleStops from len in
  let tStops := resampleStops to len in
  let top := clamp fromTop 0 fromMax in
  mapSegment top fStops tStops (scanSegment top fStops (len - 2) 0).
Proof.
  intros Hf Ht. unfold mapScrollTop.
  qcase fromMax 0; [lra|]. qcase toMax 0; [lra|]. reflexivity.
Qed.

Lemma stopsOrTrivial_length (stops : list Q) (mx : Q) :
  (2 <= length (stopsOrTrivial stops mx))%nat.
Proof.
  unfold stopsOrTrivial. destruct (Nat.leb_spec 2 (length stops)); simpl; lia.
Qed.

Lemma stopsOrTrivial_long (stops : list Q) (mx : Q) :
  (2 <= length stops)%nat -> stopsOrTrivial stops mx = stops.
Proof.
  intros H. unfold stopsOrTrivial.
  destruct (Nat.leb_spec 2 (length stops)); [reflexivity | lia].
Qed.

Lemma stopsOrTrivial_short (stops : list Q) (mx : Q) :
  (length stops < 2)%nat -> stopsOrTrivial stops mx = [0; mx].
Proof.
  intros H. unfold stopsOrTrivial.
  destruct (Nat.leb_spec 2 (length stops)); [lia | reflexivity].
Qed.

Lemma stopsOrTrivial_nondecreasing (stops : list Q) (mx : Q) :
  0 <= mx -> nondecreasing stops -> nondecreasing (stopsOrTrivial stops mx).
Proof.
  intros Hm Hs. unfold stopsOrTrivial.
  destruct (2 <=? length stops)%nat; [assumption | simpl; tauto].
Qed.

Lemma commonLen_bounds (from to : list Q) :
  (2 <= length from)%nat -> (2 <= length to)%nat ->
  (2 <= commonLen from to)%nat
  /\ (commonLen from to <= length from)%nat
  /\ (commonLen from to <= length to)%nat.
Proof. unfold commonLen. lia. Qed.

(** The reads of [mapScrollTop] after resampling are within the arrays. *)
Lemma mapScrollTop_reads_in_range (fromTop : Q) (fromStops toStops : list Q)
    (fromMax toMax : Q) :
  let from := stopsOrTrivial fromStops fromMax in
  let to := stopsOrTrivial toStops toMax in
  let len := commonLen from to in
  let fStops := resampleStops from len in
  let tStops := resampleStops to len in
  let i := scanSegment (clamp fromTop 0 fromMax) fStops (len - 2) 0 in
  (S i < length fStops)%nat /\ (S i < length tStops)%nat.
Proof.
  intros from to len fStops tStops i.
  unfold fStops, tStops. rewrite !resampleStops_length.
  pose proof (commonLen_bounds from to (stopsOrTrivial_length _ _)
                (stopsOrTrivial_length _ _)) as [H2 _].
  fold len in H2.
  pose proof (scanSegment_range (clamp fromTop 0 fromMax)
                (resampleStops from len) (len - 2) 0) as R.
  fold fStops in R. fold i in R. lia.
Qed.

Lemma last_nth (l : list Q) (d : Q) : last l d = nth (length l - 1) l d.
Proof.
  induction l as [|x l IH]; [reflexivity|].
  destruct l as [|y l]; [reflexivity|].
  change (last (x :: y :: l) d) with (last (y :: l) d).
  rewrite IH. simpl. now rewrite Nat.sub_0_r.
Qed.

Lemma scanSegment_stays (top : Q) (fS : list Q) (k : nat) :
  top <= nth 1 fS 0 -> scanSegment top fS k 0 = 0%nat.
Proof.
  intros H. destruct k as [|k]; [reflexivity|]. simpl.
  apply gtb_false in H. now rewrite H.
Qed.

Lemma scanSegment_runs (top : Q) (fS : list Q) (k i : nat) :
  (forall j, (i <= j < i + k)%nat -> nth (S j) fS 0 < top) ->
  scanSegment top fS k i = (i + k)%nat.
Proof.
  revert i. induction k as [|k IH]; intros i H; simpl; [lia|].
  assert (E : Num.gtb top (nth (S i) fS 0) = true)
    by (apply gtb_true, H; lia).
  rewrite E, IH; [lia|]. intros j Hj. apply H. lia.
Qed.

Lemma mapSegment_at_start (top : Q) (fS tS : list Q) (i : nat) :
  top == nth i fS 0 -> mapSegment top fS tS i == nth i tS 0.
Proof.
  intros E. unfold mapSegment.
  destruct (Qeq_bool_spec (nth (S i) fS 0) (nth i fS 0)) as [E1|NE]; [ring|].
  assert (Hz : (top - nth i fS 0) / (nth (S i) fS 0 - nth i fS 0) == 0).
  { rewrite E. field. lra. }
  rewrite (clamp_compat _ 0 0 1 Hz).
  rewrite (clamp_inside 0 0 1) by lra. ring.
Qed.

Lemma mapSegment_at_end (top : Q) (fS tS : list Q) (i : nat) :
  top == nth (S i) fS 0 -> nth i fS 0 < nth (S i) fS 0 ->
  mapSegment top fS tS i == nth (S i) tS 0.
Proof.
  intros E Hlt. unfold mapSegment.
  destruct (Qeq_bool_spec (nth (S i) fS 0) (nth i fS 0)) as [E1|NE]; [lra|].
  assert (Hz : (top - nth i fS 0) / (nth (S i) fS 0 - nth i fS 0) == 1).
  { rewrite E. field. lra. }
  rewrite (clamp_compat _ 1 0 1 Hz).
  rewrite (clamp_inside 1 0 1) by lra. ring.
Qed.

(** C1.  With [fromStops = [0,100,400]], [toStops = [0,50,500]],
    [fromMax = 400] and [toMax = 500], [mapScrollTop] returns exactly 50 at
    offset 100, and at offset 250 a value strictly between 50 and 500. *)
Theorem mapScrollTop_scenario1 :
  mapScrollTop 100 [0; 100; 400] [0; 50; 500] 400 500 == 50
  /\ 50 < mapScrollTop 250 [0; 100; 400] [0; 50; 500] 400 500
  /\ mapScrollTop 250 [0; 100; 400] [0; 50; 500] 400 500 < 500.
Proof. repeat split; vm_compute; reflexivity. Qed.

(** The value the mapper returns at offset 250 of scenario 1. *)
Example mapScrollTop_scenario1_250 :
  mapScrollTop 250 [0; 100; 400] [0; 50; 500] 400 500 == 275.
Proof. vm_compute. reflexivity. Qed.

Example resampleStops_4_to_3 :
  Forall2 Qeq (resampleStops [0; 10; 20; 500] 3) [0; 15; 500].
Proof. vm_compute. repeat constructor. Qed.

(** C8, as stated, fails for the second boundary: with the maximum
    repeated at the end of [fromStops] (non-decreasing, bracketed at 0 and
    [fromMax]), the scan stops at the first stop equal to [fromMax] and the
    mapper returns the to-stop of that index, 50, not [toMax = 500]. *)
Lemma mapScrollTop_boundary_counterexample :
  (2 <= length [0; 400; 400])%nat /\ (2 <= length [0; 50; 500])%nat
  /\ nondecreasing [0; 400; 400] /\ nondecreasing [0; 50; 500]
  /\ nth 0 [0; 400; 400] 0 == 0 /\ nth 0 [0; 50; 500] 0 == 0
  /\ last [0; 400; 400] 0 == 400 /\ last [0; 50; 500] 0 == 500
  /\ 0 < 400 /\ 0 < 500
  /\ mapScrollTop 400 [0; 400; 400] [0; 50; 500] 400 500 == 50
  /\ ~ mapScrollTop 400 [0; 400; 400] [0; 50; 500] 400 500 == 500.
Proof.
  repeat match goal with |- _ /\ _ => split end;
    try (simpl; lia);
    try (simpl; unfold Qle, Qlt, Qeq; simpl; lia);
    try (vm_compute; reflexivity).
Qed.

Lemma stopsOrTrivial_bounds (stops : list Q) (mx : Q) :
  0 <= mx ->
  Forall (fun x => 0 <= x <= mx) stops \/ (length stops < 2)%nat ->
  forall k, (k < length (stopsOrTrivial stops mx))%nat ->
            0 <= nth k (stopsOrTrivial stops mx) 0 <= mx.
Proof.
  intros Hm H k Hk. unfold stopsOrTrivial in *.
  destruct (Nat.leb_spec 2 (length stops)) as [L|L].
  - destruct H as [H|H]; [|lia].
    rewrite Forall_forall in H. apply H. now apply nth_In.
  - destruct k as [|[|k]]; simpl in *; try lra; lia.
Qed.

(** ** The stop extractor *)

Lemma nondecreasing_cons (x : Q) (l : list Q) :
  (forall y, In y l -> x <= y) -> nondecreasing l -> nondecreasing (x :: l).
Proof.
  intros Hx Hl. destruct l as [|y l]; [exact I|].
  split; [apply Hx; now left | assumption].
Qed.

Lemma nondecreasing_head_le (x : Q) (l : list Q) :
  nondecreasing (x :: l) -> forall y, In y l -> x <= y.
Proof.
  revert x. induction l as [|z l IH]; intros x Hs y Hy; [contradiction|].
  destruct Hs as [Hxz Hs]. destruct Hy as [<-|Hy]; [assumption|].
  apply Qle_trans with z; [assumption | now apply IH].
Qed.

Lemma nondecreasing_skip (k x : Q) (l : list Q) :
  nondecreasing (k :: x :: l) -> nondecreasing (k :: l).
Proof.
  intros Hs. apply nondecreasing_cons.
  - intros y Hy. apply (nondecreasing_head_le k (x :: l) Hs). now right.
  - now apply nondecreasing_tail, nondecreasing_tail in Hs.
Qed.

Lemma nondecreasing_snoc (l : list Q) (hi : Q) :
  nondecreasing l -> (forall y, In y l -> y <= hi) ->
  nondecreasing (l ++ [hi]).
Proof.
  induction l as [|x l IH]; intros Hs Hhi; [exact I|].
  simpl. apply nondecreasing_cons.
  - intros y Hy. apply in_app_or in Hy. destruct Hy as [Hy|[<-|[]]].
    + now apply (nondecreasing_head_le x l).
    + apply Hhi. now left.
  - apply IH; [now apply nondecreasing_tail in Hs|].
    intros y Hy. apply Hhi. now right.
Qed.

Lemma nondecreasing_bracket (lo hi : Q) (l : list Q) :
  lo <= hi -> nondecreasing l -> (forall y, In y l -> lo <= y <= hi) ->
  nondecreasing ([lo] ++ l ++ [hi]).
Proof.
  intros Hlh Hs Hin. simpl. apply nondecreasing_cons.
  - intros y Hy. apply in_app_or in Hy. destruct Hy as [Hy|[<-|[]]].
    + now apply Hin.
    + assumption.
  - apply nondecreasing_snoc; [assumption|].
    intros y Hy. now apply Hin.
Qed.

Lemma last_cons {A : Type} (x : A) (l : list A) (d : A) :
  last (x :: l) d = last l x.
Proof.
  revert x d. induction l as [|y l IH]; intros x d; [reflexivity|].
  change (last (x :: y :: l) d) with (last (y :: l) d).
  now rewrite !IH.
Qed.

Lemma last_nonempty {A : Type} (l : list A) (d e : A) :
  l <> [] -> last l d = last l e.
Proof.
  destruct l as [|x l]; [congruence|]. intros _. now rewrite !last_cons.
Qed.

Lemma last_snoc (l : list Q) (x d : Q) : last (l ++ [x]) d = x.
Proof. apply last_last. Qed.

(** The filter of the source side keeps a non-decreasing array whole. *)
Lemma keepNotBelowPrev_sorted (x : Q) (l : list Q) :
  nondecreasing (x :: l) -> keepNotBelowPrev x l = l.
Proof.
  revert x. induction l as [|y l IH]; intros x Hs; [reflexivity|].
  destruct Hs as [Hxy Hs]. simpl. unfold Num.geb.
  apply Qle_bool_iff in Hxy. rewrite Hxy. simpl. now rewrite IH.
Qed.

Lemma filterNotBelowPrev_sorted (l : list Q) :
  nondecreasing l -> filterNotBelowPrev l = l.
Proof.
  destruct l as [|x l]; [reflexivity|]. intros Hs. simpl.
  now rewrite keepNotBelowPrev_sorted.
Qed.

(** The [reduce] keeps its first entry and goes on from it. *)
Lemma dedupe_fold (r acc : list Q) (k : Q) :
  fold_left dedupeStep r (acc ++ [k]) = acc ++ k :: dedupeFrom k r.
Proof.
  revert acc k. induction r as [|x r IH]; intros acc k; [reflexivity|].
  simpl. unfold dedupeStep at 2.
  destruct (acc ++ [k]) as [|h tl] eqn:E;
    [now destruct acc|]. rewrite <- E, last_snoc.
  destruct (Num.gtb (Num.abs (x - k)) (1 # 2)).
  - rewrite <- app_assoc. simpl.
    change (acc ++ k :: [x]) with (acc ++ [k] ++ [x]).
    rewrite app_assoc, IH, <- app_assoc. reflexivity.
  - apply IH.
Qed.

Lemma dedupe_cons (x : Q) (r : list Q) :
  dedupe (x :: r) = x :: dedupeFrom x r.
Proof. unfold dedupe. simpl. apply (dedupe_fold r [] x). Qed.

Lemma dedupeFrom_subset (k : Q) (r : list Q) :
  forall y, In y (dedupeFrom k r) -> In y r.
Proof.
  revert k. induction r as [|x r IH]; intros k y Hy; [contradiction|].
  simpl in Hy. destruct (Num.gtb (Num.abs (x - k)) (1 # 2)).
  - destruct Hy as [<-|Hy]; [now left | right; now apply (IH x)].
  - right. now apply (IH k).
Qed.

Lemma dedupeFrom_nondecreasing (k : Q) (r : list Q) :
  nondecreasing (k :: r) -> nondecreasing (k :: dedupeFrom k r).
Proof.
  revert k. induction r as [|x r IH]; intros k Hs; [exact I|].
  simpl. destruct (Num.gtb (Num.abs (x - k)) (1 # 2)).
  - split; [apply Hs | apply IH, Hs].
  - apply IH. now apply nondecreasing_skip in Hs.
Qed.

(** The last kept entry is at most 0.5 below the last entry read. *)
Lemma dedupeFrom_last (k : Q) (r : list Q) :
  nondecreasing (k :: r) ->
  last r k - (1 # 2) <= last (dedupeFrom k r) k <= last r k.
Proof.
  revert k. induction r as [|x r IH]; intros k Hs; [simpl; lra|].
  rewrite last_cons. simpl.
  destruct (Num.gtb (Num.abs (x - k)) (1 # 2)) eqn:E.
  - rewrite last_cons. apply IH, Hs.
  - apply gtb_false in E. destruct Hs as [Hkx Hs].
    assert (Hx : x - k <= 1 # 2) by (revert E; num_cases; lra).
    destruct r as [|z r]; [simpl; lra|].
    rewrite (last_nonempty (z :: r) x k) by discriminate.
    apply IH. apply (nondecreasing_skip k x). split; assumption.
Qed.

(** What deduplication leaves of a non-decreasing array from [lo] to
    [hi]. *)
Lemma dedupe_bracketed (lo hi : Q) (l : list Q) :
  nondecreasing l -> l <> [] -> nth 0 l 0 == lo -> last l 0 == hi ->
  nondecreasing (dedupe l)
  /\ (1 <= length (dedupe l))%nat
  /\ nth 0 (dedupe l) 0 == lo
  /\ hi - (1 # 2) <= last (dedupe l) 0 <= hi.
Proof.
  intros Hs Hne Hlo Hhi. destruct l as [|x r]; [congruence|].
  rewrite dedupe_cons. simpl in Hlo.
  split; [now apply dedupeFrom_nondecreasing|].
  split; [simpl; lia|]. split; [assumption|].
  rewrite last_cons in Hhi |- *.
  pose proof (dedupeFrom_last x r Hs). lra.
Qed.

(** Line numbers come out in ascending order. *)
Lemma headingStartsFrom_sorted (lines : list Text.t) (i : nat) :
  StronglySorted le (headingStartsFrom i lines)
  /\ Forall (le i) (headingStartsFrom i lines).
Proof.
  revert i. induction lines as [|l r IH]; intros i; simpl;
    [split; constructor|].
  destruct (IH (S i)) as [Hs Hall].
  assert (Hall' : Forall (le i) (headingStartsFrom (S i) r))
    by (eapply Forall_impl; [|exact Hall]; simpl; intros; lia).
  destruct (Text.isHeadingLine l); simpl; [|split; assumption].
  split; constructor; try assumption; lia.
Qed.

Lemma insertNat_Forall (P : nat -> Prop) (x : nat) (l : list nat) :
  P x -> Forall P l -> Forall P (insertNat x l).
Proof.
  intros Hx. induction l as [|y l IH]; intros Hl; simpl;
    [now constructor|].
  inversion Hl; subst.
  destruct (x <=? y)%nat; constructor; auto.
Qed.

Lemma insertNat_sorted (x : nat) (l : list nat) :
  StronglySorted le l -> StronglySorted le (insertNat x l).
Proof.
  induction l as [|y l IH]; intros Hs; simpl;
    [repeat constructor|].
  apply StronglySorted_inv in Hs. destruct Hs as [Hs Hy].
  destruct (Nat.leb_spec x y).
  - constructor; [now constructor|].
    constructor; [assumption|].
    eapply Forall_impl; [|exact Hy]. simpl. intros. lia.
  - constructor; [now apply IH|].
    apply insertNat_Forall; [lia | assumption].
Qed.

Lemma sortNat_sorted (l : list nat) : StronglySorted le (sortNat l).
Proof.
  induction l as [|x l IH]; simpl; [constructor|].
  now apply insertNat_sorted.
Qed.

Lemma extractHeadingLineStarts_sorted (markdown : Text.t) :
  StronglySorted le (extractHeadingLineStarts markdown).
Proof. apply headingStartsFrom_sorted. Qed.

Lemma extractBlockLineStarts_sorted (markdown : Text.t) :
  StronglySorted le (extractBlockLineStarts markdown).
Proof.
  unfold extractBlockLineStarts.
  destruct (Text.splitLines markdown); apply sortNat_sorted.
Qed.

Lemma map_sorted_nondecreasing (f : nat -> Q) (l : list nat) :
  (forall a b, (a <= b)%nat -> f a <= f b) ->
  StronglySorted le l -> nondecreasing (map f l).
Proof.
  intros Hf. induction l as [|x l IH]; intros Hs; [exact I|].
  apply StronglySorted_inv in Hs. destruct Hs as [Hs Hx].
  simpl. apply nondecreasing_cons; [|now apply IH].
  intros y Hy. apply in_map_iff in Hy. destruct Hy as (z & <- & Hz).
  apply Hf. rewrite Forall_forall in Hx. now apply Hx.
Qed.

Lemma maxScroll_nonneg (el : Element) : 0 <= maxScroll el.
Proof. unfold maxScroll. num_cases; lra. Qed.

(** The pixel offset of a line start, clamped, grows with the line
    number, whatever the sign of the line height. *)
Lemma lineOffset_mono (lh mx : Q) (a b : nat) :
  0 <= mx -> (a <= b)%nat ->
  clamp (Num.of_nat a * lh) 0 mx <= clamp (Num.of_nat b * lh) 0 mx.
Proof.
  intros Hm Hab. pose proof (of_nat_le a b Hab) as Hq.
  pose proof (of_nat_nonneg a) as Ha.
  destruct (Qlt_le_dec lh 0) as [Hn|Hp].
  - assert (Num.of_nat a * lh <= 0).
    { assert (0 <= Num.of_nat a * (- lh))
        by (apply Qmult_le_0_compat; lra). lra. }
    assert (Num.of_nat b * lh <= 0).
    { assert (0 <= Num.of_nat b * (- lh))
        by (apply Qmult_le_0_compat; lra). lra. }
    num_cases; lra.
  - apply clamp_mono. apply Qmult_le_compat_r; assumption.
Qed.

Lemma insertNum_nondecreasing (x : Q) (l : list Q) :
  nondecreasing l -> nondecreasing (insertNum x l).
Proof.
  induction l as [|y r IH]; intros Hs; [exact I|].
  simpl. qcase x y; [split; assumption|].
  destruct r as [|z r]; [simpl; split; [lra | exact I]|].
  destruct Hs as [Hyz Hs]. specialize (IH Hs). simpl in IH |- *.
  qcase x z.
  - split; [lra | assumption].
  - split; assumption.
Qed.

Lemma insertNum_In (x a : Q) (l : list Q) :
  In a (insertNum x l) <-> a = x \/ In a l.
Proof.
  induction l as [|y r IH]; simpl; [intuition congruence|].
  destruct (Qle_bool x y); simpl; [intuition congruence|].
  rewrite IH. intuition congruence.
Qed.

Lemma sortNum_nondecreasing (l : list Q) : nondecreasing (sortNum l).
Proof.
  induction l as [|x l IH]; [exact I|]. simpl.
  now apply insertNum_nondecreasing.
Qed.

Lemma sortNum_In (a : Q) (l : list Q) : In a (sortNum l) <-> In a l.
Proof.
  induction l as [|x l IH]; simpl; [tauto|].
  rewrite insertNum_In, IH. intuition congruence.
Qed.

(** A sorted array with all entries in [[lo, hi]] that holds [lo] and [hi]
    starts at [lo] and ends at [hi]. *)
Lemma sorted_ends (lo hi : Q) (l : list Q) :
  nondecreasing l -> In lo l -> In hi l ->
  (forall y, In y l -> lo <= y <= hi) ->
  l <> [] /\ nth 0 l 0 == lo /\ last l 0 == hi.
Proof.
  intros Hs Hlo Hhi Hall.
  assert (Hne : l <> []) by (destruct l; [contradiction | discriminate]).
  assert (Hlen : (0 < length l)%nat)
    by (destruct l; [congruence | simpl; lia]).
  split; [assumption|]. split.
  - destruct (In_nth l lo 0 Hlo) as (i & Hi & Ei).
    pose proof (nondecreasing_nth l Hs 0 i ltac:(lia)) as H1.
    rewrite Ei in H1.
    pose proof (Hall (nth 0 l 0) (nth_In l 0 Hlen)). lra.
  - rewrite last_nth.
    destruct (In_nth l hi 0 Hhi) as (i & Hi & Ei).
    pose proof (nondecreasing_nth l Hs i (length l - 1) ltac:(lia)) as H1.
    rewrite Ei in H1.
    assert (Hl1 : (length l - 1 < length l)%nat) by lia.
    pose proof (Hall (nth (length l - 1) l 0) (nth_In l 0 Hl1)). lra.
Qed.

Lemma editorAnchor_bounds (view : View) (el : Element) (mx : Q) (pos : Z) :
  0 <= mx ->
  forall y, In y (editorAnchor view el mx pos) -> 0 <= y <= mx.
Proof.
  intros Hm y Hy. unfold editorAnchor in Hy.
  destruct (coordsAtPos view (pos + 1)); [|contradiction].
  destruct Hy as [<-|[]]. now apply clamp_bounds.
Qed.

Lemma computeSourceStops_spec (markdown : Text.t) (sourceEl : Element) :
  nondecreasing (computeSourceStops markdown sourceEl)
  /\ (1 <= length (computeSourceStops markdown sourceEl))%nat
  /\ nth 0 (computeSourceStops markdown sourceEl) 0 == 0
  /\ maxScroll sourceEl - (1 # 2)
     <= last (computeSourceStops markdown sourceEl) 0
     <= maxScroll sourceEl.
Proof.
  unfold computeSourceStops.
  pose proof (maxScroll_nonneg sourceEl) as Hm.
  set (mx := maxScroll sourceEl) in *.
  set (lh := getLineHeightPx sourceEl).
  set (lines := if (2 <=? _)%nat then _ else _).
  assert (Hl : StronglySorted le lines).
  { unfold lines. destruct (2 <=? _)%nat;
      [apply extractHeadingLineStarts_sorted
      |apply extractBlockLineStarts_sorted]. }
  set (f := fun line => clamp (Num.of_nat line * lh) 0 mx).
  assert (Hs : nondecreasing ([0] ++ map f lines ++ [mx])).
  { apply nondecreasing_bracket; [assumption| |].
    - apply map_sorted_nondecreasing; [|assumption].
      intros a b Hab. now apply lineOffset_mono.
    - intros y Hy. apply in_map_iff in Hy. destruct Hy as (z & <- & _).
      now apply clamp_bounds. }
  rewrite filterNotBelowPrev_sorted by assumption.
  apply dedupe_bracketed; try assumption.
  - discriminate.
  - reflexivity.
  - change ([0] ++ map f lines ++ [mx]) with (0 :: (map f lines ++ [mx])).
    rewrite last_cons, last_snoc. reflexivity.
Qed.

Lemma computeEditorStops_spec (view : View) (editorEl : Element) :
  nondecreasing (computeEditorStops view editorEl)
  /\ (1 <= length (computeEditorStops view editorEl))%nat
  /\ nth 0 (computeEditorStops view editorEl) 0 == 0
  /\ maxScroll editorEl - (1 # 2)
     <= last (computeEditorStops view editorEl) 0
     <= maxScroll editorEl.
Proof.
  unfold computeEditorStops.
  pose proof (maxScroll_nonneg editorEl) as Hm.
  set (mx := maxScroll editorEl) in *.
  set (raw := if (2 <=? _)%nat then _ else _).
  assert (Hraw : forall y, In y raw -> 0 <= y <= mx).
  { unfold raw, editorHeadingStops, editorBlockStops.
    intros y Hy. destruct (2 <=? _)%nat;
      apply in_flat_map in Hy; destruct Hy as (n & _ & Hy).
    - destruct (isHeading n); [|contradiction].
      now apply (editorAnchor_bounds view editorEl mx (nodePos n)).
    - now apply (editorAnchor_bounds view editorEl mx n). }
  set (arr := [0] ++ raw ++ [mx]).
  assert (Hall : forall y, In y (sortNum arr) -> 0 <= y <= mx).
  { intros y Hy. apply (proj1 (sortNum_In y arr)) in Hy. unfold arr in Hy.
    simpl in Hy. destruct Hy as [<-|Hy]; [lra|].
    apply in_app_or in Hy. destruct Hy as [Hy|[<-|[]]]; [auto | lra]. }
  destruct (sorted_ends 0 mx (sortNum arr)) as (Hne & H0 & Hlast).
  - apply sortNum_nondecreasing.
  - apply sortNum_In. unfold arr. now left.
  - apply sortNum_In. unfold arr. simpl. right.
    apply in_or_app. right. now left.
  - assumption.
  - apply dedupe_bracketed; try assumption. apply sortNum_nondecreasing.
Qed.

(** C2, as stated, fails for the last element: the deduplication drops
    the closing maximum when it is within 0.5 of the entry kept before it.
    Source pane: text ["a\n\nb"] (block starts at lines 0 and 2), line
    height 19.75, [scrollHeight = 140], [clientHeight = 100]: the array
    [[0, 0, 39.5, 40]] is reduced to [[0, 39.5]], whose last entry is not
    the maximum 40.  Rendered pane: one block at top coordinate 99.75,
    maximum 100: [[0, 99.75, 100]] is reduced to [[0, 99.75]]. *)
Lemma recomputeStops_last_counterexample :
  let sourceEl := mkElement 0 140 100 (Some (79 # 4)) 0 in
  let editorEl := mkElement 0 200 100 None 0 in
  let view := mkView [mkNode false 0] [0%Z] (fun _ => Some (399 # 4)) in
  exists stops,
    recomputeStops [97; 10; 10; 98]%N (Some sourceEl) (Some editorEl)
                   (Some view) = Some stops
    /\ maxScroll sourceEl == 40
    /\ Forall2 Qeq (sourceStops stops) [0; 79 # 2]
    /\ ~ last (sourceStops stops) 0 == maxScroll sourceEl
    /\ maxScroll editorEl == 100
    /\ Forall2 Qeq (editorStops stops) [0; 399 # 4]
    /\ ~ last (editorStops stops) 0 == maxScroll editorEl.
Proof.
  eexists. split; [reflexivity|].
  repeat match goal with |- _ /\ _ => split end;
    try (vm_compute; reflexivity);
    try (vm_compute; repeat constructor);
    try (vm_compute; discriminate).
Qed.

(** C2, amended.  Every run of [recomputeStops] that finds both elements
    and the view writes stops that are, on each side, a non-empty
    non-decreasing sequence whose first element is 0 and whose last
    element is at most the pane's maximum scroll offset
    [max(0, scrollHeight - clientHeight)] and at most 0.5 below it, for
    every text, line height and set of anchor coordinates. *)
Theorem recomputeStops_invariant (markdownRef : Text.t)
    (sourceEl editorScrollEl : Element) (view : View) :
  exists stops,
    recomputeStops markdownRef (Some sourceEl) (Some editorScrollEl)
                   (Some view) = Some stops
    /\ (nondecreasing (sourceStops stops)
        /\ (1 <= length (sourceStops stops))%nat
        /\ nth 0 (sourceStops stops) 0 == 0
        /\ maxScroll sourceEl - (1 # 2) <= last (sourceStops stops) 0
           <= maxScroll sourceEl)
    /\ (nondecreasing (editorStops stops)
        /\ (1 <= length (editorStops stops))%nat
        /\ nth 0 (editorStops stops) 0 == 0
        /\ maxScroll editorScrollEl - (1 # 2) <= last (editorStops stops) 0
           <= maxScroll editorScrollEl).
Proof.
  eexists. split; [reflexivity|]. simpl. split.
  - apply computeSourceStops_spec.
  - apply computeEditorStops_spec.
Qed.

Example extractBlockLineStarts_example :
  extractBlockLineStarts [97; 10; 10; 98]%N = [0; 2]%nat.
Proof. reflexivity. Qed.

(** ["# a\n\n## b\n####### c"]: lines 0 and 2 are headings, the line of
    seven [#] is not. *)
Example extractHeadingLineStarts_example :
  extractHeadingLineStarts
    [35; 32; 97; 10; 10; 35; 35; 32; 98; 10;
     35; 35; 35; 35; 35; 35; 35; 32; 99]%N = [0; 2]%nat.
Proof. reflexivity. Qed.

(** ** The sync lock *)

Lemma other_differs (who : Pane) : Pane_eqb (other who) who = false.
Proof. now destruct who. Qed.

(** C5.  A scroll event on pane [who] that arrives while the other pane
    holds the lock and the lock has not expired leaves every ref as it
    was: the lock and its expiry, the pending writes and the frame
    request. *)
Theorem onScroll_locked_by_other (who : Pane) (now1 now2 : Q)
    (sourceRef wysiwygScrollRef : option Element) (s : Scroll) :
  syncLockRef s = Some (other who) -> now1 <= syncLockUntilRef s ->
  isLockedByOther who now1 s = (true, s)
  /\ onScroll who now1 now2 sourceRef wysiwygScrollRef s = s.
Proof.
  intros Hl Hnow.
  assert (E : isLockedByOther who now1 s = (true, s)).
  { unfold isLockedByOther. rewrite Hl.
    apply gtb_false in Hnow. rewrite Hnow.
    now rewrite other_differs. }
  split; [exact E|].
  destruct who; simpl in *;
    unfold syncSourceToEditor, syncEditorToSource; now rewrite E.
Qed.

Lemma onScroll_locked_by_other_witness :
  let s := mkScroll (mkStops [0; 100] [0; 200]) None None false
                    (Some source) 1000 in
  onScroll editor 900 901
           (Some (mkElement 0 200 100 None 0))
           (Some (mkElement 50 300 100 None 0)) s = s.
Proof.
  intros s.
  apply (onScroll_locked_by_other editor 900 901 _ _ s);
    [reflexivity | unfold Qle; simpl; lia].
Defined.

(** C6.  After [acquireLock] at time [T] with window [ms], a check at any
    time after [T + ms] answers false and clears the holder, for either
    pane; and the scroll handler of either pane then goes on: it takes the
    lock for its pane and files the mapped target for the other pane under
    a frame request. *)
Theorem lock_expires (holder who : Pane) (ms T now now2 : Q)
    (sourceEl editorEl : Element) (s : Scroll) :
  T + ms < now ->
  let s1 := acquireLock holder ms T s in
  let s2 := onScroll who now now2 (Some sourceEl) (Some editorEl) s1 in
  isLockedByOther who now s1 = (false, setLock None (T + ms) s1)
  /\ syncLockRef (snd (isLockedByOther who now s1)) = None
  /\ syncLockRef s2 = Some who
  /\ syncLockUntilRef s2 = now2 + 260
  /\ pendingOf (other who) s2
     = Some (mappedTarget who sourceEl editorEl (stopsRef s))
  /\ syncRafRef s2 = true.
Proof.
  intros Hexp s1 s2.
  assert (E : isLockedByOther who now s1 = (false, setLock None (T + ms) s1)).
  { unfold isLockedByOther, s1, acquireLock. simpl.
    apply gtb_true in Hexp. now rewrite Hexp. }
  split; [exact E|]. split; [now rewrite E|].
  unfold s2. destruct who; simpl;
    unfold syncSourceToEditor, syncEditorToSource; rewrite E;
    unfold scheduleScrollTop; simpl;
    destruct (syncRafRef s); simpl; repeat split; reflexivity.
Qed.

Lemma lock_expires_witness :
  let s := mkScroll (mkStops [0; 100] [0; 200]) None None false None 0 in
  syncLockRef
    (snd (isLockedByOther editor 1261 (acquireLock source 260 1000 s)))
  = None.
Proof.
  intros s.
  apply (lock_expires source editor 260 1000 1261 1262
           (mkElement 0 200 100 None 0) (mkElement 50 300 100 None 0) s).
  unfold Qlt; simpl; lia.
Defined.

(** ** Edit propagation *)

Lemma Text_eqb_refl (a : Text.t) : Text.eqb a a = true.
Proof.
  induction a as [|x a IH]; [reflexivity|]. simpl.
  now rewrite N.eqb_refl, IH.
Qed.

Lemma Text_eqb_eq (a b : Text.t) : Text.eqb a b = true <-> a = b.
Proof.
  split; [|intros ->; apply Text_eqb_refl].
  revert b. induction a as [|x a IH]; destruct b as [|y b]; simpl;
    try discriminate; [reflexivity|].
  intros H. apply andb_true_iff in H. destruct H as [Hx Hr].
  apply N.eqb_eq in Hx. apply IH in Hr. congruence.
Qed.

Lemma markdownUpdated_applying (P : Props) (now : Q) (next : Text.t)
    (e : Edit) :
  applyingFromSourceRef e = true ->
  markdownUpdated P now next e = recordEmitted next e.
Proof.
  intros H. unfold markdownUpdated. simpl. now rewrite H.
Qed.


(** While the flag is set, the texts the engine emits change nothing but
    [lastMarkdownFromEditorRef]. *)
Lemma emitted_while_applying (P : Props) (now : Q) (l : list Text.t)
    (e : Edit) :
  applyingFromSourceRef e = true ->
  fold_left (fun acc txt => markdownUpdated P now txt acc) l e
  = recordEmitted (last l (lastMarkdownFromEditorRef e)) e.
Proof.
  revert e. induction l as [|x l IH]; intros e H.
  - destruct e; simpl in *. reflexivity.
  - cbn [fold_left]. rewrite markdownUpdated_applying by assumption.
    rewrite IH by exact H.
    rewrite last_cons. reflexivity.
Qed.

Lemma timerCallback_with_editor (P : Props) (G : Engine) (due : Q)
    (md : Text.t) (e : Edit) :
  hasEditor e = true ->
  timerCallback P G due md e
  = mkEdit (markdown e) (markdownRef e)
           (last (emittedOnReplace G md) (lastMarkdownFromEditorRef e))
           true true None true true (replaceAllCalls e ++ [(due, md)]).
Proof.
  intros H. unfold timerCallback. cbn [hasEditor]. rewrite H. cbn [negb].
  rewrite emitted_while_applying by reflexivity.
  unfold scheduleRecomputeStops, recordEmitted. simpl.
  destruct (recomputeRafRef e); reflexivity.
Qed.

Lemma timerCallback_without_editor (P : Props) (G : Engine) (due : Q)
    (md : Text.t) (e : Edit) :
  hasEditor e = false ->
  replaceAllCalls (timerCallback P G due md e) = replaceAllCalls e.
Proof.
  intros H. unfold timerCallback. cbn [hasEditor]. rewrite H. reflexivity.
Qed.

Lemma scheduleRecomputeStops_fields (e : Edit) :
  markdown (scheduleRecomputeStops e) = markdown e
  /\ markdownRef (scheduleRecomputeStops e) = markdownRef e
  /\ lastMarkdownFromEditorRef (scheduleRecomputeStops e)
     = lastMarkdownFromEditorRef e
  /\ hasEditor (scheduleRecomputeStops e) = hasEditor e
  /\ timer (scheduleRecomputeStops e) = timer e
  /\ replaceAllCalls (scheduleRecomputeStops e) = replaceAllCalls e.
Proof.
  unfold scheduleRecomputeStops.
  destruct (recomputeRafRef e); repeat split; reflexivity.
Qed.



(** ** Debounce *)

Lemma advance_not_due (P : Props) (G : Engine) (now : Q) (e : Edit) :
  (forall due md, timer e = Some (due, md) -> now < due) ->
  advance P G now e = e.
Proof.
  intros H. unfold advance. destruct (timer e) as [[due md]|]; [|reflexivity].
  specialize (H due md eq_refl). qcase due now; [lra | reflexivity].
Qed.

Lemma afterChange_not_due (P : Props) (e0 e : Edit) (t t' : Q) (v : Text.t) :
  afterChange P e0 t v e -> t' - t < debounceMs P ->
  forall due md, timer e = Some (due, md) -> t' < due.
Proof.
  intros (_ & _ & _ & _ & Ht) Hlt due md E. rewrite Ht in E.
  destruct (negb (hasEditor e0)); [discriminate|].
  destruct (Text.eqb v (lastMarkdownFromEditorRef e0)); [discriminate|].
  injection E as <- _. lra.
Qed.

Lemma onChange_afterChange (P : Props) (G : Engine) (t : Q) (v : Text.t)
    (e : Edit) :
  Text.eqb v (markdown e) = false ->
  (forall due md, timer e = Some (due, md) -> t < due) ->
  afterChange P e t v (onChange P t v (advance P G t e)).
Proof.
  intros Hne Hdue. rewrite advance_not_due by assumption.
  unfold onChange, setMarkdown. rewrite Hne.
  set (e1 := mkEdit _ _ _ _ _ _ _ _ _).
  destruct (scheduleRecomputeStops_fields (debounceEffect P t e1))
    as (E1 & _ & E3 & E4 & E5 & E6).
  unfold afterChange. rewrite E1, E3, E4, E5, E6.
  unfold debounceEffect, e1. simpl. repeat split.
Qed.

Lemma afterChange_trans (P : Props) (e0 e e' : Edit) (t t' : Q)
    (v v' : Text.t) :
  afterChange P e0 t v e -> afterChange P e t' v' e' ->
  afterChange P e0 t' v' e'.
Proof.
  intros (_ & A2 & A3 & A4 & _) (B1 & B2 & B3 & B4 & B5).
  unfold afterChange. rewrite B1, B2, B3, B4, B5, A2, A3, A4.
  repeat split.
Qed.

Lemma runChanges_afterChange (P : Props) (G : Engine)
    (r : list (Q * Text.t)) (e0 e : Edit) (t : Q) (v : Text.t) :
  afterChange P e0 t v e -> rapidFrom P t r -> changing v r ->
  afterChange P e0 (fst (last r (t, v))) (snd (last r (t, v)))
              (runChanges P G r e).
Proof.
  revert e t v. induction r as [|[t' v'] r IH]; intros e t v Ha Hr Hc;
    [exact Ha|].
  destruct Hr as (Hle & Hlt & Hr). destruct Hc as [Hne Hc].
  rewrite last_cons. cbn [runChanges]. apply IH; try assumption.
  apply (afterChange_trans P e0 e _ t t' v v' Ha).
  apply onChange_afterChange.
  - destruct Ha as (-> & _). exact Hne.
  - now apply (afterChange_not_due P e0 e t t' v).
Qed.

Lemma advance_afterChange (P : Props) (G : Engine) (e0 e : Edit)
    (t tEnd : Q) (v : Text.t) :
  afterChange P e0 t v e -> t + debounceMs P <= tEnd ->
  replaceAllCalls (advance P G tEnd e)
  = replaceAllCalls e0
    ++ (if hasEditor e0 && negb (Text.eqb v (lastMarkdownFromEditorRef e0))
        then [(t + debounceMs P, v)] else []).
Proof.
  intros (A1 & A2 & A3 & A4 & A5) Hend. unfold advance. rewrite A5.
  destruct (hasEditor e0) eqn:Hed; simpl;
    [|now rewrite A4, app_nil_r].
  destruct (Text.eqb v (lastMarkdownFromEditorRef e0)); simpl;
    [now rewrite A4, app_nil_r|].
  apply Qle_bool_iff in Hend. rewrite Hend.
  rewrite timerCallback_with_editor by congruence.
  simpl. now rewrite A4.
Qed.

(** C3, as stated, fails: when the last text of the burst is the text last
    heard from the engine, the debounce effect returns before setting a
    time-out and no [replaceAll] is issued.  Initial text ["a"], changes to
    ["ab"] at 0 ms and back to ["a"] at 50 ms, window 250 ms. *)
Lemma debounce_counterexample :
  let P := mkProps [97]%N 250 in
  let G := mkEngine (fun md => [md]) in
  let changes := [(0, [97; 98]%N); (50, [97]%N)] in
  rapid P changes
  /\ changing (markdown (initialEdit P true)) changes
  /\ replaceAllCalls
       (advance P G 1000 (runChanges P G changes (initialEdit P true)))
     = [].
Proof.
  intros P G changes. split; [|split].
  - simpl. unfold Qle, Qlt. simpl. repeat split; lia.
  - simpl. repeat split.
  - vm_compute. reflexivity.
Qed.

(** The same burst ending in a new text: one call, with the last text, due
    one window after the last change. *)
Example debounce_scenario3 :
  let P := mkProps [97]%N 250 in
  let G := mkEngine (fun md => [md]) in
  let changes := [(0, [97; 98]%N); (40, [97; 98; 99]%N);
                  (90, [97; 98; 99; 100]%N)] in
  replaceAllCalls
    (advance P G 340 (runChanges P G changes (initialEdit P true)))
  = [(90 + 250, [97; 98; 99; 100]%N)].
Proof. vm_compute. reflexivity. Qed.

(** C3, amended.  For every burst of N >= 1 changes of the source text,
    each less than the debounce window after the one before it and each to
    a text other than the one the pane holds, begun with no time-out
    pending: no [replaceAll] is issued during the burst, and at most one
    after it.  Exactly one is issued, due one debounce window after the
    last change and carrying the last text, when the engine handle exists
    and the last text differs from the text last heard from the engine;
    otherwise none is. *)
Theorem debounce_coalescing (P : Props) (G : Engine) (e : Edit)
    (t1 : Q) (v1 : Text.t) (rest : list (Q * Text.t)) (tEnd : Q) :
  let changes := (t1, v1) :: rest in
  let tN := fst (last changes (t1, v1)) in
  let vN := snd (last changes (t1, v1)) in
  timer e = None -> rapid P changes -> changing (markdown e) changes ->
  tN + debounceMs P <= tEnd ->
  replaceAllCalls (runChanges P G changes e) = replaceAllCalls e
  /\ replaceAllCalls (advance P G tEnd (runChanges P G changes e))
     = replaceAllCalls e
       ++ (if hasEditor e
              && negb (Text.eqb vN (lastMarkdownFromEditorRef e))
           then [(tN + debounceMs P, vN)] else []).
Proof.
  intros changes tN vN Ht Hr Hc Hend.
  destruct Hc as [Hne Hc]. simpl in Hr.
  assert (H1 : afterChange P e t1 v1 (onChange P t1 v1 (advance P G t1 e))).
  { apply onChange_afterChange; [assumption|].
    intros due md E. rewrite Ht in E. discriminate. }
  pose proof (runChanges_afterChange P G rest e _ t1 v1 H1 Hr Hc) as H2.
  unfold changes in *. cbn [runChanges].
  unfold tN, vN in *. rewrite last_cons in *.
  split.
  - apply H2.
  - now apply (advance_afterChange P G e _ _ tEnd _ H2).
Qed.

Lemma debounce_coalescing_witness :
  let P := mkProps [97]%N 250 in
  let G := mkEngine (fun md => [md]) in
  let changes := [(0, [97; 98]%N); (40, [97; 98; 99]%N);
                  (90, [97; 98; 99; 100]%N)] in
  replaceAllCalls (runChanges P G changes (initialEdit P true)) = []
  /\ replaceAllCalls
       (advance P G 340 (runChanges P G changes (initialEdit P true)))
     = [] ++ [(90 + 250, [97; 98; 99; 100]%N)].
Proof.
  intros P G changes.
  apply (debounce_coalescing P G (initialEdit P true) 0 [97; 98]%N
           [(40, [97; 98; 99]%N); (90, [97; 98; 99; 100]%N)] 340).
  - reflexivity.
  - simpl. unfold Qle, Qlt. simpl. repeat split; lia.
  - simpl. repeat split.
  - simpl. unfold Qle. simpl. lia.
Defined.

(** * Further properties of the code *)

(** ** [clamp] and the degenerate cases of the mapper *)

Lemma clamp_below (v lo hi : Q) : lo <= hi -> v <= lo -> clamp v lo hi == lo.
Proof. intros. num_cases; lra. Qed.

Lemma clamp_above (v lo hi : Q) : lo <= hi -> hi <= v -> clamp v lo hi == hi.
Proof. intros. num_cases; lra. Qed.

Lemma clamp_idem (v lo hi : Q) :
  lo <= hi -> clamp (clamp v lo hi) lo hi = clamp v lo hi.
Proof.
  intros H. unfold clamp, Num.min, Num.max.
  qcase lo v.
  - qcase hi v.
    + qcase lo hi; [|lra]. qcase hi hi; [reflexivity | lra].
    + qcase lo v; [|lra]. qcase hi v; [lra | reflexivity].
  - qcase hi lo.
    + qcase lo hi; [|lra]. qcase hi hi; [reflexivity | lra].
    + qcase lo lo; [|lra]. qcase hi lo; [lra | reflexivity].
Qed.

(** [clamp(value, min, max)] stays within ordered bounds, returns a value
    within them unchanged, and is idempotent; with inverted bounds it
    returns [max]. *)
Theorem clamp_behaviour (v lo hi : Q) :
  (lo <= hi ->
   lo <= clamp v lo hi <= hi
   /\ (lo <= v <= hi -> clamp v lo hi == v)
   /\ clamp (clamp v lo hi) lo hi = clamp v lo hi)
  /\ (hi < lo -> clamp v lo hi = hi).
Proof.
  split.
  - intros H. split; [now apply clamp_bounds|].
    split; [apply clamp_inside | now apply clamp_idem].
  - intros H. unfold clamp, Num.min, Num.max.
    qcase lo v; [qcase hi v; [reflexivity | lra]|].
    qcase hi lo; [reflexivity | lra].
Qed.

Lemma clamp_behaviour_witness : clamp 7 5 3 = 3.
Proof. apply (clamp_behaviour 7 5 3). unfold Qlt; simpl; lia. Defined.

(** When either pane has no scrollable range the stops are not read: the
    result is 0 if [fromMax <= 0], and 0 if [toMax] is 0. *)
Theorem mapScrollTop_degenerate (fromTop : Q) (fromStops toStops : list Q)
    (fromMax toMax : Q) :
  (fromMax <= 0 -> mapScrollTop fromTop fromStops toStops fromMax toMax == 0)
  /\ (toMax == 0 ->
      mapScrollTop fromTop fromStops toStops fromMax toMax == 0).
Proof.
  split; intros H; unfold mapScrollTop.
  - qcase fromMax 0; [|lra]. simpl. ring.
  - qcase fromMax 0; simpl; [ring|].
    qcase toMax 0; [|lra]. rewrite H. ring.
Qed.

Lemma mapScrollTop_degenerate_witness :
  mapScrollTop 30 [0; 10; 90] [0; 50] 0 200 == 0.
Proof.
  apply (proj1 (mapScrollTop_degenerate 30 [0; 10; 90] [0; 50] 0 200)).
  unfold Qle; simpl; lia.
Defined.

Lemma clamp_ratio (x m : Q) :
  0 < m -> clamp (x / m) 0 1 == clamp x 0 m / m.
Proof.
  intros Hm.
  destruct (Qlt_le_dec x 0) as [Hn|Hp].
  - rewrite (clamp_below x 0 m) by lra.
    rewrite clamp_below; [field; lra | lra |].
    apply Qle_shift_div_r; lra.
  - destruct (Qlt_le_dec m x) as [Hb|Hs].
    + rewrite (clamp_above x 0 m) by lra.
      rewrite clamp_above; [field; lra | lra |].
      apply Qle_shift_div_l; lra.
    + rewrite (clamp_inside x 0 m) by lra.
      apply clamp_inside. split.
      * apply Qle_shift_div_l; lra.
      * apply Qle_shift_div_r; lra.
Qed.

(** The mapper saturates: an offset outside [[0, fromMax]] is mapped like
    the nearest end of that range. *)
Theorem mapScrollTop_saturates (fromTop : Q) (fromStops toStops : list Q)
    (fromMax toMax : Q) :
  mapScrollTop fromTop fromStops toStops fromMax toMax
  == mapScrollTop (clamp fromTop 0 fromMax) fromStops toStops fromMax toMax.
Proof.
  destruct (Qlt_le_dec 0 fromMax) as [Pf|Zf];
    [destruct (Qlt_le_dec 0 toMax) as [Pt|Zt]|].
  - rewrite !mapScrollTop_general by assumption. cbv zeta.
    rewrite clamp_idem by lra. reflexivity.
  - unfold mapScrollTop. qcase fromMax 0; [lra|]. qcase toMax 0; [|lra].
    simpl. rewrite !clamp_ratio by assumption.
    rewrite clamp_idem by lra. reflexivity.
  - unfold mapScrollTop. qcase fromMax 0; [|lra]. simpl. reflexivity.
Qed.

(** ** Resampling *)

(** A stop array of at most one entry is resampled to a constant array: of
    zeros when empty, of its entry otherwise; a length of 0 gives the empty
    array. *)
Theorem resampleStops_short_input (stops : list Q) (n : nat) :
  (length stops <= 1)%nat ->
  length (resampleStops stops n) = n
  /\ forall j, (j < n)%nat ->
               nth j (resampleStops stops n) 0 = nth 0 stops 0.
Proof.
  intros Hs. split; [apply resampleStops_length|].
  intros j Hj. unfold resampleStops.
  destruct (Nat.eqb_spec n 0); [lia|].
  destruct (Nat.eqb_spec (length stops) n) as [E|NE].
  - destruct stops as [|s [|? ?]]; simpl in *; try lia.
    now replace j with 0%nat by lia.
  - destruct stops as [|s [|? ?]]; simpl in Hs; try lia.
    + now rewrite (nth_map_seq (fun _ => 0)).
    + now rewrite (nth_map_seq (fun _ => s)).
Qed.

Lemma resampleStops_short_input_witness :
  nth 2 (resampleStops [7] 4) 0 = nth 0 [7] 0.
Proof.
  apply (resampleStops_short_input [7] 4); simpl; lia.
Defined.

(** Resampling at least two stops to at least two samples gives the
    requested length, keeps the first and the last stop, keeps the order,
    and stays within any bounds that hold for all stops. *)
Theorem resampleStops_shape (stops : list Q) (n : nat) :
  (2 <= length stops)%nat -> (2 <= n)%nat ->
  length (resampleStops stops n) = n
  /\ nth 0 (resampleStops stops n) 0 == nth 0 stops 0
  /\ last (resampleStops stops n) 0 == last stops 0
  /\ (nondecreasing stops -> nondecreasing (resampleStops stops n))
  /\ (forall lo hi,
        Forall (fun x => lo <= x <= hi) stops ->
        Forall (fun x => lo <= x <= hi) (resampleStops stops n)).
Proof.
  intros Hs Hn.
  split; [apply resampleStops_length|].
  split; [now apply resampleStops_first|].
  split.
  - rewrite !last_nth, resampleStops_length.
    now apply resampleStops_last.
  - split; [now apply resampleStops_nondecreasing|].
    intros lo hi Hall. rewrite Forall_forall in Hall.
    apply Forall_forall. intros x Hx.
    destruct (In_nth _ _ 0 Hx) as (j & Hj & <-).
    rewrite resampleStops_length in Hj.
    apply resampleStops_bounds; try assumption.
    intros k Hk. apply Hall. now apply nth_In.
Qed.

Lemma resampleStops_shape_witness :
  last (resampleStops [0; 10; 20; 500] 3) 0 == last [0; 10; 20; 500] 0.
Proof.
  apply (resampleStops_shape [0; 10; 20; 500] 3); simpl; lia.
Defined.

(** ** Landmarks *)

Lemma increasing_nondecreasing (l : list Q) :
  increasing l -> nondecreasing l.
Proof.
  induction l as [|x l IH]; [trivial|].
  destruct l as [|y l]; [trivial|].
  intros [Hxy Hr]. split; [lra | now apply IH].
Qed.

Lemma increasing_adjacent (l : list Q) :
  increasing l ->
  forall i, (S i < length l)%nat -> nth i l 0 < nth (S i) l 0.
Proof.
  induction l as [|x l IH]; intros Hs i Hi; [simpl in Hi; lia|].
  destruct l as [|y l]; [simpl in Hi; lia|].
  destruct Hs as [Hxy Hs]. destruct i as [|i]; [exact Hxy|].
  apply (IH Hs i). simpl in *. lia.
Qed.

Lemma increasing_nth (l : list Q) :
  increasing l ->
  forall i j, (i < j < length l)%nat -> nth i l 0 < nth j l 0.
Proof.
  intros Hs i j. induction j as [|j IH]; intros Hij; [lia|].
  destruct (Nat.eq_dec i j) as [->|NE].
  - apply increasing_adjacent; [assumption | lia].
  - apply Qlt_trans with (nth j l 0); [apply IH; lia|].
    apply increasing_adjacent; [assumption | lia].
Qed.

Lemma gapped_increasing (l : list Q) : gapped l -> increasing l.
Proof.
  induction l as [|x l IH]; [trivial|].
  destruct l as [|y l]; [trivial|].
  intros [Hxy Hr]. split; [lra | now apply IH].
Qed.

Lemma resampleStops_same (stops : list Q) (n : nat) :
  length stops = n -> resampleStops stops n = stops.
Proof.
  intros E. unfold resampleStops.
  destruct (Nat.eqb_spec n 0) as [Z|NZ].
  - subst n. now destruct stops.
  - destruct (Nat.eqb_spec (length stops) n); [reflexivity | congruence].
Qed.

Lemma scanSegment_finds (top : Q) (fS : list Q) (a b i : nat) :
  (forall j, (i <= j < i + a)%nat -> nth (S j) fS 0 < top) ->
  top <= nth (S (i + a)) fS 0 ->
  scanSegment top fS (a + b) i = (i + a)%nat.
Proof.
  revert i. induction a as [|a IH]; intros i Hpass Hstop.
  - rewrite Nat.add_0_r in *. destruct b as [|b]; [reflexivity|]. simpl.
    apply gtb_false in Hstop. now rewrite Hstop.
  - simpl.
    assert (E : Num.gtb top (nth (S i) fS 0) = true)
      by (apply gtb_true, Hpass; lia).
    rewrite E, IH; [lia| |].
    + intros j Hj. apply Hpass. lia.
    + replace (S i + a)%nat with (i + S a)%nat by lia. exact Hstop.
Qed.

Lemma mapSegment_past_end (top : Q) (fS tS : list Q) (i : nat) :
  nth i fS 0 < nth (S i) fS 0 -> nth (S i) fS 0 <= top ->
  mapSegment top fS tS i == nth (S i) tS 0.
Proof.
  intros Hlt Hge. unfold mapSegment.
  destruct (Qeq_bool_spec (nth (S i) fS 0) (nth i fS 0)) as [E1|NE]; [lra|].
  rewrite clamp_above; [ring | lra |].
  apply Qle_shift_div_l; lra.
Qed.

Lemma mapScrollTop_beyond_last (fromTop : Q) (fromStops toStops : list Q)
    (fromMax toMax : Q) :
  (2 <= length fromStops)%nat -> (2 <= length toStops)%nat ->
  nondecreasing fromStops ->
  nth (length fromStops - 2) fromStops 0 < last fromStops 0 ->
  last fromStops 0 <= fromMax -> 0 < fromMax -> 0 < toMax ->
  fromMax <= fromTop ->
  mapScrollTop fromTop fromStops toStops fromMax toMax == last toStops 0.
Proof.
  intros Lf Lt Hf Hpen Hlast Hfm Htm Hx.
  rewrite !last_nth in *.
  rewrite mapScrollTop_general by assumption. cbv zeta.
  rewrite !stopsOrTrivial_long by assumption.
  destruct (commonLen_bounds fromStops toStops Lf Lt) as (L2 & Lcf & Lct).
  set (len := commonLen fromStops toStops) in *.
  pose proof (resampleStops_last fromStops len Lf L2) as EfS.
  pose proof (resampleStops_last toStops len Lt L2) as EtS.
  pose proof (clamp_above fromTop 0 fromMax ltac:(lra) Hx) as Htop.
  set (top := clamp fromTop 0 fromMax) in *.
  assert (Hbelow : forall j, (S j < len)%nat ->
            nth j (resampleStops fromStops len) 0
            < nth (length fromStops - 1) fromStops 0).
  { intros j Hj. now apply resampleStops_below_last. }
  set (fS := resampleStops fromStops len) in *.
  set (tS := resampleStops toStops len) in *.
  rewrite scanSegment_runs.
  - replace (0 + (len - 2))%nat with (len - 2)%nat by lia.
    assert (Hl : S (len - 2) = (len - 1)%nat) by lia.
    rewrite mapSegment_past_end; rewrite Hl.
    + exact EtS.
    + rewrite EfS. apply Hbelow. lia.
    + lra.
  - intros j Hj.
    apply Qlt_le_trans with (nth (length fromStops - 1) fromStops 0);
      [apply Hbelow; lia | lra].
Qed.

(** ** Lines of the text *)

Lemma splitLines_nonempty (s : Text.t) : Text.splitLines s <> [].
Proof.
  destruct s as [|c r]; simpl; [discriminate|].
  destruct (c =? 10)%N; [discriminate|].
  destruct (Text.splitLines r); discriminate.
Qed.

(** [split("\n")] loses nothing: joining the lines with ["\n"] gives the
    text back, no line holds a line feed, and there is one line more than
    there are line feeds (so at least one line, also for the empty
    text). *)
Theorem splitLines_round_trip (s : Text.t) :
  joinLines (Text.splitLines s) = s
  /\ Forall (fun l => ~ In 10%N l) (Text.splitLines s)
  /\ length (Text.splitLines s) = S (count_occ N.eq_dec s 10%N).
Proof.
  induction s as [|c r (IHj & IHf & IHl)].
  - simpl. repeat split. constructor; [tauto | constructor].
  - pose proof (splitLines_nonempty r) as Hne. simpl.
    destruct (N.eqb_spec c 10) as [->|NE].
    + destruct (Text.splitLines r) as [|l ls] eqn:E; [congruence|].
      split; [|split].
      * simpl. now rewrite <- IHj.
      * constructor; [tauto | assumption].
      * simpl. destruct (N.eq_dec 10 10); [|congruence].
        now rewrite <- IHl.
    + destruct (Text.splitLines r) as [|l ls] eqn:E; [congruence|].
      split; [|split].
      * rewrite <- IHj. simpl. destruct ls; reflexivity.
      * inversion IHf; subst. constructor; [|assumption].
        simpl. intros [H|H]; [congruence | tauto].
      * destruct (N.eq_dec c 10); [congruence|]. exact IHl.
Qed.

Lemma headingStartsFrom_In (lines : list Text.t) (b i : nat) :
  In i (headingStartsFrom b lines)
  <-> (b <= i < b + length lines)%nat
      /\ Text.isHeadingLine (nth (i - b) lines []) = true.
Proof.
  revert b. induction lines as [|l r IH]; intros b; simpl.
  - split; [tauto | lia].
  - rewrite in_app_iff, IH. split.
    + intros [H|(Hr & Hh)].
      * destruct (Text.isHeadingLine l) eqn:E; [|contradiction].
        destruct H as [<-|[]]. rewrite Nat.sub_diag. split; [lia | exact E].
      * split; [lia|].
        replace (i - b)%nat with (S (i - S b)) by lia. exact Hh.
    + intros (Hr & Hh). destruct (Nat.eq_dec i b) as [->|NE].
      * left. rewrite Nat.sub_diag in Hh. rewrite Hh. now left.
      * right. split; [lia|].
        replace (i - b)%nat with (S (i - S b)) in Hh by lia. exact Hh.
Qed.

Lemma headingStartsFrom_ascending (lines : list Text.t) (b : nat) :
  StronglySorted lt (headingStartsFrom b lines).
Proof.
  revert b. induction lines as [|l r IH]; intros b; simpl; [constructor|].
  destruct (Text.isHeadingLine l); simpl; [|apply IH].
  constructor; [apply IH|].
  apply Forall_forall. intros x Hx. apply headingStartsFrom_In in Hx. lia.
Qed.

(** [extractHeadingLineStarts] returns, in strictly ascending order,
    exactly the indices of the lines that match the heading pattern. *)
Theorem extractHeadingLineStarts_exact (markdown : Text.t) :
  StronglySorted lt (extractHeadingLineStarts markdown)
  /\ forall i,
       In i (extractHeadingLineStarts markdown)
       <-> (i < length (Text.splitLines markdown))%nat
           /\ Text.isHeadingLine (nth i (Text.splitLines markdown) [])
              = true.
Proof.
  split; [apply headingStartsFrom_ascending|].
  intros i. unfold extractHeadingLineStarts.
  rewrite headingStartsFrom_In, Nat.sub_0_r. split; intros [H1 H2];
    (split; [lia | assumption]).
Qed.

Lemma blockStartsFrom_In (lines : list Text.t) (prev : Text.t) (b i : nat) :
  In i (blockStartsFrom b prev lines)
  <-> (b <= i < b + length lines)%nat
      /\ Text.isBlank (nth (i - b) (prev :: lines) []) = true
      /\ Text.isBlank (nth (i - b) lines []) = false.
Proof.
  revert b prev. induction lines as [|cur r IH]; intros b prev.
  - simpl. split; [tauto | lia].
  - cbn [blockStartsFrom]. rewrite in_app_iff, IH. split.
    + intros [H|(Hr & Hp & Hc)].
      * destruct (Text.isBlank prev) eqn:Ep; [|contradiction].
        destruct (Text.isBlank cur) eqn:Ec; [contradiction|].
        destruct H as [<-|[]]. rewrite Nat.sub_diag. simpl.
        repeat split; try assumption; lia.
      * split; [simpl; lia|].
        replace (i - b)%nat with (S (i - S b)) by lia. split; assumption.
    + intros (Hr & Hp & Hc). destruct (Nat.eq_dec i b) as [->|NE].
      * left. rewrite Nat.sub_diag in Hp, Hc. simpl in Hp, Hc.
        rewrite Hp, Hc. now left.
      * right. simpl in Hr. split; [lia|].
        replace (i - b)%nat with (S (i - S b)) in Hp, Hc by lia.
        split; assumption.
Qed.

Lemma blockStartsFrom_ascending (lines : list Text.t) (prev : Text.t)
    (b : nat) :
  StronglySorted lt (blockStartsFrom b prev lines).
Proof.
  revert b prev. induction lines as [|cur r IH]; intros b prev;
    [constructor|].
  cbn [blockStartsFrom].
  destruct (Text.isBlank prev && negb (Text.isBlank cur)); simpl; [|apply IH].
  constructor; [apply IH|].
  apply Forall_forall. intros x Hx. apply blockStartsFrom_In in Hx. lia.
Qed.

(** On a strictly ascending array the [Set] and the [sort] of
    [extractBlockLineStarts] change nothing. *)
Lemma uniq_ascending (l : list nat) : StronglySorted lt l -> uniq l = l.
Proof.
  induction l as [|x l IH]; intros Hs; [reflexivity|].
  apply StronglySorted_inv in Hs. destruct Hs as [Hs Hx].
  simpl. rewrite IH by assumption. f_equal.
  apply forallb_filter_id. apply forallb_forall. intros y Hy.
  rewrite Forall_forall in Hx. specialize (Hx y Hy).
  apply negb_true_iff, Nat.eqb_neq. lia.
Qed.

Lemma sortNat_ascending (l : list nat) : StronglySorted lt l -> sortNat l = l.
Proof.
  induction l as [|x l IH]; intros Hs; [reflexivity|].
  apply StronglySorted_inv in Hs. destruct Hs as [Hs Hx].
  simpl. rewrite IH by assumption.
  destruct l as [|y l]; [reflexivity|]. simpl.
  inversion Hx; subst.
  destruct (Nat.leb_spec x y); [reflexivity | lia].
Qed.

(** [extractBlockLineStarts] returns, in strictly ascending order, line 0
    and exactly the later lines that are not blank and follow a blank
    line. *)
Theorem extractBlockLineStarts_exact (markdown : Text.t) :
  StronglySorted lt (extractBlockLineStarts markdown)
  /\ nth_error (extractBlockLineStarts markdown) 0 = Some 0%nat
  /\ forall i,
       In i (extractBlockLineStarts markdown)
       <-> i = 0%nat
           \/ ((0 < i < length (Text.splitLines markdown))%nat
               /\ Text.isBlank (nth (i - 1) (Text.splitLines markdown) [])
                  = true
               /\ Text.isBlank (nth i (Text.splitLines markdown) [])
                  = false).
Proof.
  unfold extractBlockLineStarts.
  pose proof (splitLines_nonempty markdown) as Hne.
  destruct (Text.splitLines markdown) as [|l0 r]; [congruence|].
  assert (Hs : StronglySorted lt (0%nat :: blockStartsFrom 1 l0 r)).
  { constructor; [apply blockStartsFrom_ascending|].
    apply Forall_forall. intros x Hx. apply blockStartsFrom_In in Hx. lia. }
  rewrite (uniq_ascending _ Hs), (sortNat_ascending _ Hs).
  split; [exact Hs|]. split; [reflexivity|].
  intros i. simpl In. rewrite blockStartsFrom_In. split.
  - intros [<-|(Hr & Hp & Hc)]; [now left|]. right.
    simpl length. split; [lia|].
    replace (nth i (l0 :: r) []) with (nth (i - 1) r [])
      by (destruct i; [lia|]; simpl; now rewrite Nat.sub_0_r).
    split; assumption.
  - intros [->|(Hr & Hp & Hc)]; [now left|]. right.
    simpl length in Hr. split; [lia|].
    replace (nth i (l0 :: r) []) with (nth (i - 1) r []) in Hc
      by (destruct i; [lia|]; simpl; now rewrite Nat.sub_0_r).
    split; assumption.
Qed.

(** ** The stops [recomputeStops] writes *)

Lemma dedupeFrom_gapped (k : Q) (r : list Q) :
  nondecreasing (k :: r) -> gapped (k :: dedupeFrom k r).
Proof.
  revert k. induction r as [|x r IH]; intros k Hs; [exact I|].
  simpl. destruct (Num.gtb (Num.abs (x - k)) (1 # 2)) eqn:E.
  - split; [|apply IH, Hs].
    apply gtb_true in E. destruct Hs as [Hkx _].
    revert E. num_cases; lra.
  - apply IH. now apply nondecreasing_skip in Hs.
Qed.

Lemma dedupe_gapped (l : list Q) : nondecreasing l -> gapped (dedupe l).
Proof.
  destruct l as [|x r]; [intros _; exact I|].
  intros Hs. rewrite dedupe_cons. now apply dedupeFrom_gapped.
Qed.

Lemma dedupe_subset (l : list Q) : forall y, In y (dedupe l) -> In y l.
Proof.
  destruct l as [|x r]; [intros y []|].
  rewrite dedupe_cons. intros y [<-|Hy]; [now left|].
  right. now apply (dedupeFrom_subset x r).
Qed.

Lemma computeSourceStops_dedupe (markdown : Text.t) (sourceEl : Element) :
  exists l,
    computeSourceStops markdown sourceEl = dedupe l
    /\ nondecreasing l
    /\ forall y, In y l -> 0 <= y <= maxScroll sourceEl.
Proof.
  unfold computeSourceStops.
  pose proof (maxScroll_nonneg sourceEl) as Hm.
  set (mx := maxScroll sourceEl) in *.
  set (lh := getLineHeightPx sourceEl).
  set (lines := if (2 <=? _)%nat then _ else _).
  assert (Hl : StronglySorted le lines).
  { unfold lines. destruct (2 <=? _)%nat;
      [apply extractHeadingLineStarts_sorted
      |apply extractBlockLineStarts_sorted]. }
  set (f := fun line => clamp (Num.of_nat line * lh) 0 mx).
  assert (Hin : forall y, In y (map f lines) -> 0 <= y <= mx).
  { intros y Hy. apply in_map_iff in Hy. destruct Hy as (z & <- & _).
    now apply clamp_bounds. }
  assert (Hs : nondecreasing ([0] ++ map f lines ++ [mx])).
  { apply nondecreasing_bracket; [assumption| |assumption].
    apply map_sorted_nondecreasing; [|assumption].
    intros a b Hab. now apply lineOffset_mono. }
  exists ([0] ++ map f lines ++ [mx]).
  rewrite filterNotBelowPrev_sorted by assumption.
  split; [reflexivity|]. split; [assumption|].
  intros y Hy. simpl in Hy. destruct Hy as [<-|Hy]; [lra|].
  apply in_app_or in Hy. destruct Hy as [Hy|[<-|[]]]; [auto | lra].
Qed.

Lemma computeEditorStops_dedupe (view : View) (editorEl : Element) :
  exists l,
    computeEditorStops view editorEl = dedupe l
    /\ nondecreasing l
    /\ forall y, In y l -> 0 <= y <= maxScroll editorEl.
Proof.
  unfold computeEditorStops.
  pose proof (maxScroll_nonneg editorEl) as Hm.
  set (mx := maxScroll editorEl) in *.
  set (raw := if (2 <=? _)%nat then _ else _).
  assert (Hraw : forall y, In y raw -> 0 <= y <= mx).
  { unfold raw, editorHeadingStops, editorBlockStops.
    intros y Hy. destruct (2 <=? _)%nat;
      apply in_flat_map in Hy; destruct Hy as (n & _ & Hy).
    - destruct (isHeading n); [|contradiction].
      now apply (editorAnchor_bounds view editorEl mx (nodePos n)).
    - now apply (editorAnchor_bounds view editorEl mx n). }
  exists (sortNum ([0] ++ raw ++ [mx])).
  split; [reflexivity|]. split; [apply sortNum_nondecreasing|].
  intros y Hy. apply (proj1 (sortNum_In y _)) in Hy.
  simpl in Hy. destruct Hy as [<-|Hy]; [lra|].
  apply in_app_or in Hy. destruct Hy as [Hy|[<-|[]]]; [auto | lra].
Qed.

Lemma computeSourceStops_gaps (markdown : Text.t) (sourceEl : Element) :
  gapped (computeSourceStops markdown sourceEl)
  /\ Forall (fun x => 0 <= x <= maxScroll sourceEl)
            (computeSourceStops markdown sourceEl).
Proof.
  destruct (computeSourceStops_dedupe markdown sourceEl) as (l & E & S & B).
  rewrite E. split; [now apply dedupe_gapped|].
  apply Forall_forall. intros y Hy. now apply B, dedupe_subset.
Qed.

Lemma computeEditorStops_gaps (view : View) (editorEl : Element) :
  gapped (computeEditorStops view editorEl)
  /\ Forall (fun x => 0 <= x <= maxScroll editorEl)
            (computeEditorStops view editorEl).
Proof.
  destruct (computeEditorStops_dedupe view editorEl) as (l & E & S & B).
  rewrite E. split; [now apply dedupe_gapped|].
  apply Forall_forall. intros y Hy. now apply B, dedupe_subset.
Qed.

(** The stops of both panes are deduplicated: each entry is more than 0.5
    above the one before it (so the arrays are strictly increasing), and
    every entry lies between 0 and the pane's maximum scroll offset. *)
Theorem recomputeStops_gapped (markdownRef : Text.t)
    (sourceEl editorScrollEl : Element) (view : View) :
  exists stops,
    recomputeStops markdownRef (Some sourceEl) (Some editorScrollEl)
                   (Some view) = Some stops
    /\ gapped (sourceStops stops)
    /\ Forall (fun x => 0 <= x <= maxScroll sourceEl) (sourceStops stops)
    /\ gapped (editorStops stops)
    /\ Forall (fun x => 0 <= x <= maxScroll editorScrollEl)
              (editorStops stops).
Proof.
  eexists. split; [reflexivity|]. simpl.
  destruct (computeSourceStops_gaps markdownRef sourceEl) as [Gs Bs].
  destruct (computeEditorStops_gaps view editorScrollEl) as [Ge Be].
  repeat split; assumption.
Qed.

Lemma gapped_short (l : list Q) (mx : Q) :
  gapped l -> Forall (fun x => 0 <= x <= mx) l -> mx <= 1 # 2 ->
  (length l <= 1)%nat.
Proof.
  intros Hg Hall Hm. destruct l as [|x [|y r]]; simpl; try lia.
  destruct Hg as [Hxy _].
  inversion Hall as [|? ? Hx Hr]; subst.
  inversion Hr as [|? ? Hy _]; subst. lra.
Qed.

(** A pane whose scrollable range is at most 0.5 gets the single stop
    [0], so the mapper falls back to the two-point sequence for it. *)
Theorem recomputeStops_flat_pane (markdownRef : Text.t)
    (sourceEl editorScrollEl : Element) (view : View) :
  (maxScroll sourceEl <= 1 # 2 ->
   length (computeSourceStops markdownRef sourceEl) = 1%nat)
  /\ (maxScroll editorScrollEl <= 1 # 2 ->
      length (computeEditorStops view editorScrollEl) = 1%nat).
Proof.
  destruct (computeSourceStops_gaps markdownRef sourceEl) as [Gs Bs].
  destruct (computeEditorStops_gaps view editorScrollEl) as [Ge Be].
  pose proof (computeSourceStops_spec markdownRef sourceEl) as (_ & Ls & _).
  pose proof (computeEditorStops_spec view editorScrollEl) as (_ & Le & _).
  split; intros Hm.
  - pose proof (gapped_short _ _ Gs Bs Hm). lia.
  - pose proof (gapped_short _ _ Ge Be Hm). lia.
Qed.

Lemma recomputeStops_flat_pane_witness :
  length (computeSourceStops [97; 10; 10; 98]%N
            (mkElement 0 100 100 (Some 20) 0)) = 1%nat.
Proof.
  apply (proj1 (recomputeStops_flat_pane [97; 10; 10; 98]%N
                  (mkElement 0 100 100 (Some 20) 0)
                  (mkElement 0 100 100 None 0)
                  (mkView [] [] (fun _ => None)))).
  vm_compute. discriminate.
Defined.

(** When every coordinate query throws, no anchor is taken and the stops
    of the rendered pane are what deduplication leaves of [[0, max]]. *)
Theorem computeEditorStops_all_queries_fail (view : View)
    (editorEl : Element) :
  (forall pos, coordsAtPos view pos = None) ->
  computeEditorStops view editorEl = dedupe [0; maxScroll editorEl].
Proof.
  intros Hfail. unfold computeEditorStops.
  assert (Ea : forall pos,
             editorAnchor view editorEl (maxScroll editorEl) pos = []).
  { intros pos. unfold editorAnchor. now rewrite Hfail. }
  assert (Eh : editorHeadingStops view editorEl (maxScroll editorEl) = []).
  { unfold editorHeadingStops.
    induction (descendants view) as [|n r IH]; [reflexivity|].
    simpl. rewrite IH. destruct (isHeading n); [now rewrite Ea | reflexivity]. }
  assert (Eb : editorBlockStops view editorEl (maxScroll editorEl) = []).
  { unfold editorBlockStops.
    induction (topLevel view) as [|n r IH]; [reflexivity|].
    simpl. now rewrite IH, Ea. }
  rewrite Eh, Eb. simpl.
  pose proof (maxScroll_nonneg editorEl) as Hm.
  apply Qle_bool_iff in Hm. now rewrite Hm.
Qed.

Lemma computeEditorStops_all_queries_fail_witness :
  computeEditorStops (mkView [mkNode true 3] [0%Z; 7%Z] (fun _ => None))
                     (mkElement 0 300 100 None 0)
  = dedupe [0; maxScroll (mkElement 0 300 100 None 0)].
Proof.
  apply (computeEditorStops_all_queries_fail
           (mkView [mkNode true 3] [0%Z; 7%Z] (fun _ => None))).
  reflexivity.
Defined.

Lemma mapScrollTop_trivialised (fromTop : Q) (fromStops toStops : list Q)
    (fromMax toMax : Q) :
  0 < fromMax -> 0 < toMax ->
  mapScrollTop fromTop fromStops toStops fromMax toMax
  = mapScrollTop fromTop (stopsOrTrivial fromStops fromMax)
                 (stopsOrTrivial toStops toMax) fromMax toMax.
Proof.
  intros Hf Ht. rewrite !mapScrollTop_general by assumption. cbv zeta.
  rewrite !(stopsOrTrivial_long (stopsOrTrivial _ _))
    by apply stopsOrTrivial_length.
  reflexivity.
Qed.

Lemma bottom_near (fromTop : Q) (from to : list Q) (fromMax toMax : Q) :
  gapped from ->
  ((2 <= length from)%nat -> last from 0 <= fromMax) ->
  ((2 <= length to)%nat -> toMax - (1 # 2) <= last to 0 <= toMax) ->
  0 < fromMax -> 0 < toMax -> fromMax <= fromTop ->
  toMax - (1 # 2) <= mapScrollTop fromTop from to fromMax toMax <= toMax.
Proof.
  intros Hg Hlf Hlt Hfm Htm Hx.
  rewrite mapScrollTop_trivialised by assumption.
  assert (Hinc : increasing from) by now apply gapped_increasing.
  rewrite mapScrollTop_beyond_last; try assumption;
    try apply stopsOrTrivial_length.
  - unfold stopsOrTrivial. destruct (Nat.leb_spec 2 (length to)); [auto|].
    simpl. lra.
  - apply stopsOrTrivial_nondecreasing; [lra|].
    now apply increasing_nondecreasing.
  - unfold stopsOrTrivial. destruct (Nat.leb_spec 2 (length from));
      [|simpl; lra].
    rewrite last_nth.
    replace (length from - 1)%nat with (S (length from - 2)) by lia.
    apply increasing_adjacent; [assumption | lia].
  - unfold stopsOrTrivial. destruct (Nat.leb_spec 2 (length from));
      [auto | simpl; lra].
Qed.

(** With the stops [recomputeStops] writes, scrolling one pane to its
    bottom (or beyond) sends the other pane to within 0.5 of its own
    bottom, in both directions. *)
Theorem recomputed_bottoms_align (markdownRef : Text.t)
    (sourceEl editorEl : Element) (view : View) (fromTop : Q) :
  0 < maxScroll sourceEl -> 0 < maxScroll editorEl ->
  let ss := computeSourceStops markdownRef sourceEl in
  let es := computeEditorStops view editorEl in
  (maxScroll sourceEl <= fromTop ->
   maxScroll editorEl - (1 # 2)
   <= mapScrollTop fromTop ss es (maxScroll sourceEl) (maxScroll editorEl)
   <= maxScroll editorEl)
  /\ (maxScroll editorEl <= fromTop ->
      maxScroll sourceEl - (1 # 2)
      <= mapScrollTop fromTop es ss (maxScroll editorEl) (maxScroll sourceEl)
      <= maxScroll sourceEl).
Proof.
  intros Hs He ss es.
  destruct (computeSourceStops_gaps markdownRef sourceEl) as [Gs _].
  destruct (computeEditorStops_gaps view editorEl) as [Ge _].
  pose proof (computeSourceStops_spec markdownRef sourceEl)
    as (_ & _ & _ & Ls).
  pose proof (computeEditorStops_spec view editorEl) as (_ & _ & _ & Le).
  fold ss in Gs, Ls. fold es in Ge, Le.
  split; intros Hx; apply bottom_near; try assumption; intros _;
    assumption || lra.
Qed.

Lemma recomputed_bottoms_align_witness :
  let sourceEl := mkElement 0 140 100 (Some (79 # 4)) 0 in
  let editorEl := mkElement 0 200 100 None 0 in
  let view := mkView [mkNode false 0] [0%Z] (fun _ => Some (399 # 4)) in
  maxScroll editorEl - (1 # 2)
  <= mapScrollTop 40 (computeSourceStops [97; 10; 10; 98]%N sourceEl)
                  (computeEditorStops view editorEl)
                  (maxScroll sourceEl) (maxScroll editorEl)
  <= maxScroll editorEl.
Proof.
  intros sourceEl editorEl view.
  apply (proj1 (recomputed_bottoms_align [97; 10; 10; 98]%N sourceEl
                  editorEl view 40 ltac:(vm_compute; reflexivity)
                  ltac:(vm_compute; reflexivity))).
  vm_compute. discriminate.
Defined.

(** ** The scroll controller *)

(** Pending writes are a last-value-wins buffer: of two targets filed for
    one pane before the frame runs only the second is kept, the other
    pane's pending write and the lock are not touched, and a frame is
    requested. *)
Theorem scheduleScrollTop_last_wins (key : Pane) (t1 t2 : Q) (s : Scroll) :
  let s2 := scheduleScrollTop key t2 (scheduleScrollTop key t1 s) in
  pendingOf key s2 = Some t2
  /\ pendingOf (other key) s2 = pendingOf (other key) s
  /\ syncRafRef s2 = true
  /\ syncLockRef s2 = syncLockRef s
  /\ syncLockUntilRef s2 = syncLockUntilRef s
  /\ stopsRef s2 = stopsRef s.
Proof.
  unfold scheduleScrollTop. destruct key, s as [st ps pe raf l u];
    destruct raf; simpl; repeat split.
Qed.



Lemma isLockedByOther_false_lock (who : Pane) (now : Q) (s : Scroll) :
  stopsRef (snd (isLockedByOther who now s)) = stopsRef s
  /\ pendingSource (snd (isLockedByOther who now s)) = pendingSource s
  /\ pendingEditor (snd (isLockedByOther who now s)) = pendingEditor s
  /\ syncRafRef (snd (isLockedByOther who now s)) = syncRafRef s
  /\ syncLockUntilRef (snd (isLockedByOther who now s)) = syncLockUntilRef s
  /\ (syncLockRef (snd (isLockedByOther who now s)) = syncLockRef s
      \/ syncLockRef (snd (isLockedByOther who now s)) = None).
Proof.
  unfold isLockedByOther. destruct (syncLockRef s) eqn:El; simpl.
  - destruct (Num.gtb now (syncLockUntilRef s)); simpl;
      repeat split; auto.
  - repeat split; auto.
Qed.

(** At no time are both panes suppressed: for any refs and any time,
    [isLockedByOther] answers true for at most one pane. *)
Theorem lock_suppresses_one_pane (now : Q) (s : Scroll) :
  fst (isLockedByOther source now s) = false
  \/ fst (isLockedByOther editor now s) = false.
Proof.
  unfold isLockedByOther. destruct (syncLockRef s) as [[|]|];
    destruct (Num.gtb now (syncLockUntilRef s)); simpl; auto.
Qed.

Lemma held_by_other_is_noop (who : Pane) (now1 now2 : Q)
    (sourceRef wysiwygScrollRef : option Element) (s : Scroll) :
  syncLockRef s = Some (other who) -> now1 <= syncLockUntilRef s ->
  onScroll who now1 now2 sourceRef wysiwygScrollRef s = s.
Proof.
  intros Hl Hnow.
  assert (E : isLockedByOther who now1 s = (true, s)).
  { unfold isLockedByOther. rewrite Hl.
    apply gtb_false in Hnow. rewrite Hnow. now destruct who. }
  destruct who; simpl;
    unfold syncSourceToEditor, syncEditorToSource; now rewrite E.
Qed.

(** A scroll event that is not suppressed, with both elements present,
    makes the next scroll event of the other pane a no-op for as long as
    the 260 ms lock lasts: the echo of the programmatic write is
    ignored. *)
Theorem echo_is_suppressed (who : Pane) (now1 now2 t t' : Q)
    (sourceEl editorEl : Element) (sourceRef' wysiwygScrollRef' : option Element)
    (s : Scroll) :
  fst (isLockedByOther who now1 s) = false ->
  t <= now2 + 260 ->
  let s1 := onScroll who now1 now2 (Some sourceEl) (Some editorEl) s in
  syncLockRef s1 = Some who
  /\ pendingOf (other who) s1
     = Some (mappedTarget who sourceEl editorEl (stopsRef s))
  /\ onScroll (other who) t t' sourceRef' wysiwygScrollRef' s1 = s1.
Proof.
  intros Hfree Ht s1.
  destruct (isLockedByOther who now1 s) as [b s0] eqn:E.
  simpl in Hfree. subst b.
  pose proof (isLockedByOther_false_lock who now1 s) as (Hst & _).
  rewrite E in Hst. simpl in Hst.
  assert (E1 : s1 = scheduleScrollTop (other who)
                      (mappedTarget who sourceEl editorEl (stopsRef s0))
                      (acquireLock who 260 now2 s0)).
  { unfold s1. destruct who; simpl;
      unfold syncSourceToEditor, syncEditorToSource; rewrite E;
      reflexivity. }
  assert (Hl : syncLockRef s1 = Some who /\ syncLockUntilRef s1 = now2 + 260
               /\ pendingOf (other who) s1
                  = Some (mappedTarget who sourceEl editorEl (stopsRef s))).
  { rewrite E1, Hst. unfold scheduleScrollTop, acquireLock.
    destruct who, s0 as [st ps pe raf l u]; destruct raf; simpl;
      repeat split. }
  destruct Hl as (Hl1 & Hl2 & Hl3).
  split; [exact Hl1|]. split; [exact Hl3|].
  apply (held_by_other_is_noop (other who) t t').
  - rewrite Hl1. now destruct who.
  - now rewrite Hl2.
Qed.

Lemma echo_is_suppressed_witness :
  let s := mkScroll (mkStops [0; 100] [0; 200]) None None false None 0 in
  let sEl := mkElement 50 200 100 None 0 in
  let eEl := mkElement 0 300 100 None 0 in
  let s1 := onScroll source 1000 1001 (Some sEl) (Some eEl) s in
  onScroll editor 1016 1017 (Some sEl) (Some eEl) s1 = s1.
Proof.
  intros s sEl eEl s1.
  apply (echo_is_suppressed source 1000 1001 1016 1017 sEl eEl
           (Some sEl) (Some eEl) s).
  - reflexivity.
  - unfold Qle; simpl; lia.
Defined.

(** The lock does not hold back its own pane: while pane [who] holds an
    unexpired lock, its next scroll event is handled, replaces the pending
    target of the other pane and moves the expiry to 260 ms after the new
    event. *)
Theorem own_lock_does_not_block (who : Pane) (now1 now2 : Q)
    (sourceEl editorEl : Element) (s : Scroll) :
  syncLockRef s = Some who -> now1 <= syncLockUntilRef s ->
  let s1 := onScroll who now1 now2 (Some sourceEl) (Some editorEl) s in
  isLockedByOther who now1 s = (false, s)
  /\ syncLockRef s1 = Some who
  /\ syncLockUntilRef s1 = now2 + 260
  /\ pendingOf (other who) s1
     = Some (mappedTarget who sourceEl editorEl (stopsRef s))
  /\ pendingOf who s1 = pendingOf who s.
Proof.
  intros Hl Hnow s1.
  assert (E : isLockedByOther who now1 s = (false, s)).
  { unfold isLockedByOther. rewrite Hl.
    apply gtb_false in Hnow. rewrite Hnow. now destruct who. }
  split; [exact E|].
  unfold s1. destruct who; simpl;
    unfold syncSourceToEditor, syncEditorToSource; rewrite E;
    unfold scheduleScrollTop, acquireLock;
    destruct s as [st ps pe raf l u]; destruct raf; simpl; repeat split.
Qed.

Lemma own_lock_does_not_block_witness :
  let s := mkScroll (mkStops [0; 100] [0; 200]) None (Some 7) true
                    (Some source) 1260 in
  syncLockUntilRef
    (onScroll source 1100 1101 (Some (mkElement 50 200 100 None 0))
              (Some (mkElement 0 300 100 None 0)) s)
  = 1101 + 260.
Proof.
  intros s.
  apply (own_lock_does_not_block source 1100 1101
           (mkElement 50 200 100 None 0) (mkElement 0 300 100 None 0) s).
  - reflexivity.
  - unfold Qle; simpl; lia.
Defined.

(** With an element missing the handler files no write, requests no frame
    and takes no lock; the only ref it may change is the holder of an
    expired lock, which the check clears. *)
Theorem onScroll_missing_element (who : Pane) (now1 now2 : Q)
    (sourceRef wysiwygScrollRef : option Element) (s : Scroll) :
  sourceRef = None \/ wysiwygScrollRef = None ->
  let s1 := onScroll who now1 now2 sourceRef wysiwygScrollRef s in
  pendingSource s1 = pendingSource s
  /\ pendingEditor s1 = pendingEditor s
  /\ syncRafRef s1 = syncRafRef s
  /\ syncLockUntilRef s1 = syncLockUntilRef s
  /\ (syncLockRef s1 = syncLockRef s \/ syncLockRef s1 = None).
Proof.
  intros Hmiss s1.
  pose proof (isLockedByOther_false_lock who now1 s)
    as (_ & H2 & H3 & H4 & H5 & H6).
  assert (E : s1 = snd (isLockedByOther who now1 s)).
  { unfold s1. destruct who; simpl;
      unfold syncSourceToEditor, syncEditorToSource;
      destruct (isLockedByOther _ now1 s) as [b s0]; simpl;
      destruct b; try reflexivity;
      destruct Hmiss as [-> | ->]; try reflexivity;
      destruct sourceRef; reflexivity. }
  rewrite E. repeat split; assumption.
Qed.

Lemma onScroll_missing_element_witness :
  let s := mkScroll (mkStops [0; 100] [0; 200]) None (Some 7) false
                    (Some editor) 500 in
  syncLockRef (onScroll source 1100 1101 None
                        (Some (mkElement 0 300 100 None 0)) s)
  = syncLockRef s
  \/ syncLockRef (onScroll source 1100 1101 None
                           (Some (mkElement 0 300 100 None 0)) s)
     = None.
Proof.
  intros s.
  apply (onScroll_missing_element source 1100 1101 None
           (Some (mkElement 0 300 100 None 0)) s).
  now left.
Defined.

(** ** Time-outs of the edit controller *)

Lemma advance_fires (P : Props) (G : Engine) (e0 e : Edit) (t now : Q)
    (v : Text.t) :
  afterChange P e0 t v e -> hasEditor e0 = true ->
  Text.eqb v (lastMarkdownFromEditorRef e0) = false ->
  t + debounceMs P <= now ->
  advance P G now e
  = mkEdit v (markdownRef e)
           (last (emittedOnReplace G v) (lastMarkdownFromEditorRef e0))
           false true None false true
           (replaceAllCalls e0 ++ [(t + debounceMs P, v)]).
Proof.
  intros (A1 & A2 & A3 & A4 & A5) Hed Hne Hdue.
  unfold advance. rewrite A5, Hed, Hne. simpl.
  apply Qle_bool_iff in Hdue. rewrite Hdue.
  rewrite timerCallback_with_editor by congruence.
  unfold runMicrotasks. simpl. now rewrite A1, A2, A4.
Qed.

(** Changes a full window apart are not merged: each is sent to the
    engine on its own, one window after it was made, provided the second
    text differs from what the engine emitted for the first. *)
Theorem debounce_separate_windows (P : Props) (G : Engine) (e : Edit)
    (t1 t2 tEnd : Q) (v1 v2 : Text.t) :
  hasEditor e = true -> timer e = None ->
  Text.eqb v1 (markdown e) = false ->
  Text.eqb v1 (lastMarkdownFromEditorRef e) = false ->
  t1 + debounceMs P <= t2 ->
  Text.eqb v2 v1 = false ->
  Text.eqb v2 (last (emittedOnReplace G v1) (lastMarkdownFromEditorRef e))
  = false ->
  t2 + debounceMs P <= tEnd ->
  replaceAllCalls
    (advance P G tEnd (runChanges P G [(t1, v1); (t2, v2)] e))
  = replaceAllCalls e
    ++ [(t1 + debounceMs P, v1); (t2 + debounceMs P, v2)].
Proof.
  intros Hed Ht Hn1 Hl1 Hgap Hn2 Hl2 Hend.
  cbn [runChanges].
  assert (H1 : afterChange P e t1 v1 (onChange P t1 v1 (advance P G t1 e))).
  { apply onChange_afterChange; [assumption|].
    intros due md E. rewrite Ht in E. discriminate. }
  set (e1 := onChange P t1 v1 (advance P G t1 e)) in *.
  pose proof (advance_fires P G e e1 t1 t2 v1 H1 Hed Hl1 Hgap) as F.
  set (e1' := advance P G t2 e1) in *.
  assert (Hidle : advance P G t2 e1' = e1')
    by (rewrite F; reflexivity).
  assert (H2 : afterChange P e1' t2 v2 (onChange P t2 v2 e1')).
  { rewrite <- Hidle at 2. apply onChange_afterChange.
    - rewrite F. exact Hn2.
    - intros due md E. rewrite F in E. discriminate. }
  rewrite (advance_afterChange P G e1' _ t2 tEnd v2 H2 Hend).
  rewrite F. cbn [hasEditor lastMarkdownFromEditorRef replaceAllCalls].
  rewrite Hl2. simpl. now rewrite <- app_assoc.
Qed.

Lemma debounce_separate_windows_witness :
  let P := mkProps [97]%N 250 in
  let G := mkEngine (fun md => [md]) in
  replaceAllCalls
    (advance P G 1000
       (runChanges P G [(0, [97; 98]%N); (300, [97; 98; 99]%N)]
                   (initialEdit P true)))
  = [] ++ [(0 + 250, [97; 98]%N); (300 + 250, [97; 98; 99]%N)].
Proof.
  intros P G.
  apply (debounce_separate_windows P G (initialEdit P true) 0 300 1000
           [97; 98]%N [97; 98; 99]%N);
    try reflexivity; unfold Qle; simpl; lia.
Defined.

Lemma timerCallback_no_handle (P : Props) (G : Engine) (due : Q)
    (md : Text.t) (e : Edit) :
  hasEditor e = false ->
  timerCallback P G due md e
  = mkEdit (markdown e) (markdownRef e) (lastMarkdownFromEditorRef e)
           (applyingFromSourceRef e) (hasEditor e) None
           (clearQueued e) (recomputeRafRef e) (replaceAllCalls e).
Proof.
  intros H. unfold timerCallback. cbn [hasEditor]. rewrite H. reflexivity.
Qed.

Lemma fired_timer_cleared (P : Props) (G : Engine) (due : Q) (md : Text.t)
    (e : Edit) :
  timer (runMicrotasks (timerCallback P G due md e)) = None.
Proof.
  destruct (hasEditor e) eqn:Hed.
  - rewrite timerCallback_with_editor by assumption. reflexivity.
  - rewrite timerCallback_no_handle by assumption.
    unfold runMicrotasks. cbn [clearQueued].
    destruct (clearQueued e); reflexivity.
Qed.

(** A time-out fires at most once: after the event loop has run up to
    [now], running it again up to an earlier or equal time changes nothing
    and sends nothing; one run sends at most one text; and a time-out that
    finds no engine handle sends nothing and does not set the echo
    flag. *)
Theorem advance_settles (P : Props) (G : Engine) (now now' : Q) (e : Edit) :
  (now' <= now -> advance P G now' (advance P G now e) = advance P G now e)
  /\ (length (replaceAllCalls (advance P G now e))
      <= S (length (replaceAllCalls e)))%nat
  /\ (hasEditor e = false ->
      replaceAllCalls (advance P G now e) = replaceAllCalls e
      /\ (applyingFromSourceRef (advance P G now e) = true ->
          applyingFromSourceRef e = true)).
Proof.
  split; [|split].
  - intros Hle. apply advance_not_due. intros due' md' E.
    unfold advance in E. destruct (timer e) as [[due md]|] eqn:Et.
    + revert E. qcase due now; intros E.
      * rewrite fired_timer_cleared in E. discriminate.
      * rewrite Et in E. injection E as <- _. lra.
    + rewrite Et in E. discriminate.
  - unfold advance. destruct (timer e) as [[due md]|]; [|lia].
    destruct (Qle_bool due now); [|lia].
    destruct (hasEditor e) eqn:Hed.
    + rewrite timerCallback_with_editor by assumption.
      cbn [runMicrotasks clearQueued replaceAllCalls].
      rewrite length_app. simpl. lia.
    + rewrite timerCallback_no_handle by assumption.
      unfold runMicrotasks. cbn [clearQueued].
      destruct (clearQueued e); cbn [replaceAllCalls]; lia.
  - intros Hed. unfold advance.
    destruct (timer e) as [[due md]|]; [|now split].
    destruct (Qle_bool due now); [|now split].
    rewrite timerCallback_no_handle by assumption.
    unfold runMicrotasks. cbn [clearQueued].
    destruct (clearQueued e);
      cbn [replaceAllCalls applyingFromSourceRef]; split;
      try reflexivity; try discriminate; auto.
Qed.

Lemma advance_settles_witness :
  let P := mkProps [97]%N 250 in
  let G := mkEngine (fun md => [md]) in
  let e := onChange P 0 [97; 98]%N (initialEdit P true) in
  advance P G 200 (advance P G 300 e) = advance P G 300 e.
Proof.
  intros P G e.
  apply (proj1 (advance_settles P G 300 200 e)).
  unfold Qle; simpl; lia.
Defined.

(** ** The easing curve *)

Lemma easeOutCubic_eq (t : Q) :
  easeOutCubic t == 1 - (1 - t) * (1 - t) * (1 - t).
Proof. unfold easeOutCubic. simpl. ring. Qed.

Lemma square_nonneg (a : Q) : 0 <= a * a.
Proof. nra. Qed.

Lemma cube_mono (a b : Q) : b <= a -> b * b * b <= a * a * a.
Proof.
  intros H.
  assert (E : a * a + a * b + b * b
              == ((2 * a + b) * (2 * a + b) + 3 * (b * b)) / 4) by field.
  assert (0 <= a * a + a * b + b * b).
  { rewrite E. pose proof (square_nonneg (2 * a + b)).
    pose proof (square_nonneg b). apply Qle_shift_div_l; lra. }
  assert (0 <= (a - b) * (a * a + a * b + b * b))
    by (apply Qmult_le_0_compat; lra).
  lra.
Qed.

Lemma easeOutCubic_mono (s t : Q) :
  s <= t -> easeOutCubic s <= easeOutCubic t.
Proof.
  intros H. rewrite !easeOutCubic_eq.
  pose proof (cube_mono (1 - s) (1 - t)). lra.
Qed.

Lemma easeOutCubic_unit (t : Q) :
  0 <= t <= 1 -> t <= easeOutCubic t <= 1.
Proof.
  intros [H0 H1]. rewrite easeOutCubic_eq.
  assert (0 <= (1 - t) * (1 - t)) by apply square_nonneg.
  assert (0 <= (1 - t) * (1 - t) * (1 - t))
    by (apply Qmult_le_0_compat; lra).
  assert (0 <= (1 - t) * t) by (apply Qmult_le_0_compat; lra).
  assert (0 <= (1 - t) * t * (2 - t)) by (apply Qmult_le_0_compat; lra).
  split; lra.
Qed.

(** The easing curve starts at 0, ends at 1, never decreases, and on
    [[0, 1]] stays between the linear progress and 1. *)
Theorem easeOutCubic_curve (s t : Q) :
  easeOutCubic 0 == 0 /\ easeOutCubic 1 == 1
  /\ (s <= t -> easeOutCubic s <= easeOutCubic t)
  /\ (0 <= t <= 1 -> t <= easeOutCubic t <= 1).
Proof.
  split; [reflexivity|]. split; [reflexivity|].
  split; [apply easeOutCubic_mono | apply easeOutCubic_unit].
Qed.

Lemma easeOutCubic_curve_witness :
  (1 # 2) <= easeOutCubic (1 # 2) <= 1.
Proof.
  apply (easeOutCubic_curve 0 (1 # 2)). unfold Qle; simpl; lia.
Defined.


(** * The mapper under rounding *)

Lemma exact_laws : Rounded.Laws Rounded.exact.
Proof.
  constructor; unfold Rounded.exact.
  - intros x y H. exact H.
  - intros x y H. exact H.
  - intros x. reflexivity.
  - reflexivity.
  - reflexivity.
  - intros x. reflexivity.
  - intros a b _ _ Hne E. apply Hne. lra.
Qed.

Section RoundedArithmetic.

Variable rnd : Q -> Q.
Hypothesis L : Rounded.Laws rnd.

Let rep := Rounded.representable rnd.

Lemma rnd_eq (x y : Q) : x == y -> rnd x == rnd y.
Proof. apply (Rounded.rnd_compat rnd L). Qed.

Lemma rnd_le (x y : Q) : x <= y -> rnd x <= rnd y.
Proof. apply (Rounded.rnd_mono rnd L). Qed.

Lemma rnd_0 : rnd 0 == 0.
Proof. apply (Rounded.rnd_zero rnd L). Qed.

Lemma rnd_1 : rnd 1 == 1.
Proof. apply (Rounded.rnd_one rnd L). Qed.

Lemma rnd_nonneg (x : Q) : 0 <= x -> 0 <= rnd x.
Proof. intros H. rewrite <- rnd_0. now apply rnd_le. Qed.

Lemma rnd_nonpos (x : Q) : x <= 0 -> rnd x <= 0.
Proof. intros H. rewrite <- rnd_0. now apply rnd_le. Qed.

Lemma rnd_le_1 (x : Q) : x <= 1 -> rnd x <= 1.
Proof. intros H. rewrite <- rnd_1. now apply rnd_le. Qed.

Lemma rnd_ge_1 (x : Q) : 1 <= x -> 1 <= rnd x.
Proof. intros H. rewrite <- rnd_1. now apply rnd_le. Qed.

Lemma rep_rnd (x : Q) : rep (rnd x).
Proof. apply (Rounded.rnd_idem rnd L). Qed.

Lemma rep_0 : rep 0.
Proof. exact rnd_0. Qed.

Lemma rep_eq (x y : Q) : x == y -> rep x -> rep y.
Proof.
  unfold rep, Rounded.representable. intros E H.
  apply Qeq_trans with (rnd x); [symmetry; now apply rnd_eq|].
  now apply Qeq_trans with x.
Qed.

Lemma rep_clamp (v lo hi : Q) : rep v -> rep lo -> rep hi -> rep (clamp v lo hi).
Proof.
  intros Hv Hl Hh. unfold clamp, Num.min, Num.max.
  destruct (Qle_bool lo v); destruct (Qle_bool hi _); assumption.
Qed.


Lemma rnd_ge_rep (x y : Q) : x <= y -> rep x -> x <= rnd y.
Proof.
  intros H R. pose proof (rnd_le x y H).
  unfold rep, Rounded.representable in R. lra.
Qed.

Lemma rnd_neg_rep (x : Q) : rep x -> rnd (- x) == - x.
Proof.
  intros R. pose proof (Rounded.rnd_opp rnd L x).
  unfold rep, Rounded.representable in R. lra.
Qed.

Lemma rnd_diff_pos (a b : Q) : rep a -> rep b -> a < b -> 0 < rnd (b - a).
Proof.
  intros Ra Rb Hab.
  assert (H0 : 0 <= rnd (b - a)) by (apply rnd_nonneg; lra).
  assert (Hn : ~ rnd (b - a) == 0)
    by (apply (Rounded.rnd_apart rnd L); try assumption; lra).
  destruct (Qlt_le_dec 0 (rnd (b - a))); [assumption|].
  exfalso. apply Hn. lra.
Qed.

(** ** [a + (b - a) * t] on doubles *)

Lemma rmix_at_zero (a b t : Q) :
  t == 0 ->
  Rounded.add rnd a (Rounded.mul rnd (Rounded.sub rnd b a) t) == rnd a.
Proof.
  intros Ht. unfold Rounded.add, Rounded.mul, Rounded.sub.
  assert (E1 : rnd (b - a) * t == 0) by (rewrite Ht; ring).
  pose proof (rnd_eq _ _ E1) as E2. rewrite rnd_0 in E2.
  apply rnd_eq. rewrite E2. ring.
Qed.

Lemma rmix_at_one (a b t : Q) :
  t == 1 ->
  Rounded.add rnd a (Rounded.mul rnd (Rounded.sub rnd b a) t)
  == Rounded.add rnd a (Rounded.sub rnd b a).
Proof.
  intros Ht. unfold Rounded.add, Rounded.mul, Rounded.sub.
  assert (E1 : rnd (b - a) * t == rnd (b - a)) by (rewrite Ht; ring).
  pose proof (rnd_eq _ _ E1) as E2.
  rewrite (Rounded.rnd_idem rnd L) in E2.
  apply rnd_eq. rewrite E2. reflexivity.
Qed.



Lemma rmix_nonneg (a b t : Q) :
  0 <= a -> 0 <= b -> rep a -> 0 <= t <= 1 ->
  0 <= Rounded.add rnd a (Rounded.mul rnd (Rounded.sub rnd b a) t).
Proof.
  intros Ha Hb Ra [Ht0 Ht1]. unfold Rounded.add, Rounded.mul, Rounded.sub.
  apply rnd_nonneg.
  assert (Hd : - a <= rnd (b - a)).
  { rewrite <- (rnd_neg_rep a Ra). apply rnd_le. lra. }
  assert (Hm : - a <= rnd (b - a) * t).
  { destruct (Qlt_le_dec (rnd (b - a)) 0) as [Hn|Hp].
    - assert (0 <= (- rnd (b - a)) * (1 - t))
        by (apply Qmult_le_0_compat; lra).
      lra.
    - assert (0 <= rnd (b - a) * t) by (apply Qmult_le_0_compat; lra).
      lra. }
  assert (- a <= rnd (rnd (b - a) * t)).
  { rewrite <- (rnd_neg_rep a Ra). now apply rnd_le. }
  lra.
Qed.

(** ** The fraction within a segment *)



Lemma rfrac_at_start (top a b : Q) :
  top == a ->
  (if Qeq_bool b a then 0
   else clamp (Rounded.div rnd (Rounded.sub rnd top a)
                           (Rounded.sub rnd b a)) 0 1) == 0.
Proof.
  intros E. destruct (Qeq_bool b a); [reflexivity|].
  unfold Rounded.div, Rounded.sub.
  assert (E1 : rnd (top - a) == 0).
  { rewrite <- rnd_0. apply rnd_eq. lra. }
  assert (E2 : rnd (rnd (top - a) / rnd (b - a)) == 0).
  { rewrite <- rnd_0. apply rnd_eq. rewrite E1. unfold Qdiv. ring. }
  rewrite (clamp_compat _ 0 0 1 E2). apply clamp_inside. lra.
Qed.

Lemma rfrac_past_end (top a b : Q) :
  rep a -> rep b -> a < b -> b <= top ->
  (if Qeq_bool b a then 0
   else clamp (Rounded.div rnd (Rounded.sub rnd top a)
                           (Rounded.sub rnd b a)) 0 1) == 1.
Proof.
  intros Ra Rb Hab Hge.
  destruct (Qeq_bool_spec b a) as [E|NE]; [lra|].
  pose proof (rnd_diff_pos a b Ra Rb Hab) as Hd.
  unfold Rounded.div, Rounded.sub.
  apply clamp_above; [lra|]. apply rnd_ge_1.
  apply Qle_shift_div_l; [assumption|].
  assert (rnd (b - a) <= rnd (top - a)) by (apply rnd_le; lra). lra.
Qed.

(** ** A segment *)


Lemma rmapSegment_at_start (top : Q) (fS tS : list Q) (i : nat) :
  top == nth i fS 0 ->
  Rounded.mapSegment rnd top fS tS i == rnd (nth i tS 0).
Proof.
  intros E. unfold Rounded.mapSegment.
  apply rmix_at_zero. now apply rfrac_at_start.
Qed.

Lemma rmapSegment_past_end (top : Q) (fS tS : list Q) (i : nat) :
  rep (nth i fS 0) -> rep (nth (S i) fS 0) ->
  nth i fS 0 < nth (S i) fS 0 -> nth (S i) fS 0 <= top ->
  Rounded.mapSegment rnd top fS tS i
  == Rounded.add rnd (nth i tS 0)
                 (Rounded.sub rnd (nth (S i) tS 0) (nth i tS 0)).
Proof.
  intros Ra Rb Hlt Hge. unfold Rounded.mapSegment.
  apply rmix_at_one. now apply rfrac_past_end.
Qed.



End RoundedArithmetic.

Lemma nullish_get_In (stops : list Q) (i : Z) :
  (1 <= length stops)%nat ->
  In (Num.nullish (Num.get stops i)
                  (nth (Z.to_nat (Z.of_nat (length stops) - 1)) stops 0))
     stops.
Proof.
  intros Hl. unfold Num.get.
  destruct (Z.ltb_spec i 0).
  - simpl. apply nth_In. lia.
  - destruct (nth_error stops (Z.to_nat i)) eqn:E; simpl.
    + now apply nth_error_In in E.
    + apply nth_In. lia.
Qed.

Section RoundedResampling.

Variable rnd : Q -> Q.
Hypothesis L : Rounded.Laws rnd.
Variable stops : list Q.
Variable n : nat.
Hypothesis two_stops : (2 <= length stops)%nat.
Hypothesis two_samples : (2 <= n)%nat.

Let rep := Rounded.representable rnd.
Let m : Z := (Z.of_nat (length stops) - 1)%Z.

Lemma rresampleStops_length :
  length (Rounded.resampleStops rnd stops n) = n.
Proof.
  unfold Rounded.resampleStops.
  destruct (Nat.eqb_spec n 0); [lia|].
  destruct (Nat.eqb_spec (length stops) n); [assumption|].
  destruct stops as [|a [|b r]]; now rewrite length_map, length_seq.
Qed.

Lemma rresampleStops_cases :
  Rounded.resampleStops rnd stops n = stops /\ length stops = n
  \/ Rounded.resampleStops rnd stops n
     = map (Rounded.resampleAt rnd stops n) (seq 0 n)
     /\ length stops <> n.
Proof.
  unfold Rounded.resampleStops.
  destruct (Nat.eqb_spec n 0); [lia|].
  destruct (Nat.eqb_spec (length stops) n); [now left|right].
  destruct stops as [|a [|b r]]; simpl in two_stops; try lia.
  split; [reflexivity | assumption].
Qed.

Lemma rfraction_bounds (x : Q) :
  0 <= Rounded.sub rnd x (inject_Z (Qfloor x)) <= 1.
Proof.
  pose proof (frac_bounds x) as [H0 H1]. unfold Rounded.sub. split.
  - now apply (rnd_nonneg rnd L).
  - apply (rnd_le_1 rnd L). lra.
Qed.

Lemma rinterpolate_at_first (x : Q) :
  x == 0 -> Rounded.interpolate rnd stops x == rnd (nth 0 stops 0).
Proof.
  intros E. unfold Rounded.interpolate.
  rewrite (Qfloor_comp x 0 E). change (Qfloor 0) with 0%Z.
  rewrite (get_in_range stops 0) by lia. simpl Z.to_nat.
  apply (rmix_at_zero rnd L). unfold Rounded.sub.
  rewrite <- (rnd_0 rnd L). apply (rnd_eq rnd L). rewrite E.
  change (inject_Z 0) with 0. ring.
Qed.

Lemma rinterpolate_at_last (x : Q) :
  x == inject_Z m ->
  Rounded.interpolate rnd stops x == rnd (nth (length stops - 1) stops 0).
Proof.
  intros E. unfold Rounded.interpolate. fold m.
  rewrite (Qfloor_comp x _ E), Qfloor_Z.
  replace (Z.min (m + 1) m) with m by lia.
  rewrite (get_in_range stops m) by (unfold m; lia).
  replace (Z.to_nat m) with (length stops - 1)%nat by (unfold m; lia).
  apply (rmix_at_zero rnd L). unfold Rounded.sub.
  rewrite <- (rnd_0 rnd L). apply (rnd_eq rnd L). rewrite E. ring.
Qed.

Lemma rresampleIndex_first : Rounded.resampleIndex rnd stops n 0 == 0.
Proof.
  unfold Rounded.resampleIndex. fold m.
  destruct (Nat.eqb_spec n 1); [lia|].
  unfold Rounded.mul, Rounded.div.
  assert (E1 : rnd (Num.of_nat 0 / Num.of_nat (n - 1)) == 0).
  { rewrite <- (rnd_0 rnd L). apply (rnd_eq rnd L).
    unfold Num.of_nat. simpl Z.of_nat. unfold Qdiv. ring. }
  rewrite <- (rnd_0 rnd L). apply (rnd_eq rnd L). rewrite E1. ring.
Qed.

Lemma rresampleIndex_last :
  rep (inject_Z m) ->
  Rounded.resampleIndex rnd stops n (n - 1) == inject_Z m.
Proof.
  intros Rm. unfold Rounded.resampleIndex. fold m.
  destruct (Nat.eqb_spec n 1); [lia|].
  unfold Rounded.mul, Rounded.div.
  assert (Hn : 0 < Num.of_nat (n - 1)).
  { unfold Num.of_nat. change 0 with (inject_Z 0). rewrite <- Zlt_Qlt. lia. }
  assert (E1 : rnd (Num.of_nat (n - 1) / Num.of_nat (n - 1)) == 1).
  { rewrite <- (rnd_1 rnd L). apply (rnd_eq rnd L). field. lra. }
  apply Qeq_trans with (rnd (inject_Z m)); [|exact Rm].
  apply (rnd_eq rnd L). rewrite E1. ring.
Qed.

Lemma rresampleAt_nonneg_rep (j : nat) :
  (forall y, In y stops -> 0 <= y /\ rep y) ->
  0 <= Rounded.resampleAt rnd stops n j
  /\ rep (Rounded.resampleAt rnd stops n j).
Proof.
  intros Hall. unfold Rounded.resampleAt, Rounded.interpolate. split.
  - apply (rmix_nonneg rnd L).
    + apply Hall, nullish_get_In. lia.
    + apply Hall, nullish_get_In. lia.
    + apply Hall, nullish_get_In. lia.
    + apply rfraction_bounds.
  - apply (rep_rnd rnd L).
Qed.

Lemma rresampleStops_nonneg_rep (j : nat) :
  (forall y, In y stops -> 0 <= y /\ rep y) -> (j < n)%nat ->
  0 <= nth j (Rounded.resampleStops rnd stops n) 0
  /\ rep (nth j (Rounded.resampleStops rnd stops n) 0).
Proof.
  intros Hall Hj. destruct rresampleStops_cases as [[E Ln]|[E _]]; rewrite E.
  - apply Hall, nth_In. lia.
  - rewrite nth_map_seq by lia. now apply rresampleAt_nonneg_rep.
Qed.

Lemma rresampleStops_first :
  rep (nth 0 stops 0) ->
  nth 0 (Rounded.resampleStops rnd stops n) 0 == nth 0 stops 0.
Proof.
  intros R0. destruct rresampleStops_cases as [[E _]|[E _]]; rewrite E;
    [reflexivity|].
  rewrite nth_map_seq by lia. unfold Rounded.resampleAt.
  rewrite (rinterpolate_at_first _ rresampleIndex_first). exact R0.
Qed.

Lemma rresampleStops_last :
  rep (nth (length stops - 1) stops 0) -> rep (inject_Z m) ->
  nth (n - 1) (Rounded.resampleStops rnd stops n) 0
  == nth (length stops - 1) stops 0.
Proof.
  intros Rl Rm. destruct rresampleStops_cases as [[E Ln]|[E _]]; rewrite E.
  - rewrite Ln. reflexivity.
  - rewrite nth_map_seq by lia. unfold Rounded.resampleAt.
    rewrite (rinterpolate_at_last _ (rresampleIndex_last Rm)). exact Rl.
Qed.

End RoundedResampling.

Lemma rresampleStops_same (rnd : Q -> Q) (stops : list Q) (n : nat) :
  length stops = n -> Rounded.resampleStops rnd stops n = stops.
Proof.
  intros E. unfold Rounded.resampleStops.
  destruct (Nat.eqb_spec n 0) as [Z|NZ].
  - subst n. now destruct stops.
  - destruct (Nat.eqb_spec (length stops) n); [reflexivity | congruence].
Qed.

Lemma rmapScrollTop_general (rnd : Q -> Q) (fromTop : Q)
    (fromStops toStops : list Q) (fromMax toMax : Q) :
  0 < fromMax -> 0 < toMax ->
  Rounded.mapScrollTop rnd fromTop fromStops toStops fromMax toMax =
  let from := stopsOrTrivial fromStops fromMax in
  let to := stopsOrTrivial toStops toMax in
  let len := commonLen from to in
  let fStops := Rounded.resampleStops rnd from len in
  let tStops := Rounded.resampleStops rnd to len in
  let top := clamp fromTop 0 fromMax in
  Rounded.mapSegment rnd top fStops tStops
                     (scanSegment top fStops (len - 2) 0).
Proof.
  intros Hf Ht. unfold Rounded.mapScrollTop.
  qcase fromMax 0; [lra|]. qcase toMax 0; [lra|]. reflexivity.
Qed.

(** Without rounding the mapper is the one on exact rationals. *)
Lemma rounded_exact (fromTop : Q) (fromStops toStops : list Q)
    (fromMax toMax : Q) :
  Rounded.mapScrollTop Rounded.exact fromTop fromStops toStops fromMax toMax
  = mapScrollTop fromTop fromStops toStops fromMax toMax.
Proof. reflexivity. Qed.

Section RoundedMapper.

Variable rnd : Q -> Q.
Hypothesis L : Rounded.Laws rnd.

Let rep := Rounded.representable rnd.

Lemma rsub_zero (x : Q) : rep x -> Rounded.sub rnd x 0 == x.
Proof.
  intros R. unfold Rounded.sub.
  apply Qeq_trans with (rnd x); [|exact R].
  apply (rnd_eq rnd L). ring.
Qed.

Lemma rmix_compat (a a' b b' t t' : Q) :
  a == a' -> b == b' -> t == t' ->
  Rounded.add rnd a (Rounded.mul rnd (Rounded.sub rnd b a) t)
  == Rounded.add rnd a' (Rounded.mul rnd (Rounded.sub rnd b' a') t').
Proof.
  intros Ea Eb Et. unfold Rounded.add, Rounded.mul, Rounded.sub.
  assert (E1 : rnd (b - a) == rnd (b' - a'))
    by (apply (rnd_eq rnd L); rewrite Ea, Eb; reflexivity).
  assert (E2 : rnd (rnd (b - a) * t) == rnd (rnd (b' - a') * t'))
    by (apply (rnd_eq rnd L); rewrite E1, Et; reflexivity).
  apply (rnd_eq rnd L). apply Qplus_comp; [exact Ea | exact E2].
Qed.

Lemma rmix_from_zero (b t t' : Q) :
  rep b -> t == t' ->
  Rounded.add rnd 0 (Rounded.mul rnd (Rounded.sub rnd b 0) t)
  == Rounded.mul rnd b t'.
Proof.
  intros Rb Et. pose proof (rsub_zero b Rb) as E0.
  unfold Rounded.add, Rounded.mul in *.
  assert (E1 : rnd (Rounded.sub rnd b 0 * t) == rnd (b * t'))
    by (apply (rnd_eq rnd L); rewrite E0, Et; reflexivity).
  apply Qeq_trans with (rnd (rnd (b * t'))).
  - apply (rnd_eq rnd L). rewrite E1. ring.
  - apply (Rounded.rnd_idem rnd L).
Qed.

Lemma rmix_compat_ends (a b b' : Q) :
  b == b' ->
  Rounded.add rnd a (Rounded.sub rnd b a)
  == Rounded.add rnd a (Rounded.sub rnd b' a).
Proof.
  intros Eb. unfold Rounded.add, Rounded.sub.
  assert (E1 : rnd (b - a) == rnd (b' - a))
    by (apply (rnd_eq rnd L); rewrite Eb; reflexivity).
  apply (rnd_eq rnd L). rewrite E1. reflexivity.
Qed.

Lemma rdiv_compat (x x' y y' : Q) :
  x == x' -> y == y' -> Rounded.div rnd x y == Rounded.div rnd x' y'.
Proof.
  intros Ex Ey. unfold Rounded.div. apply (rnd_eq rnd L).
  rewrite Ex, Ey. reflexivity.
Qed.

Lemma rsub_compat (x x' y y' : Q) :
  x == x' -> y == y' -> Rounded.sub rnd x y == Rounded.sub rnd x' y'.
Proof.
  intros Ex Ey. unfold Rounded.sub. apply (rnd_eq rnd L).
  rewrite Ex, Ey. reflexivity.
Qed.

Lemma rfrac_compat (top a a' b b' : Q) :
  a == a' -> b == b' ->
  (if Qeq_bool b a then 0
   else clamp (Rounded.div rnd (Rounded.sub rnd top a)
                           (Rounded.sub rnd b a)) 0 1)
  == (if Qeq_bool b' a' then 0
      else clamp (Rounded.div rnd (Rounded.sub rnd top a')
                              (Rounded.sub rnd b' a')) 0 1).
Proof.
  intros Ea Eb.
  destruct (Qeq_bool_spec b a) as [E|NE];
    destruct (Qeq_bool_spec b' a') as [E'|NE']; try reflexivity.
  - exfalso. apply NE'. rewrite <- Ea, <- Eb. exact E.
  - exfalso. apply NE. rewrite Ea, Eb. exact E'.
  - apply clamp_compat. apply rdiv_compat; apply rsub_compat;
      try assumption; reflexivity.
Qed.

Lemma stops_nonneg (l : list Q) :
  nondecreasing l -> nth 0 l 0 == 0 -> forall y, In y l -> 0 <= y.
Proof.
  intros Hs H0 y Hy. destruct (In_nth l y 0 Hy) as (i & Hi & <-).
  pose proof (nondecreasing_nth l Hs 0 i ltac:(lia)). lra.
Qed.

Lemma stopsOrTrivial_rep (stops : list Q) (mx : Q) :
  0 <= mx -> rep mx ->
  (forall y, In y stops -> 0 <= y /\ rep y) ->
  forall y, In y (stopsOrTrivial stops mx) -> 0 <= y /\ rep y.
Proof.
  intros Hm Rm Hall y Hy. unfold stopsOrTrivial in Hy.
  destruct (2 <=? length stops)%nat; [now apply Hall|].
  destruct Hy as [<-|[<-|[]]].
  - split; [lra | apply (rep_0 rnd L)].
  - split; assumption.
Qed.


(** From the last from-stop on: the scan runs to the last segment and the
    fraction is 1. *)
Lemma rmapScrollTop_beyond_last (fromTop : Q) (fromStops toStops : list Q)
    (fromMax toMax : Q) :
  (2 <= length fromStops)%nat -> (2 <= length toStops)%nat ->
  (forall y, In y fromStops -> 0 <= y /\ rep y) ->
  rep (Num.of_nat (length fromStops - 1)) ->
  rep (last toStops 0) -> rep (Num.of_nat (length toStops - 1)) ->
  (forall j, (j < commonLen fromStops toStops - 1)%nat ->
     nth j (Rounded.resampleStops rnd fromStops
              (commonLen fromStops toStops)) 0 < last fromStops 0) ->
  last fromStops 0 <= fromMax ->
  0 < fromMax -> 0 < toMax -> fromMax <= fromTop ->
  Rounded.mapScrollTop rnd fromTop fromStops toStops fromMax toMax
  == Rounded.add rnd
       (nth (commonLen fromStops toStops - 2)
            (Rounded.resampleStops rnd toStops
               (commonLen fromStops toStops)) 0)
       (Rounded.sub rnd (last toStops 0)
          (nth (commonLen fromStops toStops - 2)
               (Rounded.resampleStops rnd toStops
                  (commonLen fromStops toStops)) 0)).
Proof.
  intros Lf Lt Hall Rfi Rtl Rti Hbelow Hlast Hfm Htm Hx.
  rewrite !last_nth in *.
  rewrite rmapScrollTop_general by assumption. cbv zeta.
  rewrite !stopsOrTrivial_long by lia.
  destruct (commonLen_bounds fromStops toStops Lf Lt) as (Hl2 & _ & _).
  set (len := commonLen fromStops toStops) in *.
  pose proof (clamp_above fromTop 0 fromMax ltac:(lra) Hx) as Htop.
  set (top := clamp fromTop 0 fromMax) in *.
  assert (Rfl : rep (nth (length fromStops - 1) fromStops 0))
    by (apply Hall, nth_In; lia).
  assert (EfS : nth (len - 1) (Rounded.resampleStops rnd fromStops len) 0
                == nth (length fromStops - 1) fromStops 0).
  { apply (rresampleStops_last rnd L); try assumption.
    replace (Z.of_nat (length fromStops) - 1)%Z
      with (Z.of_nat (length fromStops - 1)) by lia.
    exact Rfi. }
  assert (EtS : nth (len - 1) (Rounded.resampleStops rnd toStops len) 0
                == nth (length toStops - 1) toStops 0).
  { apply (rresampleStops_last rnd L); try assumption.
    replace (Z.of_nat (length toStops) - 1)%Z
      with (Z.of_nat (length toStops - 1)) by lia.
    exact Rti. }
  assert (RfS : forall j, (j < len)%nat ->
            rep (nth j (Rounded.resampleStops rnd fromStops len) 0)).
  { intros j Hj.
    apply (rresampleStops_nonneg_rep rnd L fromStops len Lf Hl2 j Hall Hj). }
  set (fS := Rounded.resampleStops rnd fromStops len) in *.
  set (tS := Rounded.resampleStops rnd toStops len) in *.
  rewrite scanSegment_runs.
  - replace (0 + (len - 2))%nat with (len - 2)%nat by lia.
    assert (ES : S (len - 2) = (len - 1)%nat) by lia.
    rewrite (rmapSegment_past_end rnd L).
    + rewrite ES. apply rmix_compat_ends. exact EtS.
    + apply RfS. lia.
    + apply RfS. lia.
    + rewrite ES. pose proof (Hbelow (len - 2)%nat ltac:(lia)). lra.
    + rewrite ES. lra.
  - intros j Hj. pose proof (Hbelow (S j) ltac:(lia)). lra.
Qed.

(** The same with the from side not resampled. *)
Lemma rmapScrollTop_beyond_last_kept (fromTop : Q)
    (fromStops toStops : list Q) (fromMax toMax : Q) :
  (2 <= length fromStops)%nat -> (length fromStops <= length toStops)%nat ->
  nondecreasing fromStops ->
  (forall y, In y fromStops -> 0 <= y /\ rep y) ->
  rep (Num.of_nat (length fromStops - 1)) ->
  rep (last toStops 0) -> rep (Num.of_nat (length toStops - 1)) ->
  nth (length fromStops - 2) fromStops 0 < last fromStops 0 ->
  last fromStops 0 <= fromMax ->
  0 < fromMax -> 0 < toMax -> fromMax <= fromTop ->
  Rounded.mapScrollTop rnd fromTop fromStops toStops fromMax toMax
  == Rounded.add rnd
       (nth (length fromStops - 2)
            (Rounded.resampleStops rnd toStops (length fromStops)) 0)
       (Rounded.sub rnd (last toStops 0)
          (nth (length fromStops - 2)
               (Rounded.resampleStops rnd toStops (length fromStops)) 0)).
Proof.
  intros Lf Lft Hf Hall Rfi Rtl Rti Hpen Hlast Hfm Htm Hx.
  assert (E : commonLen fromStops toStops = length fromStops)
    by (unfold commonLen; lia).
  rewrite <- E.
  apply rmapScrollTop_beyond_last; try assumption; try lia.
  intros j Hj. rewrite E in *.
  rewrite (rresampleStops_same rnd fromStops) by reflexivity.
  apply Qle_lt_trans with (nth (length fromStops - 2) fromStops 0);
    [apply nondecreasing_nth; [assumption | lia] | assumption].
Qed.

End RoundedMapper.

(** ** Monotonicity under rounding *)




(** ** The boundaries under rounding *)

(** On doubles the second boundary can also miss [toMax] by a rounding
    error: the last segment gives [130.2 + (800.1 - 130.2)], which rounds
    to 800.1000000000001. *)
Example mapScrollTop_bottom_rounds :
  let toMax := (8001 / 10)%float in
  let out := F64.mapScrollTop 400 [0; 100; 400]%float
               [0; 1302 / 10; toMax]%float 400 toMax in
  PrimFloat.eqb out toMax = false
  /\ PrimFloat.eqb out (1302 / 10 + (toMax - 1302 / 10)) = true.
Proof. vm_compute. split; reflexivity. Qed.

(** C8, amended.  For non-decreasing sequences of doubles with at least 2
    entries each, bracketed at 0 and at the positive maxima, with every
    arithmetic operation rounded: offset 0 is mapped to 0, also when
    resampling occurs; and when every resampled from-stop before the last
    is strictly below [fromMax] (without resampling of the from side: when
    the last entry of [fromStops] is strictly greater than the entry
    before it), [fromMax] is mapped to the rounded sum
    [p + (toMax - p)], [p] being the resampled to-stop before the last:
    [toMax] up to the rounding of that sum, and [toMax] itself when the
    difference [toMax - p] is a double. *)
Theorem mapScrollTop_boundaries_rounded (rnd : Q -> Q)
    (fromStops toStops : list Q) (fromMax toMax : Q) :
  Rounded.Laws rnd ->
  (2 <= length fromStops)%nat -> (2 <= length toStops)%nat ->
  nondecreasing fromStops -> nondecreasing toStops ->
  nth 0 fromStops 0 == 0 -> nth 0 toStops 0 == 0 ->
  last fromStops 0 == fromMax -> last toStops 0 == toMax ->
  0 < fromMax -> 0 < toMax ->
  Forall (Rounded.representable rnd) fromStops ->
  Rounded.representable rnd toMax ->
  Rounded.representable rnd (Num.of_nat (length fromStops - 1)) ->
  Rounded.representable rnd (Num.of_nat (length toStops - 1)) ->
  let len := commonLen fromStops toStops in
  let fS := Rounded.resampleStops rnd fromStops len in
  let p := nth (len - 2) (Rounded.resampleStops rnd toStops len) 0 in
  Rounded.mapScrollTop rnd 0 fromStops toStops fromMax toMax == 0
  /\ ((forall j, (j < len - 1)%nat -> nth j fS 0 < fromMax) ->
      Rounded.mapScrollTop rnd fromMax fromStops toStops fromMax toMax
      == Rounded.add rnd p (Rounded.sub rnd toMax p))
  /\ ((length fromStops <= length toStops)%nat ->
      nth (length fromStops - 2) fromStops 0 < fromMax ->
      Rounded.mapScrollTop rnd fromMax fromStops toStops fromMax toMax
      == Rounded.add rnd p (Rounded.sub rnd toMax p))
  /\ (Rounded.representable rnd (toMax - p) ->
      Rounded.add rnd p (Rounded.sub rnd toMax p) == toMax).
Proof.
  intros L Lf Lt Hf Ht F0 T0 Fl Tl Hfm Htm Rf Rtm Rfi Rti len fS p.
  rewrite Forall_forall in Rf.
  assert (Hall : forall y, In y fromStops ->
                           0 <= y /\ Rounded.representable rnd y).
  { intros y Hy. split; [now apply (stops_nonneg fromStops) | now apply Rf]. }
  destruct (commonLen_bounds fromStops toStops Lf Lt) as (Hl2 & Hlf & Hlt).
  fold len in Hl2, Hlf, Hlt.
  assert (Rtl : Rounded.representable rnd (last toStops 0))
    by (apply (rep_eq rnd L toMax); [symmetry; assumption | assumption]).
  assert (Eend : forall q, Rounded.add rnd q (Rounded.sub rnd (last toStops 0) q)
                           == Rounded.add rnd q (Rounded.sub rnd toMax q))
    by (intros q; apply (rmix_compat_ends rnd L); assumption).
  assert (Hbeyond :
    (forall j, (j < len - 1)%nat -> nth j fS 0 < fromMax) ->
    Rounded.mapScrollTop rnd fromMax fromStops toStops fromMax toMax
    == Rounded.add rnd p (Rounded.sub rnd toMax p)).
  { intros Hbelow. rewrite <- Eend.
    apply (rmapScrollTop_beyond_last rnd L); try assumption; try lra.
    intros j Hj. rewrite Fl. now apply Hbelow. }
  split; [|split; [exact Hbeyond | split]].
  - rewrite rmapScrollTop_general by assumption. cbv zeta.
    rewrite !stopsOrTrivial_long by lia. fold len. fold fS.
    pose proof (clamp_below 0 0 fromMax ltac:(lra) ltac:(lra)) as Htop.
    set (top := clamp 0 0 fromMax) in *.
    assert (EfS : nth 0 fS 0 == 0).
    { unfold fS. rewrite (rresampleStops_first rnd L) by
        (try assumption; apply Rf, nth_In; lia). exact F0. }
    assert (H1 : 0 <= nth 1 fS 0).
    { apply (rresampleStops_nonneg_rep rnd L fromStops len Lf Hl2 1%nat Hall).
      lia. }
    rewrite scanSegment_stays by lra.
    rewrite (rmapSegment_at_start rnd L) by lra.
    apply Qeq_trans with (rnd 0); [|apply (rnd_0 rnd L)].
    apply (rnd_eq rnd L).
    rewrite (rresampleStops_first rnd L); try assumption.
    apply (rep_eq rnd L 0); [symmetry; assumption | apply (rep_0 rnd L)].
  - intros Hle Hpen. apply Hbeyond.
    assert (E : len = length fromStops) by (unfold len, commonLen; lia).
    intros j Hj. unfold fS. rewrite E in *.
    rewrite (rresampleStops_same rnd fromStops) by reflexivity.
    apply Qle_lt_trans with (nth (length fromStops - 2) fromStops 0);
      [apply nondecreasing_nth; [assumption | lia] | assumption].
  - intros Rd. unfold Rounded.add, Rounded.sub.
    unfold Rounded.representable in Rd, Rtm.
    apply Qeq_trans with (rnd toMax); [|exact Rtm].
    apply (rnd_eq rnd L). rewrite Rd. ring.
Qed.

Lemma mapScrollTop_boundaries_rounded_witness :
  Rounded.mapScrollTop Rounded.exact 0 [0; 100; 400] [0; 10; 20; 500]
    400 500 == 0
  /\ Rounded.mapScrollTop Rounded.exact 400 [0; 100; 400] [0; 10; 20; 500]
       400 500
     == Rounded.add Rounded.exact 15 (Rounded.sub Rounded.exact 500 15).
Proof.
  assert (Hf : nondecreasing [0; 100; 400])
    by (simpl; unfold Qle; simpl; lia).
  assert (Ht : nondecreasing [0; 10; 20; 500])
    by (simpl; unfold Qle; simpl; lia).
  assert (Rf : Forall (Rounded.representable Rounded.exact) [0; 100; 400])
    by (repeat constructor; reflexivity).
  assert (E : nth (commonLen [0; 100; 400] [0; 10; 20; 500] - 2)
                (Rounded.resampleStops Rounded.exact [0; 10; 20; 500]
                   (commonLen [0; 100; 400] [0; 10; 20; 500])) 0 == 15)
    by (vm_compute; reflexivity).
  destruct (mapScrollTop_boundaries_rounded Rounded.exact [0; 100; 400]
              [0; 10; 20; 500] 400 500 exact_laws
              ltac:(simpl; lia) ltac:(simpl; lia) Hf Ht
              ltac:(reflexivity) ltac:(reflexivity)
              ltac:(reflexivity) ltac:(reflexivity)
              ltac:(reflexivity) ltac:(reflexivity) Rf
              ltac:(reflexivity) ltac:(reflexivity) ltac:(reflexivity))
    as (H0 & _ & H1 & _).
  split; [exact H0|].
  rewrite H1; [| simpl; lia | vm_compute; reflexivity].
  unfold Rounded.add, Rounded.sub, Rounded.exact. rewrite E. reflexivity.
Defined.

(** ** The range of the result under rounding *)




(** ** Short stop sequences *)

(** C9, as stated, fails when only one side is short: the other side is
    resampled to its first and last stop, and the mapping is linear
    between those, not the ratio onto [0, toMax].  With [fromStops = [7]]
    (replaced by [0, 400]) and [toStops = [0, 10, 20, 500]], offset 100 is
    mapped to [0 + (500 - 0) * (100 / 400) = 125], not to
    [800 * (100 / 400) = 200]. *)
Lemma mapScrollTop_short_stops_counterexample :
  (length [7] < 2)%nat /\ 0 < 400 /\ 0 < 800
  /\ mapScrollTop 100 [7] [0; 10; 20; 500] 400 800 == 125
  /\ ~ mapScrollTop 100 [7] [0; 10; 20; 500] 400 800 == 100 / 400 * 800
  /\ PrimFloat.eqb
       (F64.mapScrollTop 100 [7]%float [0; 10; 20; 500]%float 400 800)
       125 = true.
Proof.
  repeat match goal with |- _ /\ _ => split end;
    try (simpl; lia); try (vm_compute; reflexivity).
  vm_compute. discriminate.
Qed.

(** C9, amended.  For doubles [fromTop], [fromMax > 0] and [toMax > 0],
    with every arithmetic operation rounded and
    [ratio = clamp(clamp(fromTop, 0, fromMax) / fromMax, 0, 1)]: a sequence
    with fewer than 2 entries gives the same result as [0, max] in its
    place; when both sequences are short the result is [toMax * ratio];
    when only [fromStops] is short, [toStops] is resampled to its first
    and last stop and the result is [first + (last - first) * ratio]; when
    only [toStops] is short, [fromStops] is resampled to its first and last
    stop and the result is [toMax * t], [t] being the clamped fraction of
    the offset between those two; and on binary64
    [mapScrollTop(200, [], [], 400, 800)] is 400. *)
Theorem mapScrollTop_short_stops_rounded (rnd : Q -> Q) (fromTop : Q)
    (fromStops toStops : list Q) (fromMax toMax : Q) :
  Rounded.Laws rnd -> 0 < fromMax -> 0 < toMax ->
  Rounded.representable rnd fromTop ->
  Rounded.representable rnd fromMax ->
  Rounded.representable rnd toMax ->
  let mapped := fun f t => Rounded.mapScrollTop rnd fromTop f t fromMax toMax in
  let top := clamp fromTop 0 fromMax in
  let ratio := clamp (Rounded.div rnd top fromMax) 0 1 in
  ((length fromStops < 2)%nat ->
   mapped fromStops toStops = mapped [0; fromMax] toStops)
  /\ ((length toStops < 2)%nat ->
      mapped fromStops toStops = mapped fromStops [0; toMax])
  /\ ((length fromStops < 2)%nat -> (length toStops < 2)%nat ->
      mapped fromStops toStops == Rounded.mul rnd toMax ratio)
  /\ ((length fromStops < 2)%nat -> (2 <= length toStops)%nat ->
      Rounded.representable rnd (nth 0 toStops 0) ->
      Rounded.representable rnd (last toStops 0) ->
      Rounded.representable rnd (Num.of_nat (length toStops - 1)) ->
      mapped fromStops toStops
      == Rounded.add rnd (nth 0 toStops 0)
           (Rounded.mul rnd
              (Rounded.sub rnd (last toStops 0) (nth 0 toStops 0)) ratio))
  /\ ((2 <= length fromStops)%nat -> (length toStops < 2)%nat ->
      Rounded.representable rnd (nth 0 fromStops 0) ->
      Rounded.representable rnd (last fromStops 0) ->
      Rounded.representable rnd (Num.of_nat (length fromStops - 1)) ->
      mapped fromStops toStops
      == Rounded.mul rnd toMax
           (if Qeq_bool (last fromStops 0) (nth 0 fromStops 0) then 0
            else clamp
                   (Rounded.div rnd
                      (Rounded.sub rnd top (nth 0 fromStops 0))
                      (Rounded.sub rnd (last fromStops 0)
                                   (nth 0 fromStops 0))) 0 1))
  /\ PrimFloat.eqb (F64.mapScrollTop 200 [] [] 400 800) 400 = true.
Proof.
  intros L Hfm Htm Rx Rfm Rtm mapped top ratio.
  assert (Rtop : Rounded.representable rnd top)
    by (apply rep_clamp; [assumption | apply (rep_0 rnd L) | assumption]).
  assert (Hsub : forall f t, (length f < 2)%nat ->
            mapped f t = mapped [0; fromMax] t).
  { intros f t Hs. unfold mapped.
    rewrite !rmapScrollTop_general by assumption. cbv zeta.
    rewrite (stopsOrTrivial_short f) by assumption.
    rewrite (stopsOrTrivial_long [0; fromMax]) by (simpl; lia).
    reflexivity. }
  assert (Hsubt : forall f t, (length t < 2)%nat ->
            mapped f t = mapped f [0; toMax]).
  { intros f t Hs. unfold mapped.
    rewrite !rmapScrollTop_general by assumption. cbv zeta.
    rewrite (stopsOrTrivial_short t) by assumption.
    rewrite (stopsOrTrivial_long [0; toMax]) by (simpl; lia).
    reflexivity. }
  (* the fraction in the segment [0, fromMax] is the ratio *)
  assert (Hratio :
    (if Qeq_bool fromMax 0 then 0
     else clamp (Rounded.div rnd (Rounded.sub rnd top 0)
                             (Rounded.sub rnd fromMax 0)) 0 1) == ratio).
  { destruct (Qeq_bool_spec fromMax 0) as [E|_]; [lra|].
    apply clamp_compat. apply (rdiv_compat rnd L);
      apply (rsub_zero rnd L); assumption. }
  (* from side replaced by [0, fromMax], to side of any length >= 2 *)
  assert (Hfrom : forall t, (2 <= length t)%nat ->
            Rounded.representable rnd (nth 0 t 0) ->
            Rounded.representable rnd (last t 0) ->
            Rounded.representable rnd (Num.of_nat (length t - 1)) ->
            mapped [0; fromMax] t
            == Rounded.add rnd (nth 0 t 0)
                 (Rounded.mul rnd (Rounded.sub rnd (last t 0) (nth 0 t 0))
                    ratio)).
  { intros t Lt R0 Rl Ri. unfold mapped.
    rewrite rmapScrollTop_general by assumption. cbv zeta.
    rewrite !stopsOrTrivial_long by (simpl; lia).
    assert (El : commonLen [0; fromMax] t = 2%nat)
      by (unfold commonLen; cbn [length]; lia).
    rewrite El. rewrite (rresampleStops_same rnd [0; fromMax]) by reflexivity.
    change (scanSegment top [0; fromMax] (2 - 2) 0) with 0%nat.
    unfold Rounded.mapSegment. cbv zeta.
    change (nth 0 [0; fromMax] 0) with 0.
    change (nth 1 [0; fromMax] 0) with fromMax.
    apply (rmix_compat rnd L).
    - apply (rresampleStops_first rnd L); try assumption; lia.
    - rewrite last_nth in *.
      apply (rresampleStops_last rnd L t 2); try assumption; try lia.
      replace (Z.of_nat (length t) - 1)%Z
        with (Z.of_nat (length t - 1)) by lia.
      exact Ri.
    - exact Hratio. }
  (* to side replaced by [0, toMax], from side of any length >= 2 *)
  assert (Hto : forall f, (2 <= length f)%nat ->
            Rounded.representable rnd (nth 0 f 0) ->
            Rounded.representable rnd (last f 0) ->
            Rounded.representable rnd (Num.of_nat (length f - 1)) ->
            mapped f [0; toMax]
            == Rounded.mul rnd toMax
                 (if Qeq_bool (last f 0) (nth 0 f 0) then 0
                  else clamp
                         (Rounded.div rnd (Rounded.sub rnd top (nth 0 f 0))
                            (Rounded.sub rnd (last f 0) (nth 0 f 0))) 0 1)).
  { intros f Lf R0 Rl Ri. unfold mapped.
    rewrite rmapScrollTop_general by assumption. cbv zeta.
    rewrite !stopsOrTrivial_long by (simpl; lia).
    assert (El : commonLen f [0; toMax] = 2%nat)
      by (unfold commonLen; cbn [length]; lia).
    rewrite El. rewrite (rresampleStops_same rnd [0; toMax]) by reflexivity.
    change (2 - 2)%nat with 0%nat.
    change (scanSegment top (Rounded.resampleStops rnd f 2) 0 0) with 0%nat.
    unfold Rounded.mapSegment. cbv zeta.
    change (nth 0 [0; toMax] 0) with 0.
    change (nth 1 [0; toMax] 0) with toMax.
    apply (rmix_from_zero rnd L); [assumption|].
    apply (rfrac_compat rnd L).
    - apply (rresampleStops_first rnd L); try assumption; lia.
    - rewrite last_nth in *.
      apply (rresampleStops_last rnd L f 2); try assumption; try lia.
      replace (Z.of_nat (length f) - 1)%Z
        with (Z.of_nat (length f - 1)) by lia.
      exact Ri. }
  split; [now apply Hsub|]. split; [now apply Hsubt|].
  split; [|split; [|split]].
  - intros Hf Ht. rewrite (Hsub _ _ Hf), (Hsubt _ _ Ht).
    rewrite Hto; try (simpl; lia);
      try (apply (rep_0 rnd L)); try assumption.
    + apply (rnd_eq rnd L).
      change (last [0; fromMax] 0) with fromMax.
      change (nth 0 [0; fromMax] 0) with 0.
      rewrite Hratio. reflexivity.
    + apply (Rounded.rnd_one rnd L).
  - intros Hf Ht R0 Rl Ri. rewrite (Hsub _ _ Hf). now apply Hfrom.
  - intros Hf Ht R0 Rl Ri. rewrite (Hsubt _ _ Ht). now apply Hto.
  - vm_compute. reflexivity.
Qed.

Lemma mapScrollTop_short_stops_rounded_witness :
  Rounded.mapScrollTop Rounded.exact 200 [] [] 400 800
  == Rounded.mul Rounded.exact 800
       (clamp (Rounded.div Rounded.exact (clamp 200 0 400) 400) 0 1).
Proof.
  destruct (mapScrollTop_short_stops_rounded Rounded.exact 200 [] [] 400 800
              exact_laws ltac:(reflexivity) ltac:(reflexivity)
              ltac:(reflexivity) ltac:(reflexivity) ltac:(reflexivity))
    as (_ & _ & H & _).
  apply H; simpl; lia.
Defined.

(** ** The echo of a replace *)


(** ** Landmarks and the bottom under rounding *)

(** With stop sequences of one length, the from-stops doubles and strictly
    increasing, and every arithmetic operation rounded: the first
    from-stop is mapped to the first to-stop (rounded), and the [k]-th
    from-stop, [k > 0], ends the segment before it and is mapped to the
    rounded sum [t_(k-1) + (t_k - t_(k-1))], which is the [k]-th to-stop up
    to the rounding of that sum. *)
Theorem mapScrollTop_landmark_rounded (rnd : Q -> Q)
    (fromStops toStops : list Q) (fromMax toMax : Q) (k : nat) :
  Rounded.Laws rnd ->
  length fromStops = length toStops -> (2 <= length fromStops)%nat ->
  increasing fromStops ->
  Forall (Rounded.representable rnd) fromStops ->
  (k < length fromStops)%nat ->
  0 <= nth k fromStops 0 <= fromMax -> 0 < fromMax -> 0 < toMax ->
  Rounded.mapScrollTop rnd (nth k fromStops 0) fromStops toStops
    fromMax toMax
  == match k with
     | O => rnd (nth 0 toStops 0)
     | S j => Rounded.add rnd (nth j toStops 0)
                (Rounded.sub rnd (nth k toStops 0) (nth j toStops 0))
     end.
Proof.
  intros L Hlen H2 Hinc Rf Hk Hrange Hfm Htm.
  rewrite Forall_forall in Rf.
  rewrite rmapScrollTop_general by assumption. cbv zeta.
  rewrite !stopsOrTrivial_long by lia.
  assert (E : commonLen fromStops toStops = length fromStops)
    by (unfold commonLen; lia).
  rewrite E, (rresampleStops_same rnd fromStops) by reflexivity.
  rewrite (rresampleStops_same rnd toStops) by congruence.
  pose proof (clamp_inside _ 0 fromMax Hrange) as Htop.
  set (top := clamp (nth k fromStops 0) 0 fromMax) in *.
  destruct k as [|k].
  - pose proof (increasing_adjacent fromStops Hinc 0 ltac:(lia)).
    rewrite scanSegment_stays by lra.
    apply (rmapSegment_at_start rnd L). exact Htop.
  - replace (length fromStops - 2)%nat
      with (k + (length fromStops - 2 - k))%nat by lia.
    rewrite scanSegment_finds.
    + simpl. apply (rmapSegment_past_end rnd L).
      * apply Rf, nth_In. lia.
      * apply Rf, nth_In. lia.
      * apply increasing_adjacent; [assumption | lia].
      * lra.
    + intros j Hj. rewrite Htop.
      apply increasing_nth; [assumption | lia].
    + simpl. lra.
Qed.

Lemma mapScrollTop_landmark_rounded_witness :
  Rounded.mapScrollTop Rounded.exact (nth 2 [0; 100; 250; 400] 0)
    [0; 100; 250; 400] [0; 50; 300; 500] 400 500
  == Rounded.add Rounded.exact 50 (Rounded.sub Rounded.exact 300 50).
Proof.
  assert (Hi : increasing [0; 100; 250; 400])
    by (simpl; unfold Qlt; simpl; lia).
  assert (Rf : Forall (Rounded.representable Rounded.exact)
                      [0; 100; 250; 400])
    by (repeat constructor; reflexivity).
  apply (mapScrollTop_landmark_rounded Rounded.exact [0; 100; 250; 400]
           [0; 50; 300; 500] 400 500 2 exact_laws
           ltac:(reflexivity) ltac:(simpl; lia) Hi Rf ltac:(simpl; lia)
           ltac:(simpl; unfold Qle; simpl; lia)
           ltac:(reflexivity) ltac:(reflexivity)).
Defined.

(** With the from-stops doubles, non-decreasing, not resampled and the
    last one strictly above the one before it and not above [fromMax],
    every offset at or beyond [fromMax] is mapped to the rounded sum
    [p + (last - p)], [last] being the last to-stop and [p] the (resampled)
    to-stop before it: the last to-stop up to the rounding of that sum. *)
Theorem mapScrollTop_bottom_rounded (rnd : Q -> Q) (fromTop : Q)
    (fromStops toStops : list Q) (fromMax toMax : Q) :
  Rounded.Laws rnd ->
  (2 <= length fromStops)%nat -> (length fromStops <= length toStops)%nat ->
  nondecreasing fromStops ->
  Forall (fun y => 0 <= y /\ Rounded.representable rnd y) fromStops ->
  Rounded.representable rnd (Num.of_nat (length fromStops - 1)) ->
  Rounded.representable rnd (last toStops 0) ->
  Rounded.representable rnd (Num.of_nat (length toStops - 1)) ->
  nth (length fromStops - 2) fromStops 0 < last fromStops 0 ->
  last fromStops 0 <= fromMax ->
  0 < fromMax -> 0 < toMax -> fromMax <= fromTop ->
  let p := nth (length fromStops - 2)
               (Rounded.resampleStops rnd toStops (length fromStops)) 0 in
  Rounded.mapScrollTop rnd fromTop fromStops toStops fromMax toMax
  == Rounded.add rnd p (Rounded.sub rnd (last toStops 0) p).
Proof.
  intros L Lf Lft Hf Hall Rfi Rtl Rti Hpen Hlast Hfm Htm Hx p.
  rewrite Forall_forall in Hall.
  apply (rmapScrollTop_beyond_last_kept rnd L); assumption.
Qed.

Lemma mapScrollTop_bottom_rounded_witness :
  Rounded.mapScrollTop Rounded.exact 450 [0; 100; 399] [0; 10; 20; 500]
    400 500
  == Rounded.add Rounded.exact 15 (Rounded.sub Rounded.exact 500 15).
Proof.
  assert (Hn : nondecreasing [0; 100; 399])
    by (simpl; unfold Qle; simpl; lia).
  assert (Hall : Forall (fun y => 0 <= y
                                  /\ Rounded.representable Rounded.exact y)
                        [0; 100; 399])
    by (repeat constructor; try reflexivity; unfold Qle; simpl; lia).
  assert (E : nth (length [0; 100; 399] - 2)
                (Rounded.resampleStops Rounded.exact [0; 10; 20; 500]
                   (length [0; 100; 399])) 0 == 15)
    by (vm_compute; reflexivity).
  rewrite (mapScrollTop_bottom_rounded Rounded.exact 450 [0; 100; 399]
             [0; 10; 20; 500] 400 500 exact_laws
             ltac:(simpl; lia) ltac:(simpl; lia) Hn Hall
             ltac:(reflexivity) ltac:(reflexivity) ltac:(reflexivity)
             ltac:(reflexivity) ltac:(unfold Qle; simpl; lia)
             ltac:(reflexivity) ltac:(reflexivity)
             ltac:(unfold Qle; simpl; lia)).
  cbv zeta. unfold Rounded.add, Rounded.sub, Rounded.exact.
  rewrite E. reflexivity.
Defined.

(** ** Scenarios on binary64 *)

(** On binary64, with the stops [0, 100, 400] and [0, 50, 500], the offset
    100 is mapped to 50 and the offset 250 to 275; with no stops on either
    side, the offset 200 of 400 is mapped to 400 of 800; and four stops
    [0, 10, 20, 500] resampled to three are [0, 15, 500]. *)
Example mapScrollTop_scenarios_binary64 :
  PrimFloat.eqb
    (F64.mapScrollTop 100 [0; 100; 400]%float [0; 50; 500]%float 400 500)
    50 = true
  /\ PrimFloat.eqb
       (F64.mapScrollTop 250 [0; 100; 400]%float [0; 50; 500]%float 400 500)
       275 = true
  /\ PrimFloat.eqb (F64.mapScrollTop 200 [] [] 400 800) 400 = true
  /\ forallb (fun p => PrimFloat.eqb (fst p) (snd p))
       (combine (F64.resampleStops [0; 10; 20; 500]%float 3)
                [0; 15; 500]%float) = true
  /\ length (F64.resampleStops [0; 10; 20; 500]%float 3) = 3%nat.
Proof. vm_compute. repeat split. Qed.

(** ** The scroll animation under rounding *)

Section SmoothAnimation.

Variable rnd : Q -> Q.
Variable pow3 : Q -> Q.
Hypothesis L : Rounded.Laws rnd.
Hypothesis pow3_zero : forall x, x == 0 -> pow3 x == 0.

Lemma easeOutCubic_at_one (p : Q) :
  p == 1 -> Smooth.easeOutCubic rnd pow3 p == 1.
Proof.
  intros Hp. unfold Smooth.easeOutCubic, Rounded.sub.
  assert (E0 : rnd (1 - p) == 0).
  { apply Qeq_trans with (rnd 0); [|apply (rnd_0 rnd L)].
    apply (rnd_eq rnd L). rewrite Hp. ring. }
  pose proof (pow3_zero _ E0) as E1.
  apply Qeq_trans with (rnd 1); [|apply (rnd_1 rnd L)].
  apply (rnd_eq rnd L). rewrite E1. ring.
Qed.

Lemma progress_bounds (a : Smooth.Animation) (now p : Q) :
  Smooth.progress rnd a now = Some p -> 0 <= p <= 1.
Proof.
  unfold Smooth.progress. cbv zeta.
  destruct (Qeq_bool (Smooth.durationMs a) 0).
  - destruct (Qeq_bool _ 0); [discriminate|].
    intros [= <-]. destruct (Qle_bool 0 _); lra.
  - intros [= <-]. apply clamp_bounds. lra.
Qed.

Lemma progress_over (a : Smooth.Animation) (now : Q) :
  Rounded.representable rnd (Smooth.durationMs a) ->
  Rounded.representable rnd (Smooth.startAt a) ->
  Rounded.representable rnd now ->
  0 <= Smooth.durationMs a ->
  Smooth.startAt a + Smooth.durationMs a <= now ->
  0 < Smooth.durationMs a \/ Smooth.startAt a < now ->
  exists p, Smooth.progress rnd a now = Some p /\ p == 1.
Proof.
  intros Rd Rs Rn Hd Hover Hpos. unfold Smooth.progress. cbv zeta.
  set (elapsed := Rounded.sub rnd now (Smooth.startAt a)).
  assert (He : Smooth.durationMs a <= elapsed).
  { unfold elapsed, Rounded.sub. apply (rnd_ge_rep rnd L); [lra | exact Rd]. }
  destruct (Qeq_bool_spec (Smooth.durationMs a) 0) as [Ez|Nz].
  - destruct Hpos as [Hp|Hp]; [lra|].
    assert (Hne : ~ elapsed == 0).
    { unfold elapsed, Rounded.sub.
      apply (Rounded.rnd_apart rnd L); try assumption. lra. }
    destruct (Qeq_bool_spec elapsed 0) as [E|_]; [contradiction|].
    exists (if Qle_bool 0 elapsed then 1 else 0). split; [reflexivity|].
    destruct (Qle_bool_spec 0 elapsed); [reflexivity | lra].
  - assert (Hd' : 0 < Smooth.durationMs a) by lra.
    eexists. split; [reflexivity|].
    apply clamp_above; [lra|]. unfold Rounded.div.
    apply (rnd_ge_1 rnd L). apply Qle_shift_div_l; lra.
Qed.

Lemma step_landing (a : Smooth.Animation) (p : Q) :
  Rounded.representable rnd (Smooth.delta a) -> p == 1 ->
  Rounded.add rnd (Smooth.start a)
    (Rounded.mul rnd (Smooth.delta a) (Smooth.easeOutCubic rnd pow3 p))
  == Rounded.add rnd (Smooth.start a) (Smooth.delta a).
Proof.
  intros Rd Hp. pose proof (easeOutCubic_at_one p Hp) as He.
  unfold Rounded.add, Rounded.mul. unfold Rounded.representable in Rd.
  assert (E : rnd (Smooth.delta a * Smooth.easeOutCubic rnd pow3 p)
              == Smooth.delta a).
  { apply Qeq_trans with (rnd (Smooth.delta a)); [|exact Rd].
    apply (rnd_eq rnd L). rewrite He. ring. }
  apply (rnd_eq rnd L). rewrite E. reflexivity.
Qed.

Lemma smoothScrollTo_started (el : Element) (target : Q)
    (cancelRef : option Smooth.Animation) (duration now0 : Q)
    (a : Smooth.Animation) :
  Smooth.smoothScrollTo rnd el target cancelRef duration now0 = Some a ->
  a = Smooth.mkAnimation (scrollTop el)
        (Rounded.sub rnd (clamp target 0 (maxScroll el)) (scrollTop el))
        now0 duration
  /\ (1 # 2) <= Num.abs (Smooth.delta a).
Proof.
  unfold Smooth.smoothScrollTo. cbv zeta.
  destruct (Num.gtb (1 # 2) _) eqn:E.
  - destruct cancelRef; discriminate.
  - intros [= <-]. split; [reflexivity|]. apply gtb_false in E. exact E.
Qed.

End SmoothAnimation.

(** An animation that [smoothScrollTo] starts, with every arithmetic
    operation rounded and [Math.pow] only known to take 0 to 0: it starts
    at the current offset with [delta] the rounded difference to the
    clamped target, at least half a pixel in size; a step that requests no
    further frame has assigned the rounded sum [start + delta]; the first
    step at or after [startAt + durationMs] (for a duration 0: after
    [startAt]) is such a step; and that sum is the clamped target when the
    difference to it was computed without rounding. *)
Theorem smoothScrollTo_lands_rounded (rnd pow3 : Q -> Q) (el : Element)
    (target : Q) (cancelRef : option Smooth.Animation) (duration now0 : Q)
    (a : Smooth.Animation) :
  Rounded.Laws rnd -> (forall x, x == 0 -> pow3 x == 0) ->
  Smooth.smoothScrollTo rnd el target cancelRef duration now0 = Some a ->
  let to := clamp target 0 (maxScroll el) in
  let landing := Rounded.add rnd (Smooth.start a) (Smooth.delta a) in
  (Smooth.start a = scrollTop el
   /\ Smooth.delta a = Rounded.sub rnd to (scrollTop el)
   /\ (1 # 2) <= Num.abs (Smooth.delta a))
  /\ (forall now el' el'' next,
        Smooth.step rnd pow3 a now el' = Some (el'', next) ->
        next = Some a \/ (next = None /\ scrollTop el'' == landing))
  /\ (forall now el',
        0 <= duration ->
        Rounded.representable rnd duration ->
        Rounded.representable rnd now0 -> Rounded.representable rnd now ->
        now0 + duration <= now -> 0 < duration \/ now0 < now ->
        exists el'',
          Smooth.step rnd pow3 a now el' = Some (el'', None)
          /\ scrollTop el'' == landing
          /\ scrollHeight el'' = scrollHeight el'
          /\ clientHeight el'' = clientHeight el')
  /\ (Rounded.representable rnd to ->
      Rounded.representable rnd (to - scrollTop el) -> landing == to).
Proof.
  intros L Hpow Hs to landing.
  destruct (smoothScrollTo_started rnd el target cancelRef duration now0 a Hs)
    as [Ea Habs].
  assert (Rd : Rounded.representable rnd (Smooth.delta a))
    by (rewrite Ea; cbn [Smooth.delta]; apply (rep_rnd rnd L)).
  split; [|split; [|split]].
  - rewrite Ea in *. cbn [Smooth.start Smooth.delta] in *.
    repeat split. exact Habs.
  - intros now el' el'' next Hstep. unfold Smooth.step in Hstep.
    destruct (Smooth.progress rnd a now) as [p|] eqn:Ep; [|discriminate].
    pose proof (progress_bounds rnd a now p Ep) as Hb.
    cbv zeta in Hstep. injection Hstep as <- <-.
    destruct (Num.gtb 1 p) eqn:Eg; [now left | right].
    split; [reflexivity|]. apply gtb_false in Eg.
    cbn [Smooth.withScrollTop scrollTop].
    apply (step_landing rnd pow3 L Hpow); [assumption | lra].
  - intros now el' Hd Rdur Rn0 Rn Hover Hpos.
    destruct (progress_over rnd L a now) as (p & Ep & Hp);
      try assumption;
      try (rewrite Ea; cbn [Smooth.durationMs Smooth.startAt]; assumption).
    unfold Smooth.step. rewrite Ep. cbv zeta.
    assert (Eg : Num.gtb 1 p = false) by (apply gtb_false; lra).
    rewrite Eg. eexists. split; [reflexivity|].
    cbn [Smooth.withScrollTop scrollTop scrollHeight clientHeight].
    split; [|split; reflexivity].
    apply (step_landing rnd pow3 L Hpow); assumption.
  - intros Rto Rdiff. unfold landing. rewrite Ea.
    cbn [Smooth.start Smooth.delta].
    unfold Rounded.add, Rounded.sub. fold to.
    unfold Rounded.representable in Rto, Rdiff.
    apply Qeq_trans with (rnd to); [|exact Rto].
    apply (rnd_eq rnd L). rewrite Rdiff. ring.
Qed.

Lemma smoothScrollTo_lands_rounded_witness :
  let el := mkElement 50 1000 400 None 0 in
  let a := Smooth.mkAnimation 50 250 10 140 in
  Rounded.add Rounded.exact (Smooth.start a) (Smooth.delta a) == 300.
Proof.
  intros el a.
  destruct (smoothScrollTo_lands_rounded Rounded.exact (fun x => x ^ 3) el
              300 None 140 10 a exact_laws) as (_ & _ & _ & H).
  - intros x Hx. rewrite Hx. reflexivity.
  - vm_compute. reflexivity.
  - rewrite H; [vm_compute; reflexivity | reflexivity | reflexivity].
Defined.
